(** * dmenu-gnome: the selection engine of the GNOME Shell extension

    A shallow embedding of the two variants of [extension.js] found in the
    repository, and the properties of the filter, of the cursor and
    viewport, of commit/cancel and of the debounce timer.

    - [Single] is the single-select variant (result cap, Tab cycles);
    - [Multi] is the multi-select variant (selection set, scroll window).

    Conventions of the embedding:
    - a JavaScript string is a [string] whose characters are its UTF-16 code
      units; the type [ascii] restricts the model to code units below 256
      (Latin-1), where [toLowerCase] acts unit by unit;
    - a JavaScript number used as an index is a [Z];
    - a JavaScript [Set] of strings is the list of its members in insertion
      order, which is the order [Array.from] yields;
    - the toolkit (Clutter/St, GLib, DBus) is modelled by what the handlers
      observe of it: whether the actor is on the stage, which timeout
      sources are live, and the log of calls made to the outside. *)

From Stdlib Require Import ZArith Lia Ascii String.
From stdpp Require Import base decidable list strings.

Local Open Scope Z_scope.

(** ** JavaScript strings *)

Module JsString.

(** Code units matched by [\s] and stripped by [trim] (below 256): TAB, LF,
    VT, FF, CR, SPACE and NO-BREAK SPACE. *)
Definition is_space (c : ascii) : bool :=
  match N_of_ascii c with
  | 9%N | 10%N | 11%N | 12%N | 13%N | 32%N | 160%N => true
  | _ => false
  end.

(** [toLowerCase] on one Latin-1 code unit: A-Z and the accented capitals
    U+00C0..U+00DE, except the multiplication sign U+00D7, move up by 32. *)
Definition lower_char (c : ascii) : ascii :=
  let n := N_of_ascii c in
  if ((65 <=? n)%N && (n <=? 90)%N)
     || ((192 <=? n)%N && (n <=? 222)%N && negb (n =? 215)%N)
  then ascii_of_N (n + 32) else c.

Fixpoint toLowerCase (s : string) : string :=
  match s with
  | EmptyString => EmptyString
  | String c s' => String (lower_char c) (toLowerCase s')
  end.

Fixpoint trimStart (s : string) : string :=
  match s with
  | EmptyString => EmptyString
  | String c s' => if is_space c then trimStart s' else s
  end.

Fixpoint trimEnd (s : string) : string :=
  match s with
  | EmptyString => EmptyString
  | String c s' =>
      match trimEnd s' with
      | EmptyString => if is_space c then EmptyString else String c EmptyString
      | r => String c r
      end
  end.

Definition trim (s : string) : string := trimEnd (trimStart s).

(** [s.split(/\s+/)]. The head of the result is the piece being read;
    [after_sep] tells that the previous code unit belonged to a separator,
    so that a run of white space separates only once. As in JavaScript the
    empty string splits into one empty piece, and white space at either
    end yields an empty piece there. *)
Fixpoint split_from (after_sep : bool) (s : string) : list string :=
  match s with
  | EmptyString => [EmptyString]
  | String c s' =>
      if is_space c then
        if after_sep then split_from true s'
        else EmptyString :: split_from true s'
      else
        match split_from false s' with
        | piece :: pieces => String c piece :: pieces
        | [] => [String c EmptyString]
        end
  end.

Definition split_ws (s : string) : list string := split_from false s.

(** [s.includes(t)]: [t] occurs in [s] at some position. *)
Fixpoint includes (s t : string) : bool :=
  String.prefix t s
  || match s with
     | EmptyString => false
     | String _ s' => includes s' t
     end.

(** A string free of white space. *)
Fixpoint no_space (s : string) : bool :=
  match s with
  | EmptyString => true
  | String c s' => negb (is_space c) && no_space s'
  end.

End JsString.

Import JsString.

(** ** The filter shared by both variants

    [const filter = this.entry.get_text().trim().toLowerCase();]
    [const filterTokens = filter.split(/\s+/).filter(token => token.length > 0);] *)

Definition filterTokens (text : string) : list string :=
  let filter_text := toLowerCase (trim text) in
  filter (λ token, (0 < String.length token)%nat) (split_ws filter_text).

(** [filterTokens.every(token => itemLower.includes(token))] *)
Definition allTokensMatch (tokens : list string) (item : string) : bool :=
  let itemLower := toLowerCase item in
  forallb (fun token => includes itemLower token) tokens.

(** What the specification calls a case-insensitive occurrence: some
    substring of [line] equals [token] once both are lower-cased. *)
Definition contains_ci (line token : string) : Prop :=
  ∃ pre mid post : string,
    line = pre +:+ mid +:+ post ∧ toLowerCase mid = toLowerCase token.

(** [arr.length] and [arr[i]] for a number [i]: out of range, and at a
    negative index, the read yields [undefined], here [None]. *)
Definition len {A} (l : list A) : Z := Z.of_nat (length l).

Definition array_get {A} (l : list A) (i : Z) : option A :=
  if i <? 0 then None else l !! Z.to_nat i.

(** ** What the handlers see of the toolkit *)

Module Clutter.

(** The key symbols [_onKeyPress] compares against; every other symbol is
    [KEY_other]. *)
Inductive keysym :=
| KEY_Escape | KEY_Up | KEY_Down | KEY_k | KEY_j
| KEY_Page_Up | KEY_Page_Down | KEY_Home | KEY_Begin | KEY_a
| KEY_End | KEY_e | KEY_Tab | KEY_space | KEY_Return | KEY_KP_Enter
| KEY_other.

#[export] Instance keysym_eq_dec : EqDecision keysym.
Proof. solve_decision. Defined.

(** [Clutter.ModifierType]: the modifier state is a bit mask. *)
Definition SHIFT_MASK : Z := 1.
Definition CONTROL_MASK : Z := 4.

(** Truth of [modifiers & mask] in a JavaScript condition. *)
Definition has_modifier (modifiers mask : Z) : bool :=
  negb (Z.land modifiers mask =? 0).

End Clutter.

Import Clutter.

(** A JavaScript [Set] of strings, as its members in insertion order. *)
Module JsSet.

Definition has (x : string) (s : list string) : bool := bool_decide (x ∈ s).

Definition add (x : string) (s : list string) : list string :=
  if has x s then s else s ++ [x].

Definition delete (x : string) (s : list string) : list string :=
  filter (λ y, y ≠ x) s.

Definition size (s : list string) : Z := len s.

(** [Array.from(set)] *)
Definition to_array (s : list string) : list string := s.

End JsSet.

(** [prompt || '>'] in [DmenuExtension.show]; an absent argument is [None]. *)
Definition prompt_or_default (prompt : option string) : string :=
  match prompt with
  | Some p => if (String.length p =? 0)%nat then ">" else p
  | None => ">"
  end.

(** ** The multi-select variant *)

Module Multi.

(** Calls made to the outside, in the order they are made: the two DBus
    signals of [DmenuService], the attachment of the actor to
    [Main.uiGroup], and the unexport of the service. *)
Inductive call :=
| EmitItemSelected (selected_items : list string)
| EmitCancelled
| AddChild
| RemoveChild
| Unexport.

(** The fields of [DmenuUI] that carry state, followed by the state of the
    toolkit: the text of the entry and of the prompt label, whether the
    actor is a child of [Main.uiGroup], whether the service is exported, the
    live GLib timeout sources with the next id to hand out, and the log. *)
Record state := {
  _items : list string;
  _visible_items : list string;
  _selected_index : Z;
  _selected_items : list string;
  _filter_timeout : option positive;
  _scroll_start_index : Z;
  entry_text : string;
  prompt_label : string;
  on_stage : bool;
  exported : bool;
  sources : list positive;
  next_source : positive;
  log : list call
}.

(** [this._items_per_page = 20], never reassigned. *)
Definition _items_per_page : Z := 20.

Definition set_items (v : list string) (s : state) : state :=
  {| _items := v; _visible_items := s.(_visible_items);
     _selected_index := s.(_selected_index);
     _selected_items := s.(_selected_items);
     _filter_timeout := s.(_filter_timeout);
     _scroll_start_index := s.(_scroll_start_index);
     entry_text := s.(entry_text); prompt_label := s.(prompt_label);
     on_stage := s.(on_stage); exported := s.(exported);
     sources := s.(sources); next_source := s.(next_source); log := s.(log) |}.

Definition set_visible_items (v : list string) (s : state) : state :=
  {| _items := s.(_items); _visible_items := v;
     _selected_index := s.(_selected_index);
     _selected_items := s.(_selected_items);
     _filter_timeout := s.(_filter_timeout);
     _scroll_start_index := s.(_scroll_start_index);
     entry_text := s.(entry_text); prompt_label := s.(prompt_label);
     on_stage := s.(on_stage); exported := s.(exported);
     sources := s.(sources); next_source := s.(next_source); log := s.(log) |}.

Definition set_selected_index (v : Z) (s : state) : state :=
  {| _items := s.(_items); _visible_items := s.(_visible_items);
     _selected_index := v; _selected_items := s.(_selected_items);
     _filter_timeout := s.(_filter_timeout);
     _scroll_start_index := s.(_scroll_start_index);
     entry_text := s.(entry_text); prompt_label := s.(prompt_label);
     on_stage := s.(on_stage); exported := s.(exported);
     sources := s.(sources); next_source := s.(next_source); log := s.(log) |}.

Definition set_selected_items (v : list string) (s : state) : state :=
  {| _items := s.(_items); _visible_items := s.(_visible_items);
     _selected_index := s.(_selected_index); _selected_items := v;
     _filter_timeout := s.(_filter_timeout);
     _scroll_start_index := s.(_scroll_start_index);
     entry_text := s.(entry_text); prompt_label := s.(prompt_label);
     on_stage := s.(on_stage); exported := s.(exported);
     sources := s.(sources); next_source := s.(next_source); log := s.(log) |}.

Definition set_filter_timeout (v : option positive) (s : state) : state :=
  {| _items := s.(_items); _visible_items := s.(_visible_items);
     _selected_index := s.(_selected_index);
     _selected_items := s.(_selected_items); _filter_timeout := v;
     _scroll_start_index := s.(_scroll_start_index);
     entry_text := s.(entry_text); prompt_label := s.(prompt_label);
     on_stage := s.(on_stage); exported := s.(exported);
     sources := s.(sources); next_source := s.(next_source); log := s.(log) |}.

Definition set_scroll_start_index (v : Z) (s : state) : state :=
  {| _items := s.(_items); _visible_items := s.(_visible_items);
     _selected_index := s.(_selected_index);
     _selected_items := s.(_selected_items);
     _filter_timeout := s.(_filter_timeout); _scroll_start_index := v;
     entry_text := s.(entry_text); prompt_label := s.(prompt_label);
     on_stage := s.(on_stage); exported := s.(exported);
     sources := s.(sources); next_source := s.(next_source); log := s.(log) |}.

Definition set_entry_text (v : string) (s : state) : state :=
  {| _items := s.(_items); _visible_items := s.(_visible_items);
     _selected_index := s.(_selected_index);
     _selected_items := s.(_selected_items);
     _filter_timeout := s.(_filter_timeout);
     _scroll_start_index := s.(_scroll_start_index); entry_text := v;
     prompt_label := s.(prompt_label); on_stage := s.(on_stage);
     exported := s.(exported); sources := s.(sources);
     next_source := s.(next_source); log := s.(log) |}.

Definition set_prompt_label (v : string) (s : state) : state :=
  {| _items := s.(_items); _visible_items := s.(_visible_items);
     _selected_index := s.(_selected_index);
     _selected_items := s.(_selected_items);
     _filter_timeout := s.(_filter_timeout);
     _scroll_start_index := s.(_scroll_start_index);
     entry_text := s.(entry_text); prompt_label := v;
     on_stage := s.(on_stage); exported := s.(exported);
     sources := s.(sources); next_source := s.(next_source); log := s.(log) |}.

Definition set_on_stage (v : bool) (s : state) : state :=
  {| _items := s.(_items); _visible_items := s.(_visible_items);
     _selected_index := s.(_selected_index);
     _selected_items := s.(_selected_items);
     _filter_timeout := s.(_filter_timeout);
     _scroll_start_index := s.(_scroll_start_index);
     entry_text := s.(entry_text); prompt_label := s.(prompt_label);
     on_stage := v; exported := s.(exported); sources := s.(sources);
     next_source := s.(next_source); log := s.(log) |}.

Definition set_exported (v : bool) (s : state) : state :=
  {| _items := s.(_items); _visible_items := s.(_visible_items);
     _selected_index := s.(_selected_index);
     _selected_items := s.(_selected_items);
     _filter_timeout := s.(_filter_timeout);
     _scroll_start_index := s.(_scroll_start_index);
     entry_text := s.(entry_text); prompt_label := s.(prompt_label);
     on_stage := s.(on_stage); exported := v; sources := s.(sources);
     next_source := s.(next_source); log := s.(log) |}.

Definition set_sources (v : list positive) (s : state) : state :=
  {| _items := s.(_items); _visible_items := s.(_visible_items);
     _selected_index := s.(_selected_index);
     _selected_items := s.(_selected_items);
     _filter_timeout := s.(_filter_timeout);
     _scroll_start_index := s.(_scroll_start_index);
     entry_text := s.(entry_text); prompt_label := s.(prompt_label);
     on_stage := s.(on_stage); exported := s.(exported); sources := v;
     next_source := s.(next_source); log := s.(log) |}.

Definition set_next_source (v : positive) (s : state) : state :=
  {| _items := s.(_items); _visible_items := s.(_visible_items);
     _selected_index := s.(_selected_index);
     _selected_items := s.(_selected_items);
     _filter_timeout := s.(_filter_timeout);
     _scroll_start_index := s.(_scroll_start_index);
     entry_text := s.(entry_text); prompt_label := s.(prompt_label);
     on_stage := s.(on_stage); exported := s.(exported);
     sources := s.(sources); next_source := v; log := s.(log) |}.

Definition set_log (v : list call) (s : state) : state :=
  {| _items := s.(_items); _visible_items := s.(_visible_items);
     _selected_index := s.(_selected_index);
     _selected_items := s.(_selected_items);
     _filter_timeout := s.(_filter_timeout);
     _scroll_start_index := s.(_scroll_start_index);
     entry_text := s.(entry_text); prompt_label := s.(prompt_label);
     on_stage := s.(on_stage); exported := s.(exported);
     sources := s.(sources); next_source := s.(next_source); log := v |}.

(** The state [enable] builds. *)
Definition enable : state :=
  {| _items := []; _visible_items := []; _selected_index := 0;
     _selected_items := []; _filter_timeout := None;
     _scroll_start_index := 0;
     entry_text := ""; prompt_label := ""; on_stage := false;
     exported := true; sources := []; next_source := 1%positive; log := [] |}.

Definition emit (c : call) (s : state) : state := set_log (s.(log) ++ [c]) s.

(** [DmenuService.emitItemSelected] and [emitCancelled]. *)
Definition emitItemSelected (items : list string) : state → state :=
  emit (EmitItemSelected items).
Definition emitCancelled : state → state := emit EmitCancelled.

(** [GLib.source_remove] and [GLib.timeout_add]. *)
Definition source_remove (id : positive) (s : state) : state :=
  set_sources (filter (λ i, i ≠ id) s.(sources)) s.

Definition timeout_add (s : state) : positive * state :=
  let id := s.(next_source) in
  (id, set_next_source (Pos.succ id) (set_sources (s.(sources) ++ [id]) s)).

(** [Main.uiGroup.add_child(this.actor)] and [remove_child]. *)
Definition add_child (s : state) : state := emit AddChild (set_on_stage true s).
Definition remove_child (s : state) : state :=
  emit RemoveChild (set_on_stage false s).

Definition hide (s : state) : state :=
  let s :=
    match s.(_filter_timeout) with
    | Some id => set_filter_timeout None (source_remove id s)
    | None => s
    end in
  remove_child s.

(** The loop of [_updateResults]; [visible] is [this._visible_items] as
    built so far. *)
Fixpoint filter_loop (tokens items visible : list string) : list string :=
  match items with
  | [] => visible
  | item :: rest =>
      if (length tokens =? 0)%nat then filter_loop tokens rest (visible ++ [item])
      else if allTokensMatch tokens item
           then filter_loop tokens rest (visible ++ [item])
           else filter_loop tokens rest visible
  end.

Definition _updateScrollWindow (s : state) : state :=
  if len s.(_visible_items) =? 0 then set_scroll_start_index 0 s
  else
    let buffer := _items_per_page / 4 in
    let s :=
      if s.(_selected_index) <? s.(_scroll_start_index) + buffer then
        set_scroll_start_index (Z.max 0 (s.(_selected_index) - buffer)) s
      else if s.(_scroll_start_index) + _items_per_page - buffer
              <=? s.(_selected_index) then
        set_scroll_start_index
          (Z.min (len s.(_visible_items) - _items_per_page)
                 (s.(_selected_index) - _items_per_page + buffer + 1)) s
      else s in
    set_scroll_start_index (Z.max 0 s.(_scroll_start_index)) s.

(** One rendered row: its text, whether the bullet is shown, and whether it
    carries the [selected] style. *)
Record row := { row_text : string; row_bullet : bool; row_highlight : bool }.

(** [_renderVisibleItems] followed by [_updateSelection]: the rows from
    [_scroll_start_index] up to [end_index]. It rebuilds the children of
    [results_box] from the state and changes no field, so the handlers
    below leave it out and it is kept as a view of the state. *)
Definition _renderVisibleItems (s : state) : list row :=
  let end_index :=
    Z.min (s.(_scroll_start_index) + _items_per_page) (len s.(_visible_items)) in
  omap (fun i =>
          item ← array_get s.(_visible_items) i;
          Some {| row_text := item;
                  row_bullet := JsSet.has item s.(_selected_items);
                  row_highlight := bool_decide (i = s.(_selected_index)) |})
       (seqZ s.(_scroll_start_index) (end_index - s.(_scroll_start_index))).

Definition _updateResults (s : state) : state :=
  let tokens := filterTokens s.(entry_text) in
  let s := set_visible_items (filter_loop tokens s.(_items) []) s in
  _updateScrollWindow s.

(** The list [_updateResults] computes from the items and the entry text. *)
Definition match_list (items : list string) (query : string) : list string :=
  filter_loop (filterTokens query) items [].

(** The callback handed to [GLib.timeout_add]. *)
Definition filter_timeout_callback (s : state) : state :=
  let s := set_selected_index 0 s in
  let s := _updateResults s in
  set_filter_timeout None s.

Definition _onTextChanged (s : state) : state :=
  let s :=
    match s.(_filter_timeout) with
    | Some id => source_remove id s
    | None => s
    end in
  let '(id, s) := timeout_add s in
  set_filter_timeout (Some id) s.

(** [this.entry.set_text(text)], and the user editing the entry: the
    handler connected to [text-changed] runs when the contents change. The
    constructor connects [_onTextChanged]; the handler is an argument so
    that the same code can be run with another one connected. *)
Definition entry_set_text (on_text_changed : state → state)
    (text : string) (s : state) : state :=
  if String.eqb s.(entry_text) text then s
  else on_text_changed (set_entry_text text s).

Definition show (on_text_changed : state → state)
    (items : list string) (prompt : string) (s : state) : state :=
  let s := set_items items s in
  let s := set_selected_items [] s in
  let s := set_prompt_label (prompt +:+ " ") s in
  let s := entry_set_text on_text_changed "" s in
  let s := set_selected_index 0 s in
  let s := add_child s in
  _updateResults s.

(** The block both toggling branches of [_onKeyPress] start with. *)
Definition toggle_current (currentItem : string) (s : state) : state :=
  if JsSet.has currentItem s.(_selected_items)
  then set_selected_items (JsSet.delete currentItem s.(_selected_items)) s
  else set_selected_items (JsSet.add currentItem s.(_selected_items)) s.

(** [_onActivate]. A read of [_visible_items] outside the array would put
    [undefined] in the payload, which [GLib.Variant.new] refuses by throwing
    before anything is emitted: the state is then left as it was. *)
Definition _onActivate (s : state) : state :=
  let itemsToReturn :=
    if 0 <? JsSet.size s.(_selected_items) then
      Some (JsSet.to_array s.(_selected_items))
    else if (0 <? len s.(_visible_items))
            && (s.(_selected_index) <? len s.(_visible_items)) then
      item ← array_get s.(_visible_items) s.(_selected_index); Some [item]
    else Some [] in
  match itemsToReturn with
  | Some itemsToReturn =>
      if 0 <? len itemsToReturn
      then hide (emitItemSelected itemsToReturn s)
      else s
  | None => s
  end.

(** The two statements every navigation branch of [_onKeyPress] ends
    with: the assignment to [_selected_index], then [_updateScrollWindow]. *)
Definition move_to (index : Z) (s : state) : state :=
  _updateScrollWindow (set_selected_index index s).

(** [_onKeyPress]; the value it returns to the toolkit is left out. In the
    two toggling branches [currentItem] is read inside the array whenever
    the cursor is not negative; at a negative cursor, which no reachable
    state has, the read is [undefined] and the state is left as it was. *)
Definition _onKeyPress (symbol : keysym) (modifiers : Z) (s : state) : state :=
  let ctrl := has_modifier modifiers CONTROL_MASK in
  let key sym := bool_decide (symbol = sym) in
  let n := len s.(_visible_items) in
  let i := s.(_selected_index) in
  if key KEY_Escape then hide (emitCancelled s)
  else if key KEY_Up || (ctrl && key KEY_k) then
    if 0 <? n then move_to (Z.max 0 (i - 1)) s else s
  else if key KEY_Down || (ctrl && key KEY_j) then
    if 0 <? n then move_to (Z.min (n - 1) (i + 1)) s else s
  else if key KEY_Page_Up then
    if 0 <? n then move_to (Z.max 0 (i - _items_per_page)) s else s
  else if key KEY_Page_Down then
    if 0 <? n then move_to (Z.min (n - 1) (i + _items_per_page)) s else s
  else if key KEY_Home || key KEY_Begin || (ctrl && key KEY_a) then
    if 0 <? n then move_to 0 s else s
  else if key KEY_End || (ctrl && key KEY_e) then
    if 0 <? n then move_to (n - 1) s else s
  else if key KEY_Tab || (ctrl && key KEY_space) then
    if (0 <? n) && (i <? n) then
      match array_get s.(_visible_items) i with
      | Some currentItem =>
          let s := toggle_current currentItem s in
          let s :=
            if key KEY_Tab
            then set_selected_index (Z.min (n - 1) (i + 1)) s
            else s in
          _updateScrollWindow s
      | None => s
      end
    else s
  else if key KEY_Return || key KEY_KP_Enter then
    if has_modifier modifiers SHIFT_MASK then
      if (0 <? n) && (i <? n) then
        match array_get s.(_visible_items) i with
        | Some currentItem =>
            let s := toggle_current currentItem s in
            move_to (Z.min (n - 1) (i + 1)) s
        | None => s
        end
      else s
    else _onActivate s
  else s.

(** [DmenuExtension.disable]. *)
Definition disable (s : state) : state :=
  let s := emit Unexport (set_exported false s) in
  hide s.

(** What the outside can make happen: a DBus call of [Show], the user
    editing the entry or pressing a key, the entry's [activate] signal, the
    main loop dispatching a timeout source, and the shell disabling the
    extension. *)
Inductive event :=
| EvShow (items : list string) (prompt : option string)
| EvTextEdited (text : string)
| EvKeyPress (symbol : keysym) (modifiers : Z)
| EvActivate
| EvTimeout (id : positive)
| EvDisable.

(** The toolkit delivers input only to an actor on the stage, method calls
    only to an exported object, and dispatches only live sources; the
    callback returns [SOURCE_REMOVE], which destroys its source. *)
Definition dispatch (on_text_changed : state → state)
    (ev : event) (s : state) : state :=
  match ev with
  | EvShow items prompt =>
      if s.(exported)
      then show on_text_changed items (prompt_or_default prompt) s
      else s
  | EvTextEdited text =>
      if s.(on_stage) then entry_set_text on_text_changed text s else s
  | EvKeyPress symbol modifiers =>
      if s.(on_stage) then _onKeyPress symbol modifiers s else s
  | EvActivate => if s.(on_stage) then _onActivate s else s
  | EvTimeout id =>
      if bool_decide (id ∈ s.(sources))
      then source_remove id (filter_timeout_callback s)
      else s
  | EvDisable => if s.(exported) then disable s else s
  end.

(** The program: [_onTextChanged] is the connected handler. *)
Definition step : event → state → state := dispatch _onTextChanged.

Definition run (evs : list event) (s : state) : state :=
  fold_left (fun s ev => step ev s) evs s.

Definition reachable (s : state) : Prop := ∃ evs, run evs enable = s.

(** The reference the debounce is compared with, after the specification:
    recomputation performed immediately on each edit. The handler does at
    once what the timeout callback does later, and no timer is started. *)
Definition recompute_now (s : state) : state :=
  _updateResults (set_selected_index 0 s).

Definition step_immediate : event → state → state := dispatch recompute_now.

Definition run_immediate (evs : list event) (s : state) : state :=
  fold_left (fun s ev => step_immediate ev s) evs s.

(** The DBus signals among the calls of a log. *)
Definition is_signal (c : call) : bool :=
  match c with
  | EmitItemSelected _ | EmitCancelled => true
  | _ => false
  end.

Definition signals (s : state) : list call := List.filter is_signal s.(log).

(** Fire the debounce timer if one is pending. *)
Definition settle (s : state) : state :=
  match s.(_filter_timeout) with
  | Some id => step (EvTimeout id) s
  | None => s
  end.

End Multi.

(** ** The single-select variant *)

Module Single.

(** As in [Multi], but [ItemSelected] carries one string. *)
Inductive call :=
| EmitItemSelected (selected_item : string)
| EmitCancelled
| AddChild
| RemoveChild
| Unexport.

Record state := {
  _items : list string;
  _visible_items : list string;
  _selected_index : Z;
  _filter_timeout : option positive;
  entry_text : string;
  prompt_label : string;
  on_stage : bool;
  exported : bool;
  sources : list positive;
  next_source : positive;
  log : list call
}.

(** [const MAX_RESULTS = 50; // Limit visible results for performance] *)
Definition MAX_RESULTS : nat := 50.

Definition set_items (v : list string) (s : state) : state :=
  {| _items := v; _visible_items := s.(_visible_items);
     _selected_index := s.(_selected_index);
     _filter_timeout := s.(_filter_timeout); entry_text := s.(entry_text);
     prompt_label := s.(prompt_label); on_stage := s.(on_stage);
     exported := s.(exported); sources := s.(sources);
     next_source := s.(next_source); log := s.(log) |}.

Definition set_visible_items (v : list string) (s : state) : state :=
  {| _items := s.(_items); _visible_items := v;
     _selected_index := s.(_selected_index);
     _filter_timeout := s.(_filter_timeout); entry_text := s.(entry_text);
     prompt_label := s.(prompt_label); on_stage := s.(on_stage);
     exported := s.(exported); sources := s.(sources);
     next_source := s.(next_source); log := s.(log) |}.

Definition set_selected_index (v : Z) (s : state) : state :=
  {| _items := s.(_items); _visible_items := s.(_visible_items);
     _selected_index := v; _filter_timeout := s.(_filter_timeout);
     entry_text := s.(entry_text); prompt_label := s.(prompt_label);
     on_stage := s.(on_stage); exported := s.(exported);
     sources := s.(sources); next_source := s.(next_source); log := s.(log) |}.

Definition set_filter_timeout (v : option positive) (s : state) : state :=
  {| _items := s.(_items); _visible_items := s.(_visible_items);
     _selected_index := s.(_selected_index); _filter_timeout := v;
     entry_text := s.(entry_text); prompt_label := s.(prompt_label);
     on_stage := s.(on_stage); exported := s.(exported);
     sources := s.(sources); next_source := s.(next_source); log := s.(log) |}.

Definition set_entry_text (v : string) (s : state) : state :=
  {| _items := s.(_items); _visible_items := s.(_visible_items);
     _selected_index := s.(_selected_index);
     _filter_timeout := s.(_filter_timeout); entry_text := v;
     prompt_label := s.(prompt_label); on_stage := s.(on_stage);
     exported := s.(exported); sources := s.(sources);
     next_source := s.(next_source); log := s.(log) |}.

Definition set_prompt_label (v : string) (s : state) : state :=
  {| _items := s.(_items); _visible_items := s.(_visible_items);
     _selected_index := s.(_selected_index);
     _filter_timeout := s.(_filter_timeout); entry_text := s.(entry_text);
     prompt_label := v; on_stage := s.(on_stage); exported := s.(exported);
     sources := s.(sources); next_source := s.(next_source); log := s.(log) |}.

Definition set_on_stage (v : bool) (s : state) : state :=
  {| _items := s.(_items); _visible_items := s.(_visible_items);
     _selected_index := s.(_selected_index);
     _filter_timeout := s.(_filter_timeout); entry_text := s.(entry_text);
     prompt_label := s.(prompt_label); on_stage := v;
     exported := s.(exported); sources := s.(sources);
     next_source := s.(next_source); log := s.(log) |}.

Definition set_exported (v : bool) (s : state) : state :=
  {| _items := s.(_items); _visible_items := s.(_visible_items);
     _selected_index := s.(_selected_index);
     _filter_timeout := s.(_filter_timeout); entry_text := s.(entry_text);
     prompt_label := s.(prompt_label); on_stage := s.(on_stage);
     exported := v; sources := s.(sources); next_source := s.(next_source);
     log := s.(log) |}.

Definition set_sources (v : list positive) (s : state) : state :=
  {| _items := s.(_items); _visible_items := s.(_visible_items);
     _selected_index := s.(_selected_index);
     _filter_timeout := s.(_filter_timeout); entry_text := s.(entry_text);
     prompt_label := s.(prompt_label); on_stage := s.(on_stage);
     exported := s.(exported); sources := v; next_source := s.(next_source);
     log := s.(log) |}.

Definition set_next_source (v : positive) (s : state) : state :=
  {| _items := s.(_items); _visible_items := s.(_visible_items);
     _selected_index := s.(_selected_index);
     _filter_timeout := s.(_filter_timeout); entry_text := s.(entry_text);
     prompt_label := s.(prompt_label); on_stage := s.(on_stage);
     exported := s.(exported); sources := s.(sources); next_source := v;
     log := s.(log) |}.

Definition set_log (v : list call) (s : state) : state :=
  {| _items := s.(_items); _visible_items := s.(_visible_items);
     _selected_index := s.(_selected_index);
     _filter_timeout := s.(_filter_timeout); entry_text := s.(entry_text);
     prompt_label := s.(prompt_label); on_stage := s.(on_stage);
     exported := s.(exported); sources := s.(sources);
     next_source := s.(next_source); log := v |}.

Definition enable : state :=
  {| _items := []; _visible_items := []; _selected_index := 0;
     _filter_timeout := None;
     entry_text := ""; prompt_label := ""; on_stage := false;
     exported := true; sources := []; next_source := 1%positive; log := [] |}.

Definition emit (c : call) (s : state) : state := set_log (s.(log) ++ [c]) s.

Definition emitItemSelected (item : string) : state → state :=
  emit (EmitItemSelected item).
Definition emitCancelled : state → state := emit EmitCancelled.

Definition source_remove (id : positive) (s : state) : state :=
  set_sources (filter (λ i, i ≠ id) s.(sources)) s.

Definition timeout_add (s : state) : positive * state :=
  let id := s.(next_source) in
  (id, set_next_source (Pos.succ id) (set_sources (s.(sources) ++ [id]) s)).

Definition add_child (s : state) : state := emit AddChild (set_on_stage true s).
Definition remove_child (s : state) : state :=
  emit RemoveChild (set_on_stage false s).

Definition hide (s : state) : state :=
  let s :=
    match s.(_filter_timeout) with
    | Some id => set_filter_timeout None (source_remove id s)
    | None => s
    end in
  remove_child s.

(** The loop of [_updateResults], which leaves at [break] once
    [MAX_RESULTS] items are visible. *)
Fixpoint filter_loop (tokens items visible : list string) : list string :=
  match items with
  | [] => visible
  | item :: rest =>
      if (MAX_RESULTS <=? length visible)%nat then visible
      else if (length tokens =? 0)%nat
           then filter_loop tokens rest (visible ++ [item])
           else if allTokensMatch tokens item
                then filter_loop tokens rest (visible ++ [item])
                else filter_loop tokens rest visible
  end.

(** [_updateResults]; the labels it creates and [_updateSelection], which
    styles and scrolls them, change no field. *)
Definition _updateResults (s : state) : state :=
  let tokens := filterTokens s.(entry_text) in
  set_visible_items (filter_loop tokens s.(_items) []) s.

Definition match_list (items : list string) (query : string) : list string :=
  filter_loop (filterTokens query) items [].

Definition filter_timeout_callback (s : state) : state :=
  let s := set_selected_index 0 s in
  let s := _updateResults s in
  set_filter_timeout None s.

Definition _onTextChanged (s : state) : state :=
  let s :=
    match s.(_filter_timeout) with
    | Some id => source_remove id s
    | None => s
    end in
  let '(id, s) := timeout_add s in
  set_filter_timeout (Some id) s.

Definition entry_set_text (on_text_changed : state → state)
    (text : string) (s : state) : state :=
  if String.eqb s.(entry_text) text then s
  else on_text_changed (set_entry_text text s).

Definition show (on_text_changed : state → state)
    (items : list string) (prompt : string) (s : state) : state :=
  let s := set_items items s in
  let s := set_prompt_label (prompt +:+ " ") s in
  let s := entry_set_text on_text_changed "" s in
  let s := set_selected_index 0 s in
  let s := add_child s in
  _updateResults s.

(** [_onActivate]; a read outside the array would hand [undefined] to
    [GLib.Variant.new], which throws before anything is emitted. *)
Definition _onActivate (s : state) : state :=
  if (0 <? len s.(_visible_items))
     && (s.(_selected_index) <? len s.(_visible_items)) then
    match array_get s.(_visible_items) s.(_selected_index) with
    | Some selectedItem => hide (emitItemSelected selectedItem s)
    | None => s
    end
  else s.

Definition _onKeyPress (symbol : keysym) (modifiers : Z) (s : state) : state :=
  let ctrl := has_modifier modifiers CONTROL_MASK in
  let key sym := bool_decide (symbol = sym) in
  let n := len s.(_visible_items) in
  let i := s.(_selected_index) in
  if key KEY_Escape then hide (emitCancelled s)
  else if key KEY_Up || (ctrl && key KEY_k) then
    if 0 <? n then set_selected_index (Z.max 0 (i - 1)) s else s
  else if key KEY_Down || (ctrl && key KEY_j) then
    if 0 <? n then set_selected_index (Z.min (n - 1) (i + 1)) s else s
  else if key KEY_Tab then
    if 0 <? n then set_selected_index (Z.rem (i + 1) n) s else s
  else if key KEY_Return || key KEY_KP_Enter then _onActivate s
  else s.

Definition disable (s : state) : state :=
  let s := emit Unexport (set_exported false s) in
  hide s.

Inductive event :=
| EvShow (items : list string) (prompt : option string)
| EvTextEdited (text : string)
| EvKeyPress (symbol : keysym) (modifiers : Z)
| EvActivate
| EvTimeout (id : positive)
| EvDisable.

Definition dispatch (on_text_changed : state → state)
    (ev : event) (s : state) : state :=
  match ev with
  | EvShow items prompt =>
      if s.(exported)
      then show on_text_changed items (prompt_or_default prompt) s
      else s
  | EvTextEdited text =>
      if s.(on_stage) then entry_set_text on_text_changed text s else s
  | EvKeyPress symbol modifiers =>
      if s.(on_stage) then _onKeyPress symbol modifiers s else s
  | EvActivate => if s.(on_stage) then _onActivate s else s
  | EvTimeout id =>
      if bool_decide (id ∈ s.(sources))
      then source_remove id (filter_timeout_callback s)
      else s
  | EvDisable => if s.(exported) then disable s else s
  end.

Definition step : event → state → state := dispatch _onTextChanged.

Definition run (evs : list event) (s : state) : state :=
  fold_left (fun s ev => step ev s) evs s.

Definition reachable (s : state) : Prop := ∃ evs, run evs enable = s.

(** The reference with immediate recomputation, as in [Multi]. *)
Definition recompute_now (s : state) : state :=
  _updateResults (set_selected_index 0 s).

Definition step_immediate : event → state → state := dispatch recompute_now.

Definition run_immediate (evs : list event) (s : state) : state :=
  fold_left (fun s ev => step_immediate ev s) evs s.

Definition is_signal (c : call) : bool :=
  match c with
  | EmitItemSelected _ | EmitCancelled => true
  | _ => false
  end.

Definition signals (s : state) : list call := List.filter is_signal s.(log).

Definition settle (s : state) : state :=
  match s.(_filter_timeout) with
  | Some id => step (EvTimeout id) s
  | None => s
  end.

End Single.

(** ** The tokens of a query, after the specification

    The query is cut at white space into the maximal runs of other code
    units, empty runs are dropped, and the runs are lower-cased. [word] is
    the run being read. *)
Fixpoint words_from (word s : string) : list string :=
  match s with
  | EmptyString => match word with EmptyString => [] | _ => [word] end
  | String c s' =>
      if is_space c then
        match word with
        | EmptyString => words_from EmptyString s'
        | _ => word :: words_from EmptyString s'
        end
      else words_from (word +:+ String c EmptyString) s'
  end.

Definition query_tokens (query : string) : list string :=
  toLowerCase <$> words_from "" query.

(** ** Vocabulary of the specification *)

(** A line matches a query when it contains, case-insensitively, every
    token of the query. *)
Definition matches_query (query line : string) : Prop :=
  ∀ token, token ∈ query_tokens query → contains_ci line token.

(** Soundness, completeness and order of a function computing the
    MatchList, with respect to the token filter. *)
Definition sound (match_list : list string → string → list string) : Prop :=
  ∀ items query line,
    line ∈ match_list items query → matches_query query line.

Definition complete (match_list : list string → string → list string) : Prop :=
  ∀ items query line,
    line ∈ items → matches_query query line → line ∈ match_list items query.

Definition order_preserving
    (match_list : list string → string → list string) : Prop :=
  ∀ items query, match_list items query `sublist_of` items.

(** The viewport of the multi-select variant: a start is admissible when it
    is not negative and the page it opens does not run past the end of the
    MatchList, or is 0 when the list is shorter than a page; the cursor is
    in the buffered window of a start when it is at least [buffer] rows
    away from both ends of the page. *)
Definition pageSize : Z := Multi._items_per_page.
Definition buffer : Z := pageSize / 4.

Definition admissible_start (n start : Z) : Prop :=
  0 ≤ start ∧ (n < pageSize → start = 0) ∧ (pageSize ≤ n → start + pageSize ≤ n).

Definition in_buffered_window (cursor start : Z) : Prop :=
  start + buffer ≤ cursor < start + pageSize - buffer.

Definition viewport_ok (n cursor start : Z) : Prop :=
  admissible_start n start
  ∧ ((∃ c, admissible_start n c ∧ in_buffered_window cursor c) →
     in_buffered_window cursor start).

(** The cursor is one of the rows of the page. *)
Definition cursor_on_page (cursor start : Z) : Prop :=
  start ≤ cursor < start + pageSize.

(** ** Invariants of the reachable states *)

Module MultiInv.
Import Multi.

(** The cursor is an index of the MatchList, or 0 when the list is empty. *)
Definition cursor_ok (s : state) : Prop :=
  (s.(_visible_items) = [] ∧ s.(_selected_index) = 0)
  ∨ 0 ≤ s.(_selected_index) < len s.(_visible_items).

(** The live timeout sources are exactly the one [_filter_timeout] names. *)
Definition timer_ok (s : state) : Prop :=
  s.(sources) = match s.(_filter_timeout) with Some id => [id] | None => [] end.

(** No timer is pending while the actor is off the stage. *)
Definition idle_ok (s : state) : Prop :=
  s.(on_stage) = false → s.(_filter_timeout) = None.

(** The state between two invocations: the actor is off the stage and no
    timeout source is live. *)
Definition idle (s : state) : Prop :=
  s.(on_stage) = false ∧ s.(_filter_timeout) = None ∧ s.(sources) = [].

Definition window_ok (s : state) : Prop :=
  viewport_ok (len s.(_visible_items)) s.(_selected_index) s.(_scroll_start_index)
  ∧ cursor_on_page s.(_selected_index) s.(_scroll_start_index).

Record inv (s : state) : Prop := {
  inv_cursor : cursor_ok s;
  inv_window : window_ok s;
  inv_timer : timer_ok s;
  inv_idle : idle_ok s;
  inv_selection : NoDup s.(_selected_items)
}.

End MultiInv.

Module SingleInv.
Import Single.

Definition cursor_ok (s : state) : Prop :=
  (s.(_visible_items) = [] ∧ s.(_selected_index) = 0)
  ∨ 0 ≤ s.(_selected_index) < len s.(_visible_items).

Definition timer_ok (s : state) : Prop :=
  s.(sources) = match s.(_filter_timeout) with Some id => [id] | None => [] end.

Definition idle_ok (s : state) : Prop :=
  s.(on_stage) = false → s.(_filter_timeout) = None.

(** The state between two invocations: the actor is off the stage and no
    timeout source is live. *)
Definition idle (s : state) : Prop :=
  s.(on_stage) = false ∧ s.(_filter_timeout) = None ∧ s.(sources) = [].

Record inv (s : state) : Prop := {
  inv_cursor : cursor_ok s;
  inv_timer : timer_ok s;
  inv_idle : idle_ok s
}.

End SingleInv.

(** ** Commands of the specification, as events *)

Module MultiCommands.
Import Multi.

(** Commit: Return or keypad Enter without Shift, or the [activate] signal
    of the entry. *)
Definition is_commit (ev : event) : Prop :=
  match ev with
  | EvActivate => True
  | EvKeyPress symbol modifiers =>
      (symbol = KEY_Return ∨ symbol = KEY_KP_Enter)
      ∧ has_modifier modifiers SHIFT_MASK = false
  | _ => False
  end.

Definition Cancel : event := EvKeyPress KEY_Escape 0.
Definition MoveUp : event := EvKeyPress KEY_Up 0.
Definition MoveDown : event := EvKeyPress KEY_Down 0.
Definition ToggleSelectAdvance : event := EvKeyPress KEY_Tab 0.
Definition ToggleSelect : event := EvKeyPress KEY_space CONTROL_MASK.

Definition is_move (ev : event) : Prop := ev = MoveUp ∨ ev = MoveDown.

(** The events that start an invocation. *)
Definition is_show (ev : event) : Prop :=
  match ev with EvShow _ _ => True | _ => False end.

(** Cancel: Escape, whatever the modifiers. *)
Definition is_cancel (ev : event) : Prop :=
  match ev with EvKeyPress KEY_Escape _ => True | _ => False end.

(** What happens while the user edits the query: edits of the entry text,
    and the debounce timer firing in between. *)
Definition is_edit (ev : event) : Prop :=
  match ev with EvTextEdited _ | EvTimeout _ => True | _ => False end.

(** A payload of [ItemSelected] that is not empty, and one without a
    repeated line. *)
Definition payload_ok (c : call) : Prop :=
  match c with
  | EmitItemSelected payload => payload ≠ []
  | _ => True
  end.

Definition payload_distinct (c : call) : Prop :=
  match c with
  | EmitItemSelected payload => NoDup payload
  | _ => True
  end.

(** The calls a commit makes, after the table of the specification: the
    selection set if it is not empty, else the item under the cursor if
    there is one, else nothing. *)
Definition commit_calls (s : state) : list call :=
  match s.(_selected_items) with
  | _ :: _ => [EmitItemSelected s.(_selected_items); RemoveChild]
  | [] =>
      match array_get s.(_visible_items) s.(_selected_index) with
      | Some item => [EmitItemSelected [item]; RemoveChild]
      | None => []
      end
  end.

(** The three events that toggle the item under the cursor. *)
Definition ShiftReturn : event := EvKeyPress KEY_Return SHIFT_MASK.

Definition is_toggle (ev : event) : Prop :=
  ev = ToggleSelectAdvance ∨ ev = ToggleSelect ∨ ev = ShiftReturn.

End MultiCommands.

Module SingleCommands.
Import Single.

Definition is_commit (ev : event) : Prop :=
  match ev with
  | EvActivate => True
  | EvKeyPress symbol modifiers => symbol = KEY_Return ∨ symbol = KEY_KP_Enter
  | _ => False
  end.

Definition Cancel : event := EvKeyPress KEY_Escape 0.
Definition MoveUp : event := EvKeyPress KEY_Up 0.
Definition MoveDown : event := EvKeyPress KEY_Down 0.

Definition is_move (ev : event) : Prop := ev = MoveUp ∨ ev = MoveDown.

(** The events that start an invocation. *)
Definition is_show (ev : event) : Prop :=
  match ev with EvShow _ _ => True | _ => False end.

(** Cancel: Escape, whatever the modifiers. *)
Definition is_cancel (ev : event) : Prop :=
  match ev with EvKeyPress KEY_Escape _ => True | _ => False end.

(** What happens while the user edits the query: edits of the entry text,
    and the debounce timer firing in between. *)
Definition is_edit (ev : event) : Prop :=
  match ev with EvTextEdited _ | EvTimeout _ => True | _ => False end.

(** The calls a commit makes: the item under the cursor if there is one. *)
Definition commit_calls (s : state) : list call :=
  match array_get s.(_visible_items) s.(_selected_index) with
  | Some item => [EmitItemSelected item; RemoveChild]
  | None => []
  end.

End SingleCommands.

(** Some admissible start of a MatchList of [n] rows has the cursor in its
    buffered window. *)
Definition has_buffered_start (n cursor : Z) : Prop :=
  ∃ c, admissible_start n c ∧ in_buffered_window cursor c.

Definition buffered_start_exists (s : Multi.state) : Prop :=
  has_buffered_start (len s.(Multi._visible_items)) s.(Multi._selected_index).

(** The last admissible start of a MatchList of [n] rows; the first is 0. *)
Definition last_start (n : Z) : Z := Z.max 0 (n - pageSize).

(** The admissible start at the end of the MatchList the cursor is near:
    the first one when the cursor is within [buffer] rows of the top, the
    last one otherwise. *)
Definition end_start (n cursor : Z) : Z :=
  if cursor <? buffer then 0 else last_start n.

(** The adjustment of the scroll position from [s] to [s'] is the minimal
    one: no start that meets the viewport conditions for the MatchList and
    the cursor of [s'] is nearer to the scroll position of [s]. *)
Definition minimal_adjustment (s s' : Multi.state) : Prop :=
  ∀ c,
    viewport_ok (len s'.(Multi._visible_items)) s'.(Multi._selected_index) c →
    Z.abs (s'.(Multi._scroll_start_index) - s.(Multi._scroll_start_index))
    ≤ Z.abs (c - s.(Multi._scroll_start_index)).

(** ** The debounced program and its immediate reference

    [debounce_sim s si] relates a state [s] of the program to a state [si]
    of the reference after the same events: they agree on everything the
    user and the caller can tell apart, except that, while a timer is
    pending in [s], the MatchList, cursor and scroll position of [si] are
    already those the timer will install. *)

Module MultiSim.
Import Multi.

Definition debounce_sim (s si : state) : Prop :=
  MultiInv.inv s
  ∧ si.(sources) = [] ∧ si.(_filter_timeout) = None
  ∧ s.(_items) = si.(_items) ∧ s.(entry_text) = si.(entry_text)
  ∧ s.(_selected_items) = si.(_selected_items)
  ∧ s.(prompt_label) = si.(prompt_label)
  ∧ s.(on_stage) = si.(on_stage) ∧ s.(exported) = si.(exported)
  ∧ s.(log) = si.(log)
  ∧ match s.(_filter_timeout) with
    | None =>
        s.(_visible_items) = si.(_visible_items)
        ∧ s.(_selected_index) = si.(_selected_index)
        ∧ s.(_scroll_start_index) = si.(_scroll_start_index)
    | Some _ =>
        si.(_visible_items) = match_list s.(_items) s.(entry_text)
        ∧ si.(_selected_index) = 0 ∧ si.(_scroll_start_index) = 0
    end.

End MultiSim.

Module SingleSim.
Import Single.

Definition debounce_sim (s si : state) : Prop :=
  SingleInv.inv s
  ∧ si.(sources) = [] ∧ si.(_filter_timeout) = None
  ∧ s.(_items) = si.(_items) ∧ s.(entry_text) = si.(entry_text)
  ∧ s.(prompt_label) = si.(prompt_label)
  ∧ s.(on_stage) = si.(on_stage) ∧ s.(exported) = si.(exported)
  ∧ s.(log) = si.(log)
  ∧ match s.(_filter_timeout) with
    | None =>
        s.(_visible_items) = si.(_visible_items)
        ∧ s.(_selected_index) = si.(_selected_index)
    | Some _ =>
        si.(_visible_items) = match_list s.(_items) s.(entry_text)
        ∧ si.(_selected_index) = 0
    end.

End SingleSim.

(** ** Further vocabulary: what the state holds, and what a key press
    returns *)

Module MultiData.
Import Multi.

(** The MatchList is drawn from the candidates, in their order; the
    selection set holds candidates only; and while the prompt is on the
    stage with no debounce timer pending, the MatchList is the one the
    entry text gives. *)
Definition data_ok (s : state) : Prop :=
  s.(_visible_items) `sublist_of` s.(_items)
  ∧ (∀ item, item ∈ s.(_selected_items) → item ∈ s.(_items))
  ∧ (s.(on_stage) = true → s.(_filter_timeout) = None →
     s.(_visible_items) = match_list s.(_items) s.(entry_text)).

(** [Clutter.EVENT_STOP] and [Clutter.EVENT_PROPAGATE]. *)
Inductive event_result := EVENT_STOP | EVENT_PROPAGATE.

(** The value [_onKeyPress] returns: every branch of its chain of tests
    returns [EVENT_STOP], whatever it did, and the fall-through returns
    [EVENT_PROPAGATE]. *)
Definition _onKeyPress_return (symbol : keysym) (modifiers : Z) : event_result :=
  let ctrl := has_modifier modifiers CONTROL_MASK in
  let key sym := bool_decide (symbol = sym) in
  if key KEY_Escape then EVENT_STOP
  else if key KEY_Up || (ctrl && key KEY_k) then EVENT_STOP
  else if key KEY_Down || (ctrl && key KEY_j) then EVENT_STOP
  else if key KEY_Page_Up then EVENT_STOP
  else if key KEY_Page_Down then EVENT_STOP
  else if key KEY_Home || key KEY_Begin || (ctrl && key KEY_a) then EVENT_STOP
  else if key KEY_End || (ctrl && key KEY_e) then EVENT_STOP
  else if key KEY_Tab || (ctrl && key KEY_space) then EVENT_STOP
  else if key KEY_Return || key KEY_KP_Enter then EVENT_STOP
  else EVENT_PROPAGATE.

End MultiData.

Module SingleData.
Import Single.

Definition data_ok (s : state) : Prop :=
  s.(_visible_items) `sublist_of` s.(_items)
  ∧ (length s.(_visible_items) ≤ MAX_RESULTS)%nat
  ∧ (s.(on_stage) = true → s.(_filter_timeout) = None →
     s.(_visible_items) = match_list s.(_items) s.(entry_text)).

Inductive event_result := EVENT_STOP | EVENT_PROPAGATE.

Definition _onKeyPress_return (symbol : keysym) (modifiers : Z) : event_result :=
  let ctrl := has_modifier modifiers CONTROL_MASK in
  let key sym := bool_decide (symbol = sym) in
  if key KEY_Escape then EVENT_STOP
  else if key KEY_Up || (ctrl && key KEY_k) then EVENT_STOP
  else if key KEY_Down || (ctrl && key KEY_j) then EVENT_STOP
  else if key KEY_Tab then EVENT_STOP
  else if key KEY_Return || key KEY_KP_Enter then EVENT_STOP
  else EVENT_PROPAGATE.

(** The rows [_updateResults] creates and [_updateSelection] styles: one
    label per line of the MatchList, the one at the cursor carrying the
    [selected] class. *)
Definition rendered_rows (s : state) : list (string * bool) :=
  imap (λ i item, (item, bool_decide (Z.of_nat i = s.(_selected_index))))
       s.(_visible_items).

End SingleData.

(** A string made of white space only (the empty string included). *)
Fixpoint only_space (s : string) : bool :=
  match s with
  | EmptyString => true
  | String c s' => is_space c && only_space s'
  end.

(** * Properties *)

(** ** Strings *)

Lemma app_String c (a b : string) : String c a +:+ b = String c (a +:+ b).
Proof. reflexivity. Qed.

Lemma prefix_app (t s : string) :
  String.prefix t s = true ↔ ∃ post, s = t +:+ post.
Proof.
  revert s. induction t as [|c t IH]; intros s; simpl.
  - split; [intros _; by exists s | by destruct s].
  - destruct s as [|d s]; [split; [done | intros [? [=]]]|].
    simpl. destruct (Ascii.ascii_dec c d) as [->|Hne].
    + rewrite IH. split; intros [post E]; exists post; [by rewrite E | by injection E].
    + split; [done | intros [post [= E _]]; congruence].
Qed.

Lemma includes_cons c (s t : string) :
  includes (String c s) t = String.prefix t (String c s) || includes s t.
Proof. reflexivity. Qed.

Lemma includes_app (s t : string) :
  includes s t = true ↔ ∃ pre post, s = pre +:+ t +:+ post.
Proof.
  induction s as [|c s IH].
  - change (includes "" t) with (String.prefix t "" || false).
    rewrite orb_false_r, prefix_app. split.
    + intros [post E]. by exists "", post.
    + intros (pre & post & E). destruct pre; [by exists post|done].
  - rewrite includes_cons, orb_true_iff, prefix_app, IH. split.
    + intros [[post E]|(pre & post & E)].
      * by exists "", post.
      * exists (String c pre), post. by rewrite E.
    + intros (pre & post & E). destruct pre as [|d pre].
      * left. by exists post.
      * right. injection E as _ E. by exists pre, post.
Qed.

Lemma toLowerCase_app (a b : string) :
  toLowerCase (a +:+ b) = toLowerCase a +:+ toLowerCase b.
Proof. induction a as [|c a IH]; simpl; [done | by rewrite IH]. Qed.

Lemma toLowerCase_app_inv (s x y : string) :
  toLowerCase s = x +:+ y →
  ∃ a b, s = a +:+ b ∧ toLowerCase a = x ∧ toLowerCase b = y.
Proof.
  revert s. induction x as [|c x IH]; intros s E.
  - by exists "", s.
  - destruct s as [|d s]; [done|]. injection E as Ec E.
    destruct (IH _ E) as (a & b & -> & <- & <-).
    exists (String d a), b. by rewrite <- Ec.
Qed.

Lemma lower_char_idemp c : lower_char (lower_char c) = lower_char c.
Proof. by destruct c as [[] [] [] [] [] [] [] []]. Qed.

Lemma toLowerCase_idemp s : toLowerCase (toLowerCase s) = toLowerCase s.
Proof. induction s as [|c s IH]; simpl; [done | by rewrite lower_char_idemp, IH]. Qed.

(** On a lower-case token, the test of the code is a case-insensitive
    occurrence. *)
Lemma includes_lower_contains_ci (line token : string) :
  toLowerCase token = token →
  includes (toLowerCase line) token = true ↔ contains_ci line token.
Proof.
  intros Htok. rewrite includes_app. unfold contains_ci. split.
  - intros (pre & post & E).
    apply toLowerCase_app_inv in E as (a & b' & -> & <- & E).
    apply toLowerCase_app_inv in E as (m & b & -> & E & <-).
    exists a, m, b. by rewrite Htok.
  - intros (pre & mid & post & -> & E).
    exists (toLowerCase pre), (toLowerCase post).
    by rewrite !toLowerCase_app, E, Htok.
Qed.

(** ** Tokens *)

Lemma string_app_nil_r (s : string) : s +:+ "" = s.
Proof. induction s as [|c s IH]; [done | by rewrite app_String, IH]. Qed.

Lemma string_app_assoc (a b c : string) : (a +:+ b) +:+ c = a +:+ (b +:+ c).
Proof. induction a as [|x a IH]; [done | by rewrite !app_String, IH]. Qed.

Lemma is_space_lower_char c : is_space (lower_char c) = is_space c.
Proof. by destruct c as [[] [] [] [] [] [] [] []]. Qed.

Lemma filter_nonempty_cons (piece : string) (pieces : list string) :
  filter (λ token, (0 < String.length token)%nat) (piece :: pieces)
  = match piece with
    | EmptyString => filter (λ token, (0 < String.length token)%nat) pieces
    | _ => piece :: filter (λ token, (0 < String.length token)%nat) pieces
    end.
Proof.
  destruct piece.
  - by rewrite filter_cons_False by (simpl; lia).
  - by rewrite filter_cons_True by (simpl; lia).
Qed.

(** A separator seen just before changes only whether an empty first piece
    is produced. *)
Lemma split_from_after_sep (s : string) :
  filter (λ token, (0 < String.length token)%nat) (split_from true s)
  = filter (λ token, (0 < String.length token)%nat) (split_from false s).
Proof.
  destruct s as [|c s]; [done|]. simpl.
  destruct (is_space c); [|done]. by rewrite filter_nonempty_cons.
Qed.

Lemma split_from_words (word s : string) :
  ∃ piece pieces,
    split_from false s = piece :: pieces
    ∧ words_from word s
      = filter (λ token, (0 < String.length token)%nat)
          ((word +:+ piece) :: pieces).
Proof.
  revert word. induction s as [|c s IH]; intros word.
  - exists "", []. split; [done|].
    rewrite string_app_nil_r, filter_nonempty_cons. by destruct word.
  - simpl. destruct (is_space c).
    + exists "", (split_from true s). split; [done|].
      rewrite string_app_nil_r, filter_nonempty_cons, split_from_after_sep.
      destruct (IH "") as (piece & pieces & -> & ->). by destruct word.
    + destruct (IH (word +:+ String c "")) as (piece & pieces & -> & ->).
      exists (String c piece), pieces. split; [done|].
      by rewrite string_app_assoc.
Qed.

Lemma words_from_lower (word s : string) :
  words_from (toLowerCase word) (toLowerCase s)
  = toLowerCase <$> words_from word s.
Proof.
  revert word. induction s as [|c s IH]; intros word; simpl.
  - by destruct word.
  - rewrite is_space_lower_char. destruct (is_space c).
    + destruct word; simpl; [apply (IH "") | f_equal; apply (IH "")].
    + rewrite <- IH. by rewrite toLowerCase_app.
Qed.

Lemma words_from_trimStart (s : string) :
  words_from "" (trimStart s) = words_from "" s.
Proof.
  induction s as [|c s IH]; [done|]. simpl.
  destruct (is_space c) eqn:E; [done|]. simpl. by rewrite E.
Qed.

Lemma words_from_trimEnd (word s : string) :
  words_from word (trimEnd s) = words_from word s.
Proof.
  revert word. induction s as [|c s IH]; intros word; [done|].
  simpl. destruct (trimEnd s) as [|d r] eqn:E.
  - destruct (is_space c) eqn:Ec.
    + rewrite <- (IH ""). by destruct word.
    + simpl. rewrite Ec. by rewrite <- IH.
  - simpl. destruct (is_space c).
    + rewrite <- (IH ""). by destruct word.
    + by rewrite <- IH.
Qed.

(** The tokens the code computes are the tokens of the specification. *)
Lemma filterTokens_query_tokens (query : string) :
  filterTokens query = query_tokens query.
Proof.
  unfold filterTokens, query_tokens, split_ws, trim.
  destruct (split_from_words "" (toLowerCase (trimEnd (trimStart query))))
    as (piece & pieces & Hsplit & Hwords).
  rewrite Hsplit. change (piece :: pieces) with (("" +:+ piece) :: pieces).
  rewrite <- Hwords. change "" with (toLowerCase "") at 1.
  by rewrite words_from_lower, words_from_trimEnd, words_from_trimStart.
Qed.


Lemma toLowerCase_cons_fix c s :
  toLowerCase (String c s) = String c s ↔ lower_char c = c ∧ toLowerCase s = s.
Proof. simpl. split; [by intros [= -> ->] | by intros [-> ->]]. Qed.

Lemma split_from_lower b (s : string) :
  toLowerCase s = s → Forall (λ piece, toLowerCase piece = piece) (split_from b s).
Proof.
  revert b. induction s as [|c s IH]; intros b Hs.
  - by repeat constructor.
  - apply toLowerCase_cons_fix in Hs as [Hc Hs]. simpl.
    destruct (is_space c).
    + destruct b; [by apply IH | constructor; [done | by apply IH]].
    + specialize (IH false Hs). destruct IH as [|piece pieces Hp Hps].
      * by repeat constructor; apply toLowerCase_cons_fix.
      * constructor; [by apply toLowerCase_cons_fix | done].
Qed.

Lemma split_from_no_space b (s : string) :
  Forall (λ piece, no_space piece = true) (split_from b s).
Proof.
  revert b. induction s as [|c s IH]; intros b.
  - by repeat constructor.
  - simpl. destruct (is_space c) eqn:Hc.
    + destruct b; [by apply IH | constructor; [done | by apply IH]].
    + specialize (IH false). destruct IH as [|piece pieces Hp Hps].
      * repeat constructor. simpl. by rewrite Hc.
      * constructor; [simpl; by rewrite Hc, Hp | done].
Qed.

(** The tokens of a query are non-empty, free of white space and in lower
    case. *)
Lemma filterTokens_token (query token : string) :
  token ∈ filterTokens query →
  token ≠ "" ∧ no_space token = true ∧ toLowerCase token = token.
Proof.
  unfold filterTokens. rewrite list_elem_of_filter. intros [Hlen Hin].
  split; [intros ->; simpl in Hlen; lia |]. split.
  - pose proof (split_from_no_space false (toLowerCase (trim query))) as H.
    rewrite Forall_forall in H. by apply H.
  - pose proof (split_from_lower false _ (toLowerCase_idemp (trim query))) as H.
    rewrite Forall_forall in H. by apply H.
Qed.

Lemma allTokensMatch_matches (query line : string) :
  allTokensMatch (filterTokens query) line = true ↔ matches_query query line.
Proof.
  unfold allTokensMatch, matches_query. rewrite <- filterTokens_query_tokens.
  rewrite forallb_forall. split.
  - intros H token Hin. apply includes_lower_contains_ci.
    + by apply filterTokens_token in Hin as (_ & _ & ?).
    + by apply H, list_elem_of_In.
  - intros H token Hin%list_elem_of_In. apply includes_lower_contains_ci.
    + by apply filterTokens_token in Hin as (_ & _ & ?).
    + by apply H.
Qed.

(** ** The filter loops *)

Lemma multi_filter_loop_filter (tokens items visible : list string) :
  Multi.filter_loop tokens items visible
  = visible ++ filter (λ item, allTokensMatch tokens item = true) items.
Proof.
  revert visible. induction items as [|item rest IH]; intros visible; simpl.
  - by rewrite app_nil_r.
  - assert (Hpush : Multi.filter_loop tokens rest (visible ++ [item])
                    = visible ++ item :: filter (λ item, allTokensMatch tokens item = true) rest)
      by (by rewrite IH, <- app_assoc).
    destruct (Nat.eqb_spec (length tokens) 0) as [Hnil|_].
    + apply nil_length_inv in Hnil as ->. by rewrite filter_cons_True.
    + destruct (allTokensMatch tokens item) eqn:Hm.
      * by rewrite filter_cons_True.
      * rewrite filter_cons_False by (by rewrite Hm). apply IH.
Qed.

Lemma single_filter_loop_filter (tokens items visible : list string) :
  Single.filter_loop tokens items visible
  = visible ++ take (Single.MAX_RESULTS - length visible)
                    (filter (λ item, allTokensMatch tokens item = true) items).
Proof.
  revert visible. induction items as [|item rest IH]; intros visible.
  - cbn [Single.filter_loop]. by rewrite filter_nil, take_nil, app_nil_r.
  - cbn [Single.filter_loop].
    destruct (Nat.leb_spec Single.MAX_RESULTS (length visible)) as [Hfull|Hroom].
    { replace (Single.MAX_RESULTS - length visible)%nat with 0%nat by lia.
      by rewrite take_0, app_nil_r. }
    assert (Hpush : Single.filter_loop tokens rest (visible ++ [item])
                    = visible ++ take (Single.MAX_RESULTS - length visible)
                        (item :: filter (λ item, allTokensMatch tokens item = true) rest)).
    { rewrite IH, length_app, <- app_assoc. simpl.
      replace (Single.MAX_RESULTS - length visible)%nat
        with (S (Single.MAX_RESULTS - (length visible + 1)))%nat by lia.
      done. }
    destruct (Nat.eqb_spec (length tokens) 0) as [Hnil|_].
    + apply nil_length_inv in Hnil as ->. by rewrite filter_cons_True.
    + destruct (allTokensMatch tokens item) eqn:Hm.
      * by rewrite filter_cons_True.
      * rewrite filter_cons_False by (by rewrite Hm). apply IH.
Qed.

Lemma multi_match_list_filter (items : list string) (query : string) :
  Multi.match_list items query
  = filter (λ item, allTokensMatch (filterTokens query) item = true) items.
Proof. apply multi_filter_loop_filter. Qed.

Lemma single_match_list_take (items : list string) (query : string) :
  Single.match_list items query
  = take Single.MAX_RESULTS (Multi.match_list items query).
Proof.
  unfold Single.match_list.
  by rewrite single_filter_loop_filter, multi_match_list_filter.
Qed.

Lemma multi_match_list_elem (items : list string) (query line : string) :
  line ∈ Multi.match_list items query ↔ matches_query query line ∧ line ∈ items.
Proof.
  by rewrite multi_match_list_filter, list_elem_of_filter, allTokensMatch_matches.
Qed.

Lemma multi_match_list_no_token (items : list string) (query : string) :
  query_tokens query = [] → Multi.match_list items query = items.
Proof.
  rewrite <- filterTokens_query_tokens.
  intros Hnil. rewrite multi_match_list_filter, Hnil.
  induction items as [|item rest IH]; [done|].
  by rewrite filter_cons_True, IH.
Qed.

(** C1, as the code has it. The tokens the code filters by are the
    white-space-delimited, lower-cased tokens of the query, and its test on
    a line is that the line contains each of them case-insensitively. In
    the multi-select variant the MatchList is exactly the candidates that
    pass, in their original order, so it is sound and complete, and it is
    the whole candidate list when there is no token; in the single-select
    variant it is the first [MAX_RESULTS] = 50 of these, which is sound and
    keeps the order, and is complete when at most 50 candidates match. *)
Theorem match_list_sound_complete :
  (∀ query, filterTokens query = query_tokens query)
  ∧ (∀ query line,
     allTokensMatch (filterTokens query) line = true ↔ matches_query query line)
  ∧ (∀ items query,
       Multi.match_list items query
       = filter (λ item, allTokensMatch (filterTokens query) item = true) items)
  ∧ sound Multi.match_list ∧ complete Multi.match_list
  ∧ order_preserving Multi.match_list
  ∧ (∀ items query, query_tokens query = [] → Multi.match_list items query = items)
  ∧ (∀ items query,
       Single.match_list items query = take 50 (Multi.match_list items query))
  ∧ sound Single.match_list ∧ order_preserving Single.match_list
  ∧ (∀ items query line,
       (length (Multi.match_list items query) ≤ 50)%nat →
       line ∈ items → matches_query query line →
       line ∈ Single.match_list items query).
Proof.
  split_and!.
  - apply filterTokens_query_tokens.
  - apply allTokensMatch_matches.
  - apply multi_match_list_filter.
  - intros items query line. rewrite multi_match_list_elem. tauto.
  - intros items query line. rewrite multi_match_list_elem. tauto.
  - intros items query. rewrite multi_match_list_filter. apply sublist_filter.
  - apply multi_match_list_no_token.
  - apply single_match_list_take.
  - intros items query line Hin. rewrite single_match_list_take in Hin.
    apply elem_of_sublist with (l2 := Multi.match_list items query) in Hin;
      [|apply sublist_take]. revert Hin.
    rewrite multi_match_list_elem. tauto.
  - intros items query. rewrite single_match_list_take.
    etrans; [apply sublist_take|].
    rewrite multi_match_list_filter. apply sublist_filter.
  - intros items query line Hlen Hin Hm.
    rewrite single_match_list_take. change Single.MAX_RESULTS with 50%nat.
    rewrite take_ge by lia. by apply multi_match_list_elem.
Qed.

Lemma match_list_sound_complete_witness :
  "banana" ∈ Single.match_list ["apple"; "banana"; "grape"] "an a".
Proof.
  apply (proj2 (proj2 (proj2 (proj2 (proj2 (proj2 (proj2 (proj2 (proj2 (proj2
           match_list_sound_complete))))))))) ["apple"; "banana"; "grape"] "an a").
  - vm_compute. lia.
  - by apply (bool_decide_unpack _).
  - apply allTokensMatch_matches. reflexivity.
Defined.

(** C1 as stated fails in the single-select variant: with 51 candidates and
    an empty query, the last candidate matches and is not in the MatchList. *)
Lemma single_match_list_incomplete :
  let items := replicate 50 "a" ++ ["b"] in
  "b" ∈ items ∧ matches_query "" "b" ∧ "b" ∉ Single.match_list items "".
Proof.
  split_and!.
  - by apply (bool_decide_unpack _).
  - intros token Hin. vm_compute in Hin. by apply elem_of_nil in Hin.
  - intros Hin. rewrite single_match_list_take in Hin.
    apply (bool_decide_pack _) in Hin. vm_compute in Hin. done.
Qed.
(** ** The multi-select variant: invariants *)

Ltac multi_inv_intro :=
  let Hc := fresh "Hc" in let Hw := fresh "Hw" in let Ht := fresh "Ht" in
  let Hi := fresh "Hi" in let Hs := fresh "Hs" in
  intros [Hc Hw Ht Hi Hs];
  unfold MultiInv.cursor_ok, MultiInv.window_ok, MultiInv.timer_ok,
    MultiInv.idle_ok in *.

Section multi_invariants.
Import Multi MultiInv.

Lemma len_nil {A} : len (@nil A) = 0.
Proof. reflexivity. Qed.

Lemma len_nonneg {A} (l : list A) : 0 ≤ len l.
Proof. unfold len. lia. Qed.

Lemma len_zero_nil {A} (l : list A) : len l = 0 → l = [].
Proof. unfold len. destruct l; [done | simpl; lia]. Qed.

Lemma array_get_Some {A} (l : list A) (i : Z) :
  0 ≤ i < len l → ∃ x, array_get l i = Some x ∧ x ∈ l.
Proof.
  unfold array_get, len. intros Hi.
  destruct (Z.ltb_spec i 0) as [|_]; [lia|].
  destruct (lookup_lt_is_Some_2 l (Z.to_nat i)) as [x Hx]; [lia|].
  exists x. split; [done | by eapply list_elem_of_lookup_2].
Qed.

(** [_updateScrollWindow] writes [_scroll_start_index] only. *)
Lemma updateScrollWindow_frame s :
  ∃ start, _updateScrollWindow s = set_scroll_start_index start s.
Proof.
  unfold _updateScrollWindow.
  repeat case_match; eexists; reflexivity.
Qed.

(** The scroll window after [_updateScrollWindow]: the viewport is in
    order as soon as the cursor is, and the old start was admissible or the
    cursor is at 0. *)
Lemma updateScrollWindow_window s :
  cursor_ok s →
  admissible_start (len s.(_visible_items)) s.(_scroll_start_index)
  ∨ s.(_selected_index) = 0 →
  window_ok (_updateScrollWindow s).
Proof.
  unfold cursor_ok, window_ok, viewport_ok, cursor_on_page, admissible_start,
    in_buffered_window, buffer, pageSize, _updateScrollWindow, _items_per_page.
  change (20 / 4) with 5.
  pose proof (len_nonneg s.(_visible_items)) as Hn.
  intros Hc Ha.
  destruct (Z.eqb_spec (len s.(_visible_items)) 0) as [Hz|Hz]; simpl.
  - rewrite Hz. apply len_zero_nil in Hz.
    destruct Hc as [[_ ->]|Hc]; [|rewrite Hz in Hc; unfold len in Hc; simpl in Hc; lia].
    split; [split|]; [lia | | lia]. intros (c & ? & ?). lia.
  - destruct Hc as [[Hnil _]|Hc]; [by rewrite Hnil in Hz|].
    destruct (Z.ltb_spec s.(_selected_index) (s.(_scroll_start_index) + 5)); simpl.
    { split; [split|]; [lia | | lia]. intros (c & ? & ?). lia. }
    destruct (Z.leb_spec (s.(_scroll_start_index) + 20 - 5) s.(_selected_index)); simpl.
    { split; [split|]; [lia | | lia]. intros (c & ? & ?). lia. }
    split; [split|]; [lia | | lia]. intros (c & ? & ?). lia.
Qed.

(** When the cursor can be brought into the buffered window of some
    admissible start, [_updateScrollWindow] moves the start to the nearest
    such start. *)
Lemma updateScrollWindow_minimal s c :
  0 ≤ s.(_scroll_start_index) →
  cursor_ok s →
  admissible_start (len s.(_visible_items)) c →
  in_buffered_window s.(_selected_index) c →
  Z.abs ((_updateScrollWindow s).(_scroll_start_index) - s.(_scroll_start_index))
  ≤ Z.abs (c - s.(_scroll_start_index)).
Proof.
  unfold cursor_ok, admissible_start,
    in_buffered_window, buffer, pageSize, _updateScrollWindow, _items_per_page.
  change (20 / 4) with 5.
  pose proof (len_nonneg s.(_visible_items)) as Hn.
  intros Hs Hc Ha Hw.
  destruct (Z.eqb_spec (len s.(_visible_items)) 0) as [Hz|Hz]; simpl; [lia|].
  destruct Hc as [[Hnil _]|Hc]; [by rewrite Hnil in Hz|].
  destruct (Z.ltb_spec s.(_selected_index) (s.(_scroll_start_index) + 5));
    simpl; [lia|].
  destruct (Z.leb_spec (s.(_scroll_start_index) + 20 - 5) s.(_selected_index));
    simpl; lia.
Qed.

Lemma filter_ne_singleton (id : positive) : filter (λ i, i ≠ id) [id] = [].
Proof. by rewrite filter_cons_False, filter_nil by (by intros ?). Qed.

Lemma multi_inv_enable : inv enable.
Proof.
  split; unfold cursor_ok, window_ok, timer_ok, idle_ok; simpl;
    [by left | | done | done | constructor].
  unfold viewport_ok, cursor_on_page, admissible_start, in_buffered_window,
    buffer, pageSize, _items_per_page.
  change (20 / 4) with 5. split; [split|]; [done | | done].
  intros (c & ? & ?). lia.
Qed.

Lemma multi_inv_emit c s : inv s → inv (emit c s).
Proof. by multi_inv_intro. Qed.

Lemma multi_inv_hide s : inv s → inv (hide s).
Proof.
  multi_inv_intro. unfold hide.
  destruct (_filter_timeout s) as [id|] eqn:E; split;
    unfold cursor_ok, window_ok, timer_ok, idle_ok; simpl; try done.
  all: try by rewrite E.
  by rewrite Ht, filter_ne_singleton.
Qed.

Lemma multi_inv_updateScrollWindow s : inv s → inv (_updateScrollWindow s).
Proof.
  intros Hinv.
  assert (Hw : window_ok (_updateScrollWindow s)).
  { apply updateScrollWindow_window; [apply Hinv | left; apply Hinv]. }
  destruct (updateScrollWindow_frame s) as [start E].
  rewrite E in *. by destruct Hinv.
Qed.

Lemma multi_inv_move_to i s :
  inv s → 0 ≤ i < len s.(_visible_items) → inv (move_to i s).
Proof.
  intros Hinv Hi. unfold move_to.
  assert (Hw : window_ok (_updateScrollWindow (set_selected_index i s))).
  { apply updateScrollWindow_window; [by right | left].
    apply (inv_window _ Hinv). }
  destruct (updateScrollWindow_frame (set_selected_index i s)) as [start E].
  rewrite E in *. destruct Hinv as [Hc _ Ht Hidle Hs].
  split; try done. by right.
Qed.

Lemma toggle_current_frame item s :
  ∃ selected, toggle_current item s = set_selected_items selected s.
Proof. unfold toggle_current. case_match; eexists; reflexivity. Qed.

Lemma multi_inv_toggle_current item s : inv s → inv (toggle_current item s).
Proof.
  multi_inv_intro. unfold toggle_current, JsSet.add, JsSet.delete, JsSet.has.
  case_bool_decide as Hin; split; try done; simpl.
  - by apply NoDup_filter.
  - apply NoDup_app. split_and!; [done | | apply NoDup_singleton].
    intros x Hx ->%list_elem_of_singleton. done.
Qed.

Lemma multi_inv_onActivate s : inv s → inv (_onActivate s).
Proof.
  intros Hinv. unfold _onActivate.
  repeat case_match; try done; by apply multi_inv_hide, multi_inv_emit.
Qed.

Lemma multi_inv_keys_bounds s :
  inv s → 0 < len s.(_visible_items) →
  0 ≤ s.(_selected_index) < len s.(_visible_items).
Proof.
  intros [[[Hnil _]|Hc] _ _ _ _] Hpos; [|done].
  rewrite Hnil in Hpos. by compute in Hpos.
Qed.

Lemma multi_inv_onKeyPress symbol modifiers s :
  inv s → inv (_onKeyPress symbol modifiers s).
Proof.
  intros Hinv. unfold _onKeyPress.
  repeat match goal with
  | |- context [if ?b then _ else _] =>
      lazymatch b with
      | (0 <? _) => fail
      | (0 <? _) && _ => fail
      | _ => destruct b
      end
  end.
  all: try done.
  all: try by apply multi_inv_hide, multi_inv_emit.
  all: try by apply multi_inv_onActivate.
  all: try (destruct (Z.ltb_spec 0 (len s.(_visible_items))) as [Hpos|_];
            [|done];
            pose proof (multi_inv_keys_bounds s Hinv Hpos) as Hb).
  all: try (apply multi_inv_move_to; [done | unfold _items_per_page; lia]).
  all: simpl.
  all: destruct (Z.ltb_spec s.(_selected_index) (len s.(_visible_items)));
    [|lia|..].
  all: destruct (array_get _ _) as [currentItem|]; [|done].
  all: pose proof (multi_inv_toggle_current currentItem s Hinv) as Hinv'.
  all: destruct (toggle_current_frame currentItem s) as [selected E].
  all: rewrite E in *.
  - apply (multi_inv_move_to _ _ Hinv'). simpl. lia.
  - by apply multi_inv_updateScrollWindow.
  - apply (multi_inv_move_to _ _ Hinv'). simpl. lia.
Qed.

Lemma source_remove_frame id s :
  source_remove id s = set_sources (filter (λ i, i ≠ id) s.(sources)) s.
Proof. reflexivity. Qed.

Lemma multi_inv_onTextChanged s :
  inv s → s.(on_stage) = true → inv (_onTextChanged s).
Proof.
  multi_inv_intro. intros Hon. unfold _onTextChanged.
  destruct (_filter_timeout s) as [id|] eqn:E;
    split; unfold cursor_ok, window_ok, timer_ok, idle_ok; simpl; try done.
  all: try (rewrite Hon; done).
  - by rewrite Ht, filter_ne_singleton.
  - by rewrite Ht.
Qed.

(** What recomputation establishes, whatever the state it starts from. *)
Lemma recompute_view s :
  let s' := _updateResults (set_selected_index 0 s) in
  cursor_ok s' ∧ window_ok s'.
Proof.
  simpl. unfold _updateResults.
  set (s1 := set_visible_items _ _).
  assert (Hc : cursor_ok s1).
  { unfold cursor_ok. simpl. destruct (filter_loop _ _ _) as [|x l]; [by left|].
    right. unfold len. simpl. lia. }
  assert (Hw : window_ok (_updateScrollWindow s1))
    by (apply updateScrollWindow_window; [done | by right]).
  destruct (updateScrollWindow_frame s1) as [start E]. by rewrite E in *.
Qed.

Lemma multi_inv_timeout id s :
  inv s → id ∈ s.(sources) → inv (source_remove id (filter_timeout_callback s)).
Proof.
  intros Hinv Hid. unfold filter_timeout_callback.
  destruct (recompute_view s) as [Hc Hw].
  unfold _updateResults in *.
  destruct (updateScrollWindow_frame
              (set_visible_items
                 (filter_loop (filterTokens (set_selected_index 0 s).(entry_text))
                    (set_selected_index 0 s).(_items) [])
                 (set_selected_index 0 s))) as [start E].
  rewrite E in *. clear E. revert Hinv Hid. multi_inv_intro. intros Hid.
  split; unfold cursor_ok, window_ok, timer_ok, idle_ok; simpl; try done.
  - destruct (_filter_timeout s) as [id'|]; rewrite Ht in *.
    + apply list_elem_of_singleton in Hid as ->. apply filter_ne_singleton.
    + by apply elem_of_nil in Hid.
Qed.

Lemma multi_inv_show on_text_changed items prompt s :
  (∀ s, inv s → inv (set_on_stage true (on_text_changed s))) →
  inv s → inv (show on_text_changed items prompt s).
Proof.
  intros Hhandler Hinv. unfold show.
  set (s1 := set_prompt_label _ _).
  assert (H1 : inv s1).
  { revert Hinv. multi_inv_intro. split; try done. simpl. constructor. }
  set (s2 := entry_set_text _ _ s1).
  assert (H2 : inv (set_on_stage true s2)).
  { unfold s2, entry_set_text. case_match.
    - clear -H1. revert H1. by multi_inv_intro.
    - apply Hhandler. clear -H1. revert H1. by multi_inv_intro. }
  clearbody s2. clear -H2.
  destruct (recompute_view (add_child s2)) as [Hc Hw].
  change (_updateResults (set_selected_index 0 (add_child s2)))
    with (_updateResults (add_child (set_selected_index 0 s2))) in *.
  unfold _updateResults in *.
  destruct (updateScrollWindow_frame
     (set_visible_items
        (filter_loop (filterTokens (add_child (set_selected_index 0 s2)).(entry_text))
           (add_child (set_selected_index 0 s2)).(_items) [])
        (add_child (set_selected_index 0 s2)))) as [start E].
  rewrite E in *. clear E. revert H2. multi_inv_intro.
  split; unfold cursor_ok, window_ok, timer_ok, idle_ok; simpl; done.
Qed.

Lemma multi_inv_onTextChanged_staged s :
  inv s → inv (set_on_stage true (_onTextChanged s)).
Proof.
  multi_inv_intro. unfold _onTextChanged.
  destruct (_filter_timeout s) as [id|] eqn:E;
    split; unfold cursor_ok, window_ok, timer_ok, idle_ok; simpl; try done.
  - by rewrite Ht, filter_ne_singleton.
  - by rewrite Ht.
Qed.

Lemma multi_inv_disable s : inv s → inv (disable s).
Proof.
  intros Hinv. unfold disable. apply multi_inv_hide, multi_inv_emit.
  revert Hinv. by multi_inv_intro.
Qed.

Lemma multi_inv_step ev s : inv s → inv (step ev s).
Proof.
  intros Hinv. destruct ev; simpl; unfold step, dispatch.
  - case_match; [|done]. apply multi_inv_show; [|done]. apply multi_inv_onTextChanged_staged.
  - destruct (on_stage s) eqn:Hon; [|done]. unfold entry_set_text.
    case_match; [done|]. apply multi_inv_onTextChanged; [|done].
    revert Hinv. by multi_inv_intro.
  - case_match; [|done]. by apply multi_inv_onKeyPress.
  - case_match; [|done]. by apply multi_inv_onActivate.
  - case_bool_decide; [|done]. by apply multi_inv_timeout.
  - case_match; [|done]. by apply multi_inv_disable.
Qed.

Lemma multi_inv_run evs s : inv s → inv (run evs s).
Proof.
  revert s. induction evs as [|ev evs IH]; intros s Hinv; [done|].
  apply IH, multi_inv_step, Hinv.
Qed.

Lemma multi_reachable_inv s : reachable s → inv s.
Proof. intros [evs <-]. apply multi_inv_run, multi_inv_enable. Qed.

Lemma multi_reachable_step ev s : reachable s → reachable (step ev s).
Proof.
  intros [evs <-]. exists (evs ++ [ev]). unfold run. by rewrite fold_left_app.
Qed.

End multi_invariants.

(** ** The single-select variant: invariants *)

Ltac single_inv_intro :=
  let Hc := fresh "Hc" in let Ht := fresh "Ht" in let Hi := fresh "Hi" in
  intros [Hc Ht Hi];
  unfold SingleInv.cursor_ok, SingleInv.timer_ok, SingleInv.idle_ok in *.

Section single_invariants.
Import Single SingleInv.

Lemma single_inv_enable : inv enable.
Proof. split; [by left | done | done]. Qed.

Lemma single_inv_emit c s : inv s → inv (emit c s).
Proof. by single_inv_intro. Qed.

Lemma single_inv_hide s : inv s → inv (hide s).
Proof.
  single_inv_intro. unfold hide.
  destruct (_filter_timeout s) as [id|] eqn:E; split;
    unfold cursor_ok, timer_ok, idle_ok; simpl; try done.
  all: try by rewrite E.
  by rewrite Ht, filter_ne_singleton.
Qed.

Lemma single_inv_set_selected_index i s :
  inv s → 0 ≤ i < len s.(_visible_items) → inv (set_selected_index i s).
Proof. single_inv_intro. intros Hi'. split; try done. by right. Qed.

Lemma single_inv_onActivate s : inv s → inv (_onActivate s).
Proof.
  intros Hinv. unfold _onActivate.
  repeat case_match; try done; by apply single_inv_hide, single_inv_emit.
Qed.

Lemma single_inv_bounds s :
  inv s → 0 < len s.(_visible_items) →
  0 ≤ s.(_selected_index) < len s.(_visible_items).
Proof.
  intros [[[Hnil _]|Hc] _ _] Hpos; [|done].
  rewrite Hnil in Hpos. by compute in Hpos.
Qed.

Lemma single_inv_onKeyPress symbol modifiers s :
  inv s → inv (_onKeyPress symbol modifiers s).
Proof.
  intros Hinv. unfold _onKeyPress.
  repeat match goal with
  | |- context [if ?b then _ else _] =>
      lazymatch b with
      | (0 <? _) => fail
      | _ => destruct b
      end
  end.
  all: try done.
  all: try by apply single_inv_hide, single_inv_emit.
  all: try by apply single_inv_onActivate.
  all: destruct (Z.ltb_spec 0 (len s.(_visible_items))) as [Hpos|_]; [|done].
  all: pose proof (single_inv_bounds s Hinv Hpos) as Hb.
  all: apply single_inv_set_selected_index; [done|]; try lia.
  pose proof (Z.rem_bound_pos (s.(_selected_index) + 1) (len s.(_visible_items))).
  lia.
Qed.

Lemma single_recompute_cursor s :
  cursor_ok (_updateResults (set_selected_index 0 s)).
Proof.
  unfold cursor_ok, _updateResults. simpl.
  destruct (filter_loop _ _ _) as [|x l]; [by left|].
  right. unfold len. simpl. lia.
Qed.

Lemma single_inv_onTextChanged_staged s :
  inv s → inv (set_on_stage true (_onTextChanged s)).
Proof.
  single_inv_intro. unfold _onTextChanged.
  destruct (_filter_timeout s) as [id|] eqn:E;
    split; unfold cursor_ok, timer_ok, idle_ok; simpl; try done.
  - by rewrite Ht, filter_ne_singleton.
  - by rewrite Ht.
Qed.

Lemma single_inv_onTextChanged s :
  inv s → s.(on_stage) = true → inv (_onTextChanged s).
Proof.
  single_inv_intro. intros Hon. unfold _onTextChanged.
  destruct (_filter_timeout s) as [id|] eqn:E;
    split; unfold cursor_ok, timer_ok, idle_ok; simpl; try done.
  all: try (rewrite Hon; done).
  - by rewrite Ht, filter_ne_singleton.
  - by rewrite Ht.
Qed.

Lemma single_inv_timeout id s :
  inv s → id ∈ s.(sources) → inv (source_remove id (filter_timeout_callback s)).
Proof.
  intros Hinv Hid. pose proof (single_recompute_cursor s) as Hc'.
  revert Hinv Hid. single_inv_intro. intros Hid.
  split; unfold cursor_ok, timer_ok, idle_ok; simpl; try done.
  destruct (_filter_timeout s) as [id'|]; rewrite Ht in *.
  - apply list_elem_of_singleton in Hid as ->. apply filter_ne_singleton.
  - by apply elem_of_nil in Hid.
Qed.

Lemma single_inv_show on_text_changed items prompt s :
  (∀ s, inv s → inv (set_on_stage true (on_text_changed s))) →
  inv s → inv (show on_text_changed items prompt s).
Proof.
  intros Hhandler Hinv. unfold show.
  set (s1 := set_prompt_label _ _).
  assert (H1 : inv s1) by (revert Hinv; by single_inv_intro).
  set (s2 := entry_set_text _ _ s1).
  assert (H2 : inv (set_on_stage true s2)).
  { unfold s2, entry_set_text. case_match.
    - clear -H1. revert H1. by single_inv_intro.
    - apply Hhandler. clear -H1. revert H1. by single_inv_intro. }
  clearbody s2. clear -H2.
  pose proof (single_recompute_cursor (add_child s2)) as Hc'.
  revert H2. single_inv_intro.
  split; unfold cursor_ok, timer_ok, idle_ok; simpl; done.
Qed.

Lemma single_inv_disable s : inv s → inv (disable s).
Proof.
  intros Hinv. unfold disable. apply single_inv_hide, single_inv_emit.
  revert Hinv. by single_inv_intro.
Qed.

Lemma single_inv_step ev s : inv s → inv (step ev s).
Proof.
  intros Hinv. destruct ev; simpl; unfold step, dispatch.
  - case_match; [|done]. apply single_inv_show; [|done].
    apply single_inv_onTextChanged_staged.
  - destruct (on_stage s) eqn:Hon; [|done]. unfold entry_set_text.
    case_match; [done|]. apply single_inv_onTextChanged; [|done].
    revert Hinv. by single_inv_intro.
  - case_match; [|done]. by apply single_inv_onKeyPress.
  - case_match; [|done]. by apply single_inv_onActivate.
  - case_bool_decide; [|done]. by apply single_inv_timeout.
  - case_match; [|done]. by apply single_inv_disable.
Qed.

Lemma single_inv_run evs s : inv s → inv (run evs s).
Proof.
  revert s. induction evs as [|ev evs IH]; intros s Hinv; [done|].
  apply IH, single_inv_step, Hinv.
Qed.

Lemma single_reachable_inv s : reachable s → inv s.
Proof. intros [evs <-]. apply single_inv_run, single_inv_enable. Qed.

Lemma single_reachable_step ev s : reachable s → reachable (step ev s).
Proof.
  intros [evs <-]. exists (evs ++ [ev]). unfold run. by rewrite fold_left_app.
Qed.

End single_invariants.

(** ** The log of calls *)

Section multi_log.
Import Multi MultiInv MultiCommands.

Lemma len_pos {A} (l : list A) : l ≠ [] ↔ 0 < len l.
Proof. unfold len. destruct l; simpl; [split; [done | lia] | split; [lia | done]]. Qed.

Lemma multi_log_hide s : (hide s).(log) = s.(log) ++ [RemoveChild].
Proof. unfold hide. by destruct (_filter_timeout s). Qed.

Lemma multi_on_stage_hide s : (hide s).(on_stage) = false.
Proof. unfold hide. by destruct (_filter_timeout s). Qed.

Lemma multi_log_updateScrollWindow s : (_updateScrollWindow s).(log) = s.(log).
Proof. by destruct (updateScrollWindow_frame s) as [start ->]. Qed.

Lemma multi_log_toggle_current item s : (toggle_current item s).(log) = s.(log).
Proof. by destruct (toggle_current_frame item s) as [selected ->]. Qed.

(** What [_onActivate] does, case by case. *)
Lemma multi_onActivate_selection s :
  s.(_selected_items) ≠ [] →
  _onActivate s = hide (emitItemSelected s.(_selected_items) s).
Proof.
  intros Hsel%len_pos. unfold _onActivate, JsSet.size, JsSet.to_array.
  apply Z.ltb_lt in Hsel. by rewrite Hsel, Hsel.
Qed.

Lemma multi_onActivate_cursor s item :
  s.(_selected_items) = [] →
  array_get s.(_visible_items) s.(_selected_index) = Some item →
  _onActivate s = hide (emitItemSelected [item] s).
Proof.
  intros Hsel Hget. unfold _onActivate, JsSet.size. rewrite Hsel, Hget. simpl.
  assert (0 ≤ s.(_selected_index) < len s.(_visible_items)) as [H0 Hlt].
  { unfold array_get, len in *. destruct (Z.ltb_spec s.(_selected_index) 0); [done|].
    apply lookup_lt_Some in Hget. lia. }
  assert (Hpos : 0 < len s.(_visible_items)) by lia.
  apply Z.ltb_lt in Hlt, Hpos. by rewrite Hlt, Hpos.
Qed.

Lemma multi_onActivate_nothing s :
  s.(_selected_items) = [] → s.(_visible_items) = [] → _onActivate s = s.
Proof.
  intros Hsel Hvis. unfold _onActivate, JsSet.size. by rewrite Hsel, Hvis.
Qed.

(** A commit event runs [_onActivate]. *)
Lemma multi_commit_onActivate ev s :
  is_commit ev → s.(on_stage) = true → step ev s = _onActivate s.
Proof.
  destruct ev as [| |symbol modifiers| | |]; try done; simpl.
  - intros [Hsym Hshift] ->. unfold _onKeyPress. rewrite Hshift.
    by destruct Hsym as [-> | ->], (has_modifier modifiers CONTROL_MASK).
  - by intros _ ->.
Qed.

Lemma multi_log_onTextChanged s : (_onTextChanged s).(log) = s.(log).
Proof. unfold _onTextChanged. by destruct (_filter_timeout s). Qed.

Lemma multi_log_recompute s : (_updateResults s).(log) = s.(log).
Proof. unfold _updateResults. by rewrite multi_log_updateScrollWindow. Qed.

Lemma multi_log_show on_text_changed items prompt s :
  (∀ s, (on_text_changed s).(log) = s.(log)) →
  (show on_text_changed items prompt s).(log) = s.(log) ++ [AddChild].
Proof.
  intros Hh. unfold show, entry_set_text. rewrite multi_log_recompute. simpl.
  case_match; [done|]. by rewrite Hh.
Qed.

Lemma multi_log_onActivate s :
  inv s →
  (_onActivate s).(log) = s.(log)
  ∨ ∃ payload, payload ≠ [] ∧ NoDup payload
      ∧ (_onActivate s).(log) = s.(log) ++ [EmitItemSelected payload; RemoveChild].
Proof.
  intros Hinv.
  destruct (decide (s.(_selected_items) = [])) as [Hsel|Hsel].
  - destruct (array_get s.(_visible_items) s.(_selected_index)) as [item|] eqn:E.
    + right. exists [item]. split; [done|]. split; [apply NoDup_singleton|].
      rewrite (multi_onActivate_cursor s item Hsel E), multi_log_hide. simpl.
      by rewrite <- app_assoc.
    + left. unfold _onActivate, JsSet.size. rewrite Hsel, E. simpl.
      by destruct (_ && _).
  - right. exists s.(_selected_items). split; [done|].
    split; [apply Hinv|].
    rewrite (multi_onActivate_selection s Hsel), multi_log_hide. simpl.
    by rewrite <- app_assoc.
Qed.

Lemma multi_log_onKeyPress symbol modifiers s :
  inv s →
  (_onKeyPress symbol modifiers s).(log) = s.(log)
  ∨ (_onKeyPress symbol modifiers s).(log) = s.(log) ++ [EmitCancelled; RemoveChild]
  ∨ ∃ payload, payload ≠ [] ∧ NoDup payload
      ∧ (_onKeyPress symbol modifiers s).(log)
        = s.(log) ++ [EmitItemSelected payload; RemoveChild].
Proof.
  intros Hinv. unfold _onKeyPress, move_to.
  destruct (bool_decide (symbol = KEY_Escape)).
  { right; left. rewrite multi_log_hide. simpl. by rewrite <- app_assoc. }
  repeat match goal with
  | |- context [if ?b then _ else _] => destruct b
  | |- context [match ?o with Some _ => _ | None => _ end] => destruct o
  end.
  all: rewrite ?multi_log_updateScrollWindow; simpl;
       rewrite ?multi_log_toggle_current; auto.
  all: destruct (multi_log_onActivate s Hinv) as [?|?]; auto.
Qed.

Lemma multi_step_log ev s :
  inv s →
  ∃ calls, (step ev s).(log) = s.(log) ++ calls
           ∧ Forall payload_ok calls ∧ Forall payload_distinct calls.
Proof.
  intros Hinv.
  destruct ev as [items prompt|text|symbol modifiers| |id|]; simpl;
    unfold step, dispatch.
  - case_match; [|exists []; by rewrite app_nil_r].
    exists [AddChild]. split; [|by split; repeat constructor].
    apply multi_log_show, multi_log_onTextChanged.
  - exists []. rewrite app_nil_r. split; [|done].
    case_match; [|done]. unfold entry_set_text. case_match; [done|].
    by rewrite multi_log_onTextChanged.
  - case_match; [|exists []; by rewrite app_nil_r].
    destruct (multi_log_onKeyPress symbol modifiers s Hinv)
      as [E|[E|(payload & Hp & Hd & E)]]; rewrite E.
    + exists []. by rewrite app_nil_r.
    + eexists. split; [done|]. by split; repeat constructor.
    + eexists. split; [done|]. by split; repeat constructor.
  - case_match; [|exists []; by rewrite app_nil_r].
    destruct (multi_log_onActivate s Hinv) as [E|(payload & Hp & Hd & E)];
      rewrite E.
    + exists []. by rewrite app_nil_r.
    + eexists. split; [done|]. by split; repeat constructor.
  - exists []. rewrite app_nil_r. split; [|done].
    case_bool_decide; [|done]. unfold filter_timeout_callback. simpl.
    by rewrite multi_log_recompute.
  - case_match; [|exists []; by rewrite app_nil_r].
    exists [Unexport; RemoveChild]. split; [|by split; repeat constructor].
    unfold disable. rewrite multi_log_hide. simpl. by rewrite <- app_assoc.
Qed.

Lemma multi_reachable_payloads s :
  reachable s →
  Forall payload_ok s.(log) ∧ Forall payload_distinct s.(log).
Proof.
  intros [evs <-]. unfold run. induction evs as [|ev evs IH] using rev_ind.
  - by split; constructor.
  - rewrite fold_left_app. simpl.
    destruct (multi_step_log ev (fold_left (λ s ev, step ev s) evs enable))
      as (calls & -> & Hcalls1 & Hcalls2).
    { apply multi_reachable_inv. by eexists. }
    destruct IH. by split; apply Forall_app.
Qed.

End multi_log.

Section single_log.
Import Single SingleInv SingleCommands.

Lemma single_log_hide s : (hide s).(log) = s.(log) ++ [RemoveChild].
Proof. unfold hide. by destruct (_filter_timeout s). Qed.

Lemma single_on_stage_hide s : (hide s).(on_stage) = false.
Proof. unfold hide. by destruct (_filter_timeout s). Qed.

Lemma single_onActivate_cursor s item :
  array_get s.(_visible_items) s.(_selected_index) = Some item →
  _onActivate s = hide (emitItemSelected item s).
Proof.
  intros Hget. unfold _onActivate. rewrite Hget.
  assert (0 ≤ s.(_selected_index) < len s.(_visible_items)) as [H0 Hlt].
  { unfold array_get, len in *. destruct (Z.ltb_spec s.(_selected_index) 0); [done|].
    apply lookup_lt_Some in Hget. lia. }
  assert (Hpos : 0 < len s.(_visible_items)) by lia.
  apply Z.ltb_lt in Hlt, Hpos. by rewrite Hlt, Hpos.
Qed.

Lemma single_onActivate_nothing s : s.(_visible_items) = [] → _onActivate s = s.
Proof. intros Hvis. unfold _onActivate. by rewrite Hvis. Qed.

Lemma single_commit_onActivate ev s :
  is_commit ev → s.(on_stage) = true → step ev s = _onActivate s.
Proof.
  destruct ev as [| |symbol modifiers| | |]; try done; simpl.
  - intros Hsym ->. unfold _onKeyPress.
    by destruct Hsym as [-> | ->], (has_modifier modifiers CONTROL_MASK).
  - by intros _ ->.
Qed.

End single_log.

(** ** Commit *)

(** C2. Commit issued on a reachable state whose actor is on the stage: with
    a non-empty selection set, [ItemSelected] carries the selection in
    insertion order, whatever the cursor; otherwise, with a non-empty
    MatchList, it carries the item under the cursor alone; otherwise nothing
    happens and the state is unchanged. On emission the actor leaves the
    stage, and no [ItemSelected] ever logged has an empty payload. The
    single-select variant has no selection set and emits the item under the
    cursor. *)
Theorem commit_outcome :
  (∀ s ev,
     Multi.reachable s → s.(Multi.on_stage) = true → MultiCommands.is_commit ev →
     let s' := Multi.step ev s in
     (s.(Multi._selected_items) ≠ [] →
        s'.(Multi.log)
        = s.(Multi.log)
          ++ [Multi.EmitItemSelected s.(Multi._selected_items); Multi.RemoveChild]
        ∧ s'.(Multi.on_stage) = false)
     ∧ (s.(Multi._selected_items) = [] → s.(Multi._visible_items) ≠ [] →
        ∃ item,
          array_get s.(Multi._visible_items) s.(Multi._selected_index) = Some item
          ∧ s'.(Multi.log)
            = s.(Multi.log) ++ [Multi.EmitItemSelected [item]; Multi.RemoveChild]
          ∧ s'.(Multi.on_stage) = false)
     ∧ (s.(Multi._selected_items) = [] → s.(Multi._visible_items) = [] → s' = s))
  ∧ (∀ s, Multi.reachable s → Forall MultiCommands.payload_ok s.(Multi.log))
  ∧ (∀ s ev,
       Single.reachable s → s.(Single.on_stage) = true →
       SingleCommands.is_commit ev →
       let s' := Single.step ev s in
       (s.(Single._visible_items) ≠ [] →
          ∃ item,
            array_get s.(Single._visible_items) s.(Single._selected_index)
            = Some item
            ∧ s'.(Single.log)
              = s.(Single.log) ++ [Single.EmitItemSelected item; Single.RemoveChild]
            ∧ s'.(Single.on_stage) = false)
       ∧ (s.(Single._visible_items) = [] → s' = s)).
Proof.
  split_and!.
  - intros s ev Hreach Hon Hev. simpl.
    rewrite (multi_commit_onActivate ev s Hev Hon). split_and!.
    + intros Hsel. rewrite (multi_onActivate_selection s Hsel).
      rewrite multi_log_hide, multi_on_stage_hide. simpl.
      by rewrite <- app_assoc.
    + intros Hsel Hvis%len_pos.
      pose proof (multi_inv_keys_bounds s (multi_reachable_inv s Hreach) Hvis) as Hb.
      destruct (array_get_Some _ _ Hb) as (item & Hget & _).
      exists item. split; [done|].
      rewrite (multi_onActivate_cursor s item Hsel Hget).
      rewrite multi_log_hide, multi_on_stage_hide. simpl.
      by rewrite <- app_assoc.
    + apply multi_onActivate_nothing.
  - apply multi_reachable_payloads.
  - intros s ev Hreach Hon Hev. simpl.
    rewrite (single_commit_onActivate ev s Hev Hon). split.
    + intros Hvis%len_pos.
      pose proof (single_inv_bounds s (single_reachable_inv s Hreach) Hvis) as Hb.
      destruct (array_get_Some _ _ Hb) as (item & Hget & _).
      exists item. split; [done|].
      rewrite (single_onActivate_cursor s item Hget).
      rewrite single_log_hide, single_on_stage_hide. simpl.
      by rewrite <- app_assoc.
    + apply single_onActivate_nothing.
Qed.

(** The multi-select scenario of the specification: two toggles, then
    Commit, from the MatchList x, y, z. *)
Lemma commit_outcome_witness :
  let s := Multi.run [Multi.EvShow ["x"; "y"; "z"] None;
                      MultiCommands.ToggleSelectAdvance;
                      MultiCommands.ToggleSelectAdvance] Multi.enable in
  let s' := Multi.step (Multi.EvKeyPress KEY_Return 0) s in
  s'.(Multi.log)
  = s.(Multi.log) ++ [Multi.EmitItemSelected ["x"; "y"]; Multi.RemoveChild]
  ∧ s'.(Multi.on_stage) = false.
Proof.
  intros s s'.
  refine (proj1 (proj1 commit_outcome s (Multi.EvKeyPress KEY_Return 0) _ _ _) _).
  - by eexists.
  - reflexivity.
  - split; [by left | reflexivity].
  - discriminate.
Defined.

(** ** Cursor movement *)

Section multi_moves.
Import Multi MultiInv MultiCommands.

Lemma multi_move_to_fields i s :
  (move_to i s).(_selected_index) = i
  ∧ (move_to i s).(_visible_items) = s.(_visible_items)
  ∧ (move_to i s).(on_stage) = s.(on_stage).
Proof.
  unfold move_to.
  by destruct (updateScrollWindow_frame (set_selected_index i s)) as [start ->].
Qed.

Lemma multi_step_MoveUp s :
  step MoveUp s
  = if s.(on_stage) && (0 <? len s.(_visible_items))
    then move_to (Z.max 0 (s.(_selected_index) - 1)) s else s.
Proof. unfold step, MoveUp. simpl. by destruct (on_stage s). Qed.

Lemma multi_step_MoveDown s :
  step MoveDown s
  = if s.(on_stage) && (0 <? len s.(_visible_items))
    then move_to (Z.min (len s.(_visible_items) - 1) (s.(_selected_index) + 1)) s
    else s.
Proof. unfold step, MoveDown. simpl. by destruct (on_stage s). Qed.

Lemma multi_moves_cursor evs s :
  Forall is_move evs →
  0 ≤ s.(_selected_index) < len s.(_visible_items) →
  (run evs s).(_visible_items) = s.(_visible_items)
  ∧ 0 ≤ (run evs s).(_selected_index) < len s.(_visible_items).
Proof.
  intros Hevs. revert s. induction Hevs as [|ev evs Hev _ IH]; intros s Hs; [done|].
  change (run (ev :: evs) s) with (run evs (step ev s)).
  assert (Hstep : (step ev s).(_visible_items) = s.(_visible_items)
                  ∧ 0 ≤ (step ev s).(_selected_index) < len s.(_visible_items)).
  { destruct Hev as [-> | ->];
      rewrite ?multi_step_MoveUp, ?multi_step_MoveDown;
      (case_match; [|done]);
      match goal with |- context [move_to ?i s] =>
        destruct (multi_move_to_fields i s) as (-> & -> & _) end;
      (split; [done | lia]). }
  destruct Hstep as [Hvis Hidx]. rewrite <- Hvis in Hidx.
  destruct (IH _ Hidx) as [IH1 IH2]. by rewrite IH1, Hvis in *.
Qed.

Lemma multi_MoveUp_at_top s :
  s.(_selected_index) = 0 → (step MoveUp s).(_selected_index) = 0.
Proof.
  intros H0. rewrite multi_step_MoveUp. case_match; [|done].
  destruct (multi_move_to_fields (Z.max 0 (s.(_selected_index) - 1)) s) as [-> _].
  lia.
Qed.

Lemma multi_MoveDown_at_bottom s :
  s.(_selected_index) = len s.(_visible_items) - 1 →
  (step MoveDown s).(_selected_index) = s.(_selected_index).
Proof.
  intros Hlast. rewrite multi_step_MoveDown. case_match; [|done].
  match goal with |- context [move_to ?i s] =>
    destruct (multi_move_to_fields i s) as [-> _] end.
  lia.
Qed.

End multi_moves.

Section single_moves.
Import Single SingleInv SingleCommands.

Lemma single_step_MoveUp s :
  step MoveUp s
  = if s.(on_stage) && (0 <? len s.(_visible_items))
    then set_selected_index (Z.max 0 (s.(_selected_index) - 1)) s else s.
Proof. unfold step, MoveUp. simpl. by destruct (on_stage s). Qed.

Lemma single_step_MoveDown s :
  step MoveDown s
  = if s.(on_stage) && (0 <? len s.(_visible_items))
    then set_selected_index
           (Z.min (len s.(_visible_items) - 1) (s.(_selected_index) + 1)) s
    else s.
Proof. unfold step, MoveDown. simpl. by destruct (on_stage s). Qed.

Lemma single_moves_cursor evs s :
  Forall is_move evs →
  0 ≤ s.(_selected_index) < len s.(_visible_items) →
  (run evs s).(_visible_items) = s.(_visible_items)
  ∧ 0 ≤ (run evs s).(_selected_index) < len s.(_visible_items).
Proof.
  intros Hevs. revert s. induction Hevs as [|ev evs Hev _ IH]; intros s Hs; [done|].
  change (run (ev :: evs) s) with (run evs (step ev s)).
  assert (Hstep : (step ev s).(_visible_items) = s.(_visible_items)
                  ∧ 0 ≤ (step ev s).(_selected_index) < len s.(_visible_items)).
  { destruct Hev as [-> | ->];
      rewrite ?single_step_MoveUp, ?single_step_MoveDown;
      (case_match; [|done]); simpl; (split; [done | lia]). }
  destruct Hstep as [Hvis Hidx]. rewrite <- Hvis in Hidx.
  destruct (IH _ Hidx) as [IH1 IH2]. by rewrite IH1, Hvis in *.
Qed.

Lemma single_MoveUp_at_top s :
  s.(_selected_index) = 0 → (step MoveUp s).(_selected_index) = 0.
Proof.
  intros H0. rewrite single_step_MoveUp. case_match; [|done]. simpl. lia.
Qed.

Lemma single_MoveDown_at_bottom s :
  s.(_selected_index) = len s.(_visible_items) - 1 →
  (step MoveDown s).(_selected_index) = s.(_selected_index).
Proof.
  intros Hlast. rewrite single_step_MoveDown. case_match; [|done]. simpl. lia.
Qed.

End single_moves.

(** C3. From a non-empty MatchList and a cursor inside it, any sequence of
    MoveUp and MoveDown leaves the MatchList as it is and the cursor inside
    [0, len(MatchList) - 1]; MoveUp at 0 and MoveDown at the last index
    leave the cursor where it is. Both variants. *)
Theorem cursor_stays_in_range :
  (∀ evs s,
     Forall MultiCommands.is_move evs →
     0 ≤ s.(Multi._selected_index) < len s.(Multi._visible_items) →
     (Multi.run evs s).(Multi._visible_items) = s.(Multi._visible_items)
     ∧ 0 ≤ (Multi.run evs s).(Multi._selected_index)
         ≤ len s.(Multi._visible_items) - 1)
  ∧ (∀ s, s.(Multi._selected_index) = 0 →
          (Multi.step MultiCommands.MoveUp s).(Multi._selected_index) = 0)
  ∧ (∀ s, s.(Multi._selected_index) = len s.(Multi._visible_items) - 1 →
          (Multi.step MultiCommands.MoveDown s).(Multi._selected_index)
          = s.(Multi._selected_index))
  ∧ (∀ evs s,
       Forall SingleCommands.is_move evs →
       0 ≤ s.(Single._selected_index) < len s.(Single._visible_items) →
       (Single.run evs s).(Single._visible_items) = s.(Single._visible_items)
       ∧ 0 ≤ (Single.run evs s).(Single._selected_index)
           ≤ len s.(Single._visible_items) - 1)
  ∧ (∀ s, s.(Single._selected_index) = 0 →
          (Single.step SingleCommands.MoveUp s).(Single._selected_index) = 0)
  ∧ (∀ s, s.(Single._selected_index) = len s.(Single._visible_items) - 1 →
          (Single.step SingleCommands.MoveDown s).(Single._selected_index)
          = s.(Single._selected_index)).
Proof.
  split_and!.
  - intros evs s Hevs Hs.
    destruct (multi_moves_cursor evs s Hevs Hs) as [-> ?]. split; [done | lia].
  - apply multi_MoveUp_at_top.
  - apply multi_MoveDown_at_bottom.
  - intros evs s Hevs Hs.
    destruct (single_moves_cursor evs s Hevs Hs) as [-> ?]. split; [done | lia].
  - apply single_MoveUp_at_top.
  - apply single_MoveDown_at_bottom.
Qed.

(** The single-select scenario of the specification: from x, y, z with the
    cursor at 0, two MoveDown reach the last index, where a third stays. *)
Lemma cursor_stays_in_range_witness :
  let s := Single.run [Single.EvShow ["x"; "y"; "z"] None] Single.enable in
  let evs := [SingleCommands.MoveDown; SingleCommands.MoveDown;
              SingleCommands.MoveDown; SingleCommands.MoveUp] in
  (Single.run evs s).(Single._visible_items) = ["x"; "y"; "z"]
  ∧ 0 ≤ (Single.run evs s).(Single._selected_index) ≤ 2.
Proof.
  intros s evs.
  refine (proj1 (proj2 (proj2 (proj2 cursor_stays_in_range))) evs s _ _).
  - repeat constructor; by (left + right).
  - by vm_compute.
Defined.

(** ** Query changes *)

Section multi_query.
Import Multi.

Lemma multi_visible_updateResults s :
  (_updateResults s).(_visible_items) = match_list s.(_items) s.(entry_text)
  ∧ (_updateResults s).(_selected_index) = s.(_selected_index)
  ∧ (_updateResults s).(_items) = s.(_items)
  ∧ (_updateResults s).(entry_text) = s.(entry_text).
Proof.
  unfold _updateResults.
  by destruct (updateScrollWindow_frame
                 (set_visible_items
                    (filter_loop (filterTokens s.(entry_text)) s.(_items) []) s))
    as [start ->].
Qed.

Lemma multi_query_changed s query :
  s.(on_stage) = true → s.(entry_text) ≠ query →
  let s1 := step (EvTextEdited query) s in
  ∃ id, s1.(_filter_timeout) = Some id ∧ id ∈ s1.(sources)
        ∧ s1.(entry_text) = query
        ∧ let s2 := step (EvTimeout id) s1 in
          s2.(_selected_index) = 0
          ∧ s2.(_visible_items) = match_list s.(_items) query
          ∧ s2.(_filter_timeout) = None.
Proof.
  intros Hon Hq%String.eqb_neq. simpl. unfold step, dispatch, entry_set_text.
  rewrite Hon, Hq. unfold _onTextChanged.
  set (s0 := match _filter_timeout (set_entry_text query s) with
             | Some id => source_remove id (set_entry_text query s)
             | None => set_entry_text query s
             end).
  assert (H0 : s0.(entry_text) = query ∧ s0.(_items) = s.(_items))
    by (unfold s0; by destruct (_filter_timeout _)).
  destruct H0 as [Htext Hitems]. clearbody s0. simpl.
  exists s0.(next_source). split; [done|]. split.
  { apply elem_of_app. right. by apply list_elem_of_singleton. }
  split; [done|].
  rewrite bool_decide_eq_true_2
    by (apply elem_of_app; right; by apply list_elem_of_singleton).
  unfold filter_timeout_callback. simpl.
  match goal with |- context [_updateResults ?t] =>
    destruct (multi_visible_updateResults t) as (-> & -> & _) end.
  simpl. by rewrite Htext, Hitems.
Qed.

End multi_query.

Section single_query.
Import Single.

Lemma single_query_changed s query :
  s.(on_stage) = true → s.(entry_text) ≠ query →
  let s1 := step (EvTextEdited query) s in
  ∃ id, s1.(_filter_timeout) = Some id ∧ id ∈ s1.(sources)
        ∧ s1.(entry_text) = query
        ∧ let s2 := step (EvTimeout id) s1 in
          s2.(_selected_index) = 0
          ∧ s2.(_visible_items) = match_list s.(_items) query
          ∧ s2.(_filter_timeout) = None.
Proof.
  intros Hon Hq%String.eqb_neq. simpl. unfold step, dispatch, entry_set_text.
  rewrite Hon, Hq. unfold _onTextChanged.
  set (s0 := match _filter_timeout (set_entry_text query s) with
             | Some id => source_remove id (set_entry_text query s)
             | None => set_entry_text query s
             end).
  assert (H0 : s0.(entry_text) = query ∧ s0.(_items) = s.(_items))
    by (unfold s0; by destruct (_filter_timeout _)).
  destruct H0 as [Htext Hitems]. clearbody s0. simpl.
  exists s0.(next_source). split; [done|]. split.
  { apply elem_of_app. right. by apply list_elem_of_singleton. }
  split; [done|].
  rewrite bool_decide_eq_true_2
    by (apply elem_of_app; right; by apply list_elem_of_singleton).
  unfold filter_timeout_callback, _updateResults, match_list. simpl.
  by rewrite Htext, Hitems.
Qed.

End single_query.

(** C5. When the user changes the entry text to [query] on a state whose
    actor is on the stage, a debounce timer is pending afterwards, and once
    it fires the cursor is 0 and the MatchList is [match_list] of the
    candidate list and [query]: a function of these two alone. Both
    variants. *)
Theorem query_changed_resets :
  (∀ s query,
     s.(Multi.on_stage) = true → s.(Multi.entry_text) ≠ query →
     let s1 := Multi.step (Multi.EvTextEdited query) s in
     ∃ id, s1.(Multi._filter_timeout) = Some id ∧ id ∈ s1.(Multi.sources)
           ∧ s1.(Multi.entry_text) = query
           ∧ let s2 := Multi.step (Multi.EvTimeout id) s1 in
             s2.(Multi._selected_index) = 0
             ∧ s2.(Multi._visible_items)
               = Multi.match_list s.(Multi._items) query
             ∧ s2.(Multi._filter_timeout) = None)
  ∧ (∀ s query,
       s.(Single.on_stage) = true → s.(Single.entry_text) ≠ query →
       let s1 := Single.step (Single.EvTextEdited query) s in
       ∃ id, s1.(Single._filter_timeout) = Some id ∧ id ∈ s1.(Single.sources)
             ∧ s1.(Single.entry_text) = query
             ∧ let s2 := Single.step (Single.EvTimeout id) s1 in
               s2.(Single._selected_index) = 0
               ∧ s2.(Single._visible_items)
                 = Single.match_list s.(Single._items) query
               ∧ s2.(Single._filter_timeout) = None).
Proof. split; [apply multi_query_changed | apply single_query_changed]. Qed.

Lemma query_changed_resets_witness :
  let s := Multi.run [Multi.EvShow ["apple"; "banana"; "grape"] None;
                      MultiCommands.MoveDown; MultiCommands.MoveDown]
             Multi.enable in
  let s1 := Multi.step (Multi.EvTextEdited "an a") s in
  ∃ id, s1.(Multi._filter_timeout) = Some id ∧ id ∈ s1.(Multi.sources)
        ∧ s1.(Multi.entry_text) = "an a"
        ∧ let s2 := Multi.step (Multi.EvTimeout id) s1 in
          s2.(Multi._selected_index) = 0
          ∧ s2.(Multi._visible_items)
            = Multi.match_list ["apple"; "banana"; "grape"] "an a"
          ∧ s2.(Multi._filter_timeout) = None.
Proof.
  intros s. apply (proj1 query_changed_resets s "an a"); [reflexivity | discriminate].
Defined.

(** ** Cancel and teardown *)

Section multi_cancel.
Import Multi MultiInv MultiCommands.

Lemma multi_hide_idle s : inv s → idle (hide s).
Proof.
  multi_inv_intro. unfold idle, hide.
  destruct (_filter_timeout s) as [id|] eqn:E; simpl; rewrite ?E; [|done].
  by rewrite Ht, filter_ne_singleton.
Qed.

Lemma multi_signals_app s calls s' :
  s'.(log) = s.(log) ++ calls →
  signals s' = signals s ++ List.filter is_signal calls.
Proof. unfold signals. intros ->. apply List.filter_app. Qed.

Lemma multi_idle_step ev s :
  idle s → ¬ is_show ev → idle (step ev s) ∧ signals (step ev s) = signals s.
Proof.
  intros (Hoff & Htimer & Hsrc) Hev.
  destruct ev as [items prompt|text|symbol modifiers| |id|]; simpl in *;
    unfold step, dispatch; rewrite ?Hoff, ?Hsrc; try done.
  destruct (exported s); [|done]. unfold disable, hide. simpl.
  rewrite Htimer. split; [done|]. unfold signals. simpl.
  rewrite <- app_assoc, List.filter_app. simpl. by rewrite app_nil_r.
Qed.

Lemma multi_idle_run evs s :
  idle s → Forall (λ ev, ¬ is_show ev) evs → signals (run evs s) = signals s.
Proof.
  intros Hidle Hevs. revert s Hidle.
  induction Hevs as [|ev evs Hev _ IH]; intros s Hidle; [done|].
  change (run (ev :: evs) s) with (run evs (step ev s)).
  destruct (multi_idle_step ev s Hidle Hev) as [Hidle' <-]. by apply IH.
Qed.

Lemma multi_cancel s modifiers :
  inv s → s.(on_stage) = true →
  let s' := step (EvKeyPress KEY_Escape modifiers) s in
  s'.(log) = s.(log) ++ [EmitCancelled; RemoveChild] ∧ idle s'.
Proof.
  intros Hinv Hon. simpl. unfold step, dispatch. rewrite Hon.
  change (_onKeyPress KEY_Escape modifiers s) with (hide (emitCancelled s)).
  rewrite multi_log_hide. simpl. rewrite <- app_assoc.
  split; [done|]. by apply multi_hide_idle, multi_inv_emit.
Qed.

End multi_cancel.

Section single_cancel.
Import Single SingleInv SingleCommands.

Lemma single_hide_idle s : inv s → idle (hide s).
Proof.
  single_inv_intro. unfold idle, hide.
  destruct (_filter_timeout s) as [id|] eqn:E; simpl; rewrite ?E; [|done].
  by rewrite Ht, filter_ne_singleton.
Qed.

Lemma single_idle_step ev s :
  idle s → ¬ is_show ev → idle (step ev s) ∧ signals (step ev s) = signals s.
Proof.
  intros (Hoff & Htimer & Hsrc) Hev.
  destruct ev as [items prompt|text|symbol modifiers| |id|]; simpl in *;
    unfold step, dispatch; rewrite ?Hoff, ?Hsrc; try done.
  destruct (exported s); [|done]. unfold disable, hide. simpl.
  rewrite Htimer. split; [done|]. unfold signals. simpl.
  rewrite <- app_assoc, List.filter_app. simpl. by rewrite app_nil_r.
Qed.

Lemma single_idle_run evs s :
  idle s → Forall (λ ev, ¬ is_show ev) evs → signals (run evs s) = signals s.
Proof.
  intros Hidle Hevs. revert s Hidle.
  induction Hevs as [|ev evs Hev _ IH]; intros s Hidle; [done|].
  change (run (ev :: evs) s) with (run evs (step ev s)).
  destruct (single_idle_step ev s Hidle Hev) as [Hidle' <-]. by apply IH.
Qed.

Lemma single_cancel s modifiers :
  inv s → s.(on_stage) = true →
  let s' := step (EvKeyPress KEY_Escape modifiers) s in
  s'.(log) = s.(log) ++ [EmitCancelled; RemoveChild] ∧ idle s'.
Proof.
  intros Hinv Hon. simpl. unfold step, dispatch. rewrite Hon.
  change (_onKeyPress KEY_Escape modifiers s) with (hide (emitCancelled s)).
  rewrite single_log_hide. simpl. rewrite <- app_assoc.
  split; [done|]. by apply single_hide_idle, single_inv_emit.
Qed.

End single_cancel.

(** C6. On a reachable state whose actor is on the stage, Escape makes
    exactly two calls, [Cancelled] and the removal of the actor, so one
    [Cancelled] and no [ItemSelected]; [hide] on a reachable state makes the
    removal only. After either, no timeout source is live and no timer is
    recorded, and no sequence of events without a new [Show] adds a signal
    to the log. Both variants. *)
Theorem cancel_terminates :
  (∀ s modifiers,
     Single.reachable s → s.(Single.on_stage) = true →
     let s' := Single.step (Single.EvKeyPress KEY_Escape modifiers) s in
     s'.(Single.log) = s.(Single.log) ++ [Single.EmitCancelled; Single.RemoveChild]
     ∧ SingleInv.idle s'
     ∧ ∀ evs, Forall (λ ev, ¬ SingleCommands.is_show ev) evs →
              Single.signals (Single.run evs s') = Single.signals s')
  ∧ (∀ s,
       Single.reachable s →
       let s' := Single.hide s in
       s'.(Single.log) = s.(Single.log) ++ [Single.RemoveChild]
       ∧ SingleInv.idle s'
       ∧ ∀ evs, Forall (λ ev, ¬ SingleCommands.is_show ev) evs →
                Single.signals (Single.run evs s') = Single.signals s')
  ∧ (∀ s modifiers,
       Multi.reachable s → s.(Multi.on_stage) = true →
       let s' := Multi.step (Multi.EvKeyPress KEY_Escape modifiers) s in
       s'.(Multi.log) = s.(Multi.log) ++ [Multi.EmitCancelled; Multi.RemoveChild]
       ∧ MultiInv.idle s'
       ∧ ∀ evs, Forall (λ ev, ¬ MultiCommands.is_show ev) evs →
                Multi.signals (Multi.run evs s') = Multi.signals s')
  ∧ (∀ s,
       Multi.reachable s →
       let s' := Multi.hide s in
       s'.(Multi.log) = s.(Multi.log) ++ [Multi.RemoveChild]
       ∧ MultiInv.idle s'
       ∧ ∀ evs, Forall (λ ev, ¬ MultiCommands.is_show ev) evs →
                Multi.signals (Multi.run evs s') = Multi.signals s').
Proof.
  split_and!.
  - intros s modifiers Hreach%single_reachable_inv Hon.
    destruct (single_cancel s modifiers Hreach Hon) as [Hlog Hidle].
    split_and!; [done | done |]. intros evs. by apply single_idle_run.
  - intros s Hreach%single_reachable_inv.
    pose proof (single_hide_idle s Hreach) as Hidle.
    split_and!; [apply single_log_hide | done |].
    intros evs. by apply single_idle_run.
  - intros s modifiers Hreach%multi_reachable_inv Hon.
    destruct (multi_cancel s modifiers Hreach Hon) as [Hlog Hidle].
    split_and!; [done | done |]. intros evs. by apply multi_idle_run.
  - intros s Hreach%multi_reachable_inv.
    pose proof (multi_hide_idle s Hreach) as Hidle.
    split_and!; [apply multi_log_hide | done |].
    intros evs. by apply multi_idle_run.
Qed.

Lemma cancel_terminates_witness :
  let s := Single.run [Single.EvShow ["apple"; "banana"] (Some "run");
                       Single.EvTextEdited "b"] Single.enable in
  let s' := Single.step (Single.EvKeyPress KEY_Escape 0) s in
  s'.(Single.log) = s.(Single.log) ++ [Single.EmitCancelled; Single.RemoveChild]
  ∧ SingleInv.idle s'
  ∧ ∀ evs, Forall (λ ev, ¬ SingleCommands.is_show ev) evs →
           Single.signals (Single.run evs s') = Single.signals s'.
Proof.
  intros s. apply (proj1 cancel_terminates s 0); [by eexists | reflexivity].
Defined.

(** ** Show *)

Section multi_show.
Import Multi MultiInv MultiCommands.

Lemma updateScrollWindow_at_0 s :
  s.(_selected_index) = 0 →
  _updateScrollWindow s = set_scroll_start_index 0 s.
Proof.
  intros H0. unfold _updateScrollWindow, _items_per_page.
  change (20 / 4) with 5. rewrite H0.
  pose proof (len_nonneg s.(_visible_items)) as Hn.
  destruct (Z.eqb_spec (len s.(_visible_items)) 0); [done|].
  destruct (Z.ltb_spec 0 (s.(_scroll_start_index) + 5)); [done|].
  destruct (Z.leb_spec (s.(_scroll_start_index) + 20 - 5) 0); simpl.
  - unfold set_scroll_start_index. simpl. f_equal. lia.
  - unfold set_scroll_start_index. simpl. f_equal. lia.
Qed.

Lemma multi_entry_set_text_fields text s :
  let s' := entry_set_text _onTextChanged text s in
  s'.(entry_text) = text ∧ s'.(_items) = s.(_items)
  ∧ s'.(_selected_items) = s.(_selected_items)
  ∧ s'.(prompt_label) = s.(prompt_label).
Proof.
  simpl. unfold entry_set_text, _onTextChanged.
  destruct (String.eqb_spec s.(entry_text) text); [done|].
  by destruct (_filter_timeout _).
Qed.

(** [show] as one update of the state the emptying of the entry leaves. *)
Lemma multi_show_fields items prompt s :
  show _onTextChanged items prompt s
  = set_scroll_start_index 0
      (set_visible_items items
         (add_child
            (set_selected_index 0
               (entry_set_text _onTextChanged ""
                  (set_prompt_label (prompt +:+ " ")
                     (set_selected_items [] (set_items items s))))))).
Proof.
  unfold show, _updateResults.
  rewrite updateScrollWindow_at_0 by done. simpl.
  match goal with |- context [entry_set_text _ "" ?t] =>
    destruct (multi_entry_set_text_fields "" t) as (-> & -> & _) end.
  simpl. change (filter_loop (filterTokens "") items []) with (match_list items "").
  by rewrite multi_match_list_no_token.
Qed.

Lemma multi_show_state items prompt s :
  let s' := show _onTextChanged items prompt s in
  s'.(_items) = items ∧ s'.(entry_text) = "" ∧ s'.(_selected_index) = 0
  ∧ s'.(_selected_items) = [] ∧ s'.(_scroll_start_index) = 0
  ∧ s'.(_visible_items) = items ∧ s'.(on_stage) = true
  ∧ s'.(prompt_label) = prompt +:+ " ".
Proof.
  simpl. rewrite multi_show_fields. simpl.
  match goal with |- context [entry_set_text _ "" ?t] =>
    destruct (multi_entry_set_text_fields "" t) as (-> & -> & -> & ->) end.
  done.
Qed.

(** Two states that agree on the entry text, on the timer and on the
    toolkit are taken by [show] to the same state: nothing of the
    candidates, MatchList, cursor, selection or scroll position of the
    state before is left. *)
Lemma multi_show_forgets items prompt s1 s2 :
  s1.(entry_text) = s2.(entry_text) →
  s1.(_filter_timeout) = s2.(_filter_timeout) →
  s1.(sources) = s2.(sources) → s1.(next_source) = s2.(next_source) →
  s1.(exported) = s2.(exported) → s1.(log) = s2.(log) →
  show _onTextChanged items prompt s1 = show _onTextChanged items prompt s2.
Proof.
  intros Htext Htimer Hsrc Hnext Hexp Hlog. rewrite !multi_show_fields.
  destruct s1, s2. simpl in *. subst.
  unfold entry_set_text, _onTextChanged. simpl.
  destruct (String.eqb _ ""); [done|]. simpl.
  by repeat case_match.
Qed.

End multi_show.

(** C7. In the multi-select variant a [Show] delivered to any state, for
    instance one left by a first [Show] that has not been committed or
    cancelled, replaces the candidates by the new items, empties the entry
    text and the selection set, puts the cursor and the scroll position at
    0, makes the MatchList the new items and puts the actor on the stage;
    the state it leaves does not depend on the candidates, MatchList,
    cursor, selection or scroll position before. The prompt label shows the
    prompt followed by a space, the prompt being ">" when the argument is
    empty or absent. *)
Theorem show_resets :
  (∀ s items prompt,
     s.(Multi.exported) = true →
     let s' := Multi.step (Multi.EvShow items prompt) s in
     s'.(Multi._items) = items ∧ s'.(Multi.entry_text) = ""
     ∧ s'.(Multi._selected_index) = 0 ∧ s'.(Multi._selected_items) = []
     ∧ s'.(Multi._scroll_start_index) = 0 ∧ s'.(Multi._visible_items) = items
     ∧ s'.(Multi.on_stage) = true
     ∧ s'.(Multi.prompt_label) = prompt_or_default prompt +:+ " ")
  ∧ (∀ s1 s2 items prompt,
       s1.(Multi.exported) = true → s2.(Multi.exported) = true →
       s1.(Multi.entry_text) = s2.(Multi.entry_text) →
       s1.(Multi._filter_timeout) = s2.(Multi._filter_timeout) →
       s1.(Multi.sources) = s2.(Multi.sources) →
       s1.(Multi.next_source) = s2.(Multi.next_source) →
       s1.(Multi.log) = s2.(Multi.log) →
       Multi.step (Multi.EvShow items prompt) s1
       = Multi.step (Multi.EvShow items prompt) s2)
  ∧ prompt_or_default None = ">" ∧ prompt_or_default (Some "") = ">".
Proof.
  split_and!; [| |done|done].
  - intros s items prompt Hexp. simpl. unfold Multi.step, Multi.dispatch.
    rewrite Hexp. apply multi_show_state.
  - intros s1 s2 items prompt Hexp1 Hexp2 Htext Htimer Hsrc Hnext Hlog.
    unfold Multi.step, Multi.dispatch. rewrite Hexp1, Hexp2.
    apply multi_show_forgets; congruence.
Qed.

(** A second [Show] arriving after the user typed, moved and toggled in the
    first invocation. *)
Lemma show_resets_witness :
  let s := Multi.run [Multi.EvShow ["apple"; "banana"; "grape"] (Some "fruit");
                      MultiCommands.MoveDown; MultiCommands.ToggleSelectAdvance;
                      Multi.EvTextEdited "a"; Multi.EvTimeout 1]
             Multi.enable in
  let s' := Multi.step (Multi.EvShow ["x"; "y"] None) s in
  s'.(Multi._items) = ["x"; "y"] ∧ s'.(Multi.entry_text) = ""
  ∧ s'.(Multi._selected_index) = 0 ∧ s'.(Multi._selected_items) = []
  ∧ s'.(Multi._scroll_start_index) = 0 ∧ s'.(Multi._visible_items) = ["x"; "y"]
  ∧ s'.(Multi.on_stage) = true
  ∧ s'.(Multi.prompt_label) = "> ".
Proof.
  intros s. apply (proj1 show_resets s ["x"; "y"] None). reflexivity.
Defined.

(** ** The viewport *)

Section multi_viewport.
Import Multi MultiInv MultiCommands.

(** An admissible start has the cursor in its buffered window exactly when
    the cursor is [buffer] rows or more from the top and from the end of
    the last page. *)
Lemma has_buffered_start_iff n cursor :
  has_buffered_start n cursor
  ↔ buffer ≤ cursor < last_start n + pageSize - buffer.
Proof.
  unfold has_buffered_start, admissible_start, in_buffered_window, last_start,
    buffer, pageSize, _items_per_page.
  change (20 / 4) with 5. split.
  - intros (c & (? & ? & ?) & ?). lia.
  - intros H. exists (Z.max 0 (Z.min (n - 20) (cursor - 5))). lia.
Qed.

(** The scroll position [_updateScrollWindow] computes depends on the
    MatchList, the cursor and the scroll position before, and on nothing
    else. *)
Lemma updateScrollWindow_start_ext t1 t2 :
  t1.(_visible_items) = t2.(_visible_items) →
  t1.(_selected_index) = t2.(_selected_index) →
  t1.(_scroll_start_index) = t2.(_scroll_start_index) →
  (_updateScrollWindow t1).(_scroll_start_index)
  = (_updateScrollWindow t2).(_scroll_start_index).
Proof.
  intros Ev Ec Es. unfold _updateScrollWindow. rewrite Ev, Ec, Es.
  repeat case_match; simpl; by rewrite ?Ev, ?Ec, ?Es.
Qed.

Lemma updateScrollWindow_view t :
  (_updateScrollWindow t).(_visible_items) = t.(_visible_items)
  ∧ (_updateScrollWindow t).(_selected_index) = t.(_selected_index).
Proof. by destruct (updateScrollWindow_frame t) as [start ->]. Qed.

(** When no admissible start has the cursor in its buffered window,
    [_updateScrollWindow] moves the start to the first admissible start at
    the top of the MatchList and to the last one at its end. *)
Lemma updateScrollWindow_end t :
  cursor_ok t →
  admissible_start (len t.(_visible_items)) t.(_scroll_start_index) →
  ¬ buffered_start_exists t →
  (_updateScrollWindow t).(_scroll_start_index)
  = end_start (len t.(_visible_items)) t.(_selected_index).
Proof.
  unfold buffered_start_exists. rewrite has_buffered_start_iff.
  unfold cursor_ok, admissible_start, end_start, last_start, buffer, pageSize,
    _updateScrollWindow, _items_per_page.
  change (20 / 4) with 5.
  pose proof (len_nonneg t.(_visible_items)) as Hn.
  intros Hc Ha Hno.
  destruct (Z.eqb_spec (len t.(_visible_items)) 0) as [Hz|Hz]; simpl.
  - apply len_zero_nil in Hz.
    destruct Hc as [[_ ->]|Hc]; [done|].
    rewrite Hz in Hc. unfold len in Hc. simpl in Hc. lia.
  - destruct Hc as [[Hnil _]|Hc]; [by rewrite Hnil in Hz|].
    destruct (Z.ltb_spec t.(_selected_index) 5);
      destruct (Z.ltb_spec t.(_selected_index) (t.(_scroll_start_index) + 5));
      simpl; try lia.
    destruct (Z.leb_spec (t.(_scroll_start_index) + 20 - 5) t.(_selected_index));
      simpl; lia.
Qed.

Lemma multi_view_hide s :
  (hide s).(_visible_items) = s.(_visible_items)
  ∧ (hide s).(_selected_index) = s.(_selected_index)
  ∧ (hide s).(_scroll_start_index) = s.(_scroll_start_index).
Proof. unfold hide. by destruct (_filter_timeout s). Qed.

Lemma multi_view_onActivate s :
  (_onActivate s).(_visible_items) = s.(_visible_items)
  ∧ (_onActivate s).(_selected_index) = s.(_selected_index)
  ∧ (_onActivate s).(_scroll_start_index) = s.(_scroll_start_index).
Proof.
  unfold _onActivate.
  repeat case_match; try done.
  all: match goal with |- context [hide ?t] =>
         by destruct (multi_view_hide t) as (-> & -> & ->) end.
Qed.

(** What a key press does to the viewport: it leaves MatchList, cursor and
    scroll position alone, or it moves the cursor to a row [j] of the same
    MatchList and runs [_updateScrollWindow] from the scroll position
    before. *)
Lemma multi_view_onKeyPress symbol modifiers s :
  inv s →
  let s' := _onKeyPress symbol modifiers s in
  s'.(_visible_items) = s.(_visible_items)
  ∧ (s'.(_selected_index) = s.(_selected_index)
     ∧ s'.(_scroll_start_index) = s.(_scroll_start_index)
     ∨ 0 ≤ s'.(_selected_index) < len s.(_visible_items)
       ∧ s'.(_scroll_start_index)
         = (_updateScrollWindow (set_selected_index s'.(_selected_index) s))
             .(_scroll_start_index)).
Proof.
  intros Hinv. cbv zeta. unfold _onKeyPress, move_to.
  repeat match goal with
  | |- context [if ?b then _ else _] =>
      lazymatch b with
      | (0 <? _) => fail
      | (0 <? _) && _ => fail
      | _ => destruct b
      end
  end.
  all: try (split; [done | by left]).
  all: try (destruct (multi_view_hide (emitCancelled s)) as (-> & -> & ->);
            split; [done | by left]).
  all: try (destruct (multi_view_onActivate s) as (-> & -> & ->);
            split; [done | by left]).
  all: try (destruct (Z.ltb_spec 0 (len s.(_visible_items))) as [Hpos|_];
            [|split; [done | by left]];
            pose proof (multi_inv_keys_bounds s Hinv Hpos) as Hb).
  all: try (match goal with |- context [_updateScrollWindow ?t] =>
              destruct (updateScrollWindow_view t) as [-> ->] end;
            split; [done | right]; simpl;
            split; [unfold _items_per_page; lia | done]).
  all: simpl.
  all: destruct (Z.ltb_spec s.(_selected_index) (len s.(_visible_items)));
    [|lia|..].
  all: destruct (array_get _ _) as [currentItem|]; [|split; [done | by left]].
  all: destruct (toggle_current_frame currentItem s) as [selected E].
  all: rewrite E.
  all: match goal with |- context [_updateScrollWindow ?t] =>
         destruct (updateScrollWindow_view t) as [-> ->] end.
  all: split; [done | right]; simpl.
  all: split; [lia | by apply updateScrollWindow_start_ext].
Qed.

(** What any event does to the viewport: as a key press, or it puts both
    the cursor and the scroll position at 0. *)
Lemma multi_view_step ev s :
  inv s →
  let s' := step ev s in
  s'.(_visible_items) = s.(_visible_items)
  ∧ s'.(_selected_index) = s.(_selected_index)
  ∧ s'.(_scroll_start_index) = s.(_scroll_start_index)
  ∨ s'.(_selected_index) = 0 ∧ s'.(_scroll_start_index) = 0
  ∨ s'.(_visible_items) = s.(_visible_items)
    ∧ 0 ≤ s'.(_selected_index) < len s.(_visible_items)
    ∧ s'.(_scroll_start_index)
      = (_updateScrollWindow (set_selected_index s'.(_selected_index) s))
          .(_scroll_start_index).
Proof.
  intros Hinv. cbv zeta.
  destruct ev as [items prompt|text|symbol modifiers| |id|];
    unfold step, dispatch.
  - case_match; [|by left]. right. left.
    by destruct (multi_show_state items (prompt_or_default prompt) s)
      as (_ & _ & -> & _ & -> & _).
  - case_match; [|by left]. left.
    unfold entry_set_text, _onTextChanged. case_match; [done|].
    by destruct (_filter_timeout _).
  - case_match; [|by left].
    destruct (multi_view_onKeyPress symbol modifiers s Hinv) as [Hv [[Hc Hs]|[Hc Hs]]];
      [by left | right; right; done].
  - case_match; [|by left]. left. apply multi_view_onActivate.
  - case_bool_decide; [|by left]. right. left.
    unfold filter_timeout_callback. simpl. unfold _updateResults.
    by rewrite updateScrollWindow_at_0.
  - case_match; [|by left]. left. unfold disable.
    by destruct (multi_view_hide (emit Unexport (set_exported false s)))
      as (-> & -> & ->).
Qed.

(** When the cursor can be brought into a buffered window, a step moves
    the scroll position by the least amount that meets the viewport
    conditions. *)
Lemma multi_step_minimal ev s :
  inv s → buffered_start_exists (step ev s) →
  minimal_adjustment s (step ev s).
Proof.
  intros Hinv Hex c [Ha Hw]. specialize (Hw Hex).
  destruct (multi_view_step ev s Hinv)
    as [(_ & _ & ->)|[[E0 _]|(Ev & Hc & ->)]]; [lia | |].
  - apply has_buffered_start_iff in Hex. rewrite E0 in Hex.
    unfold buffer, pageSize, _items_per_page in Hex.
    change (20 / 4) with 5 in Hex. lia.
  - rewrite Ev in Ha.
    apply (updateScrollWindow_minimal
             (set_selected_index (step ev s).(_selected_index) s) c);
      [apply Hinv | by right | done | done].
Qed.

(** The position of the scroll window when no buffered window can hold
    the cursor, as an invariant. *)
Lemma multi_end_step ev s :
  inv s →
  (¬ buffered_start_exists s →
   s.(_scroll_start_index)
   = end_start (len s.(_visible_items)) s.(_selected_index)) →
  ¬ buffered_start_exists (step ev s) →
  (step ev s).(_scroll_start_index)
  = end_start (len (step ev s).(_visible_items)) (step ev s).(_selected_index).
Proof.
  intros Hinv Hend. unfold buffered_start_exists.
  destruct (multi_view_step ev s Hinv)
    as [(-> & -> & ->)|[[-> ->]|(-> & Hc & ->)]]; [done | done |].
  intros Hno.
  by rewrite (updateScrollWindow_end
                (set_selected_index (step ev s).(_selected_index) s));
    [| right | apply Hinv |].
Qed.

Lemma multi_reachable_end s :
  reachable s → ¬ buffered_start_exists s →
  s.(_scroll_start_index)
  = end_start (len s.(_visible_items)) s.(_selected_index).
Proof.
  intros [evs <-]. unfold run. induction evs as [|ev evs IH] using rev_ind.
  - done.
  - rewrite fold_left_app. simpl. apply multi_end_step; [|done].
    apply (multi_inv_run evs), multi_inv_enable.
Qed.

End multi_viewport.

(** C8. In every reachable state of the multi-select variant the scroll
    position is an admissible start (not negative; its page ends within the
    MatchList, or it is 0 when the list is shorter than a page) and has the
    cursor in its buffered window whenever some admissible start does; the
    cursor is a row of the page. When no admissible start has the cursor in
    its buffered window, the scroll position is the first admissible start
    if the cursor is within [buffer] rows of the top and the last one
    otherwise. Every step that leaves the cursor where some admissible
    start has it in its buffered window adjusts the scroll position by the
    least amount that meets these conditions. *)
Theorem viewport_maintained :
  ∀ s, Multi.reachable s →
    viewport_ok (len s.(Multi._visible_items)) s.(Multi._selected_index)
      s.(Multi._scroll_start_index)
    ∧ cursor_on_page s.(Multi._selected_index) s.(Multi._scroll_start_index)
    ∧ (¬ buffered_start_exists s →
       s.(Multi._scroll_start_index)
       = end_start (len s.(Multi._visible_items)) s.(Multi._selected_index))
    ∧ ∀ ev, buffered_start_exists (Multi.step ev s) →
            minimal_adjustment s (Multi.step ev s).
Proof.
  intros s Hreach. pose proof (multi_reachable_inv s Hreach) as Hinv.
  split_and!.
  - apply Hinv.
  - apply Hinv.
  - by apply multi_reachable_end.
  - intros ev. by apply multi_step_minimal.
Qed.

(** Thirty candidates, the cursor moved down to row 17: the window has
    scrolled to start 3. One more row down, start 4 has row 18 in its
    buffered window, and the window moves by that one row and no more. *)
Lemma viewport_maintained_witness :
  let s := Multi.run
             (Multi.EvShow (replicate 30 "row") None
              :: replicate 17 MultiCommands.MoveDown) Multi.enable in
  let s' := Multi.step MultiCommands.MoveDown s in
  viewport_ok 30 17 3 ∧ cursor_on_page 17 3
  ∧ s'.(Multi._scroll_start_index) = 4
  ∧ minimal_adjustment s s'.
Proof.
  intros s s'.
  destruct (viewport_maintained s) as (Hv & Hp & _ & Hm); [by eexists|].
  split_and!; [exact Hv | exact Hp | reflexivity |].
  apply (Hm MultiCommands.MoveDown). exists 4.
  unfold admissible_start, in_buffered_window, buffer, pageSize,
    Multi._items_per_page.
  change (20 / 4) with 5. vm_compute len. vm_compute Multi._selected_index.
  lia.
Defined.

(** Thirty candidates, the cursor on row 6 and the window at start 0:
    Page_Down moves the cursor to row 26 and the window to start 10. No
    admissible start has row 26 in its buffered window, so start 0 meets
    every viewport condition with no adjustment at all, and start 7 would
    already have row 26 on the page: the jump to 10 is not minimal. *)
Lemma viewport_jump_not_minimal :
  let s := Multi.run
             (Multi.EvShow (replicate 30 "row") None
              :: replicate 6 MultiCommands.MoveDown) Multi.enable in
  let s' := Multi.step (Multi.EvKeyPress KEY_Page_Down 0) s in
  Multi.reachable s
  ∧ s.(Multi._selected_index) = 6 ∧ s.(Multi._scroll_start_index) = 0
  ∧ len s'.(Multi._visible_items) = 30
  ∧ s'.(Multi._selected_index) = 26 ∧ s'.(Multi._scroll_start_index) = 10
  ∧ viewport_ok 30 26 0
  ∧ viewport_ok 30 26 7 ∧ cursor_on_page 26 7
  ∧ ¬ minimal_adjustment s s'.
Proof.
  intros s s'.
  assert (Hno : ¬ has_buffered_start 30 26).
  { rewrite has_buffered_start_iff.
    unfold last_start, buffer, pageSize, Multi._items_per_page.
    change (20 / 4) with 5. lia. }
  assert (Hok : ∀ c, 0 ≤ c ≤ 10 → viewport_ok 30 26 c).
  { intros c Hc. split; [|by intros ?].
    unfold admissible_start, pageSize, Multi._items_per_page. lia. }
  split_and!; try reflexivity.
  - by eexists.
  - apply Hok. lia.
  - apply Hok. lia.
  - unfold cursor_on_page, pageSize, Multi._items_per_page. lia.
  - intros Hmin. specialize (Hmin 0 (Hok 0 ltac:(lia))).
    change (Z.abs (10 - 0) ≤ Z.abs (0 - 0)) in Hmin. lia.
Qed.

(** ** The selection set *)

Section multi_selection.
Import Multi MultiInv MultiCommands.

Lemma multi_selected_updateScrollWindow s :
  (_updateScrollWindow s).(_selected_items) = s.(_selected_items).
Proof. by destruct (updateScrollWindow_frame s) as [start ->]. Qed.

(** A toggle event toggles the item under the cursor. *)
Lemma multi_toggle_step ev s item :
  is_toggle ev → s.(on_stage) = true →
  array_get s.(_visible_items) s.(_selected_index) = Some item →
  (step ev s).(_selected_items) = (toggle_current item s).(_selected_items).
Proof.
  intros Hev Hon Hget.
  assert (0 ≤ s.(_selected_index) < len s.(_visible_items)) as [H0 Hlt].
  { unfold array_get, len in *. destruct (Z.ltb_spec s.(_selected_index) 0); [done|].
    apply lookup_lt_Some in Hget. lia. }
  assert (Hpos : 0 < len s.(_visible_items)) by lia.
  apply Z.ltb_lt in Hlt, Hpos.
  destruct Hev as [-> | [-> | ->]]; unfold step; simpl; rewrite Hon;
    unfold _onKeyPress, move_to; simpl; rewrite Hpos, Hlt, Hget; simpl;
    by rewrite multi_selected_updateScrollWindow.
Qed.

Lemma multi_toggle_member item s :
  item ∈ s.(_selected_items) →
  item ∉ (toggle_current item s).(_selected_items).
Proof.
  intros Hin. unfold toggle_current, JsSet.has.
  rewrite bool_decide_eq_true_2 by done. simpl. unfold JsSet.delete.
  rewrite list_elem_of_filter. by intros [? _].
Qed.

Lemma multi_toggle_not_member item s :
  item ∉ s.(_selected_items) →
  (toggle_current item s).(_selected_items) = s.(_selected_items) ++ [item].
Proof.
  intros Hin. unfold toggle_current, JsSet.has, JsSet.add, JsSet.has.
  by rewrite !bool_decide_eq_false_2 by done.
Qed.

End multi_selection.

(** C10. In the multi-select variant the selection set is keyed by the text
    of the line: a toggle on a line whose text is in the set removes that
    text, a toggle on a line whose text is not in the set appends it, the
    set of a reachable state has no repeated text, and no [ItemSelected]
    ever logged carries a text twice. Two candidates of equal text collide:
    toggling the first and then the second leaves the set empty. *)
Theorem selection_keyed_by_value :
  (∀ s ev item,
     Multi.reachable s → s.(Multi.on_stage) = true → MultiCommands.is_toggle ev →
     array_get s.(Multi._visible_items) s.(Multi._selected_index) = Some item →
     (item ∈ s.(Multi._selected_items) →
      item ∉ (Multi.step ev s).(Multi._selected_items))
     ∧ (item ∉ s.(Multi._selected_items) →
        (Multi.step ev s).(Multi._selected_items)
        = s.(Multi._selected_items) ++ [item]))
  ∧ (∀ s, Multi.reachable s →
          NoDup s.(Multi._selected_items)
          ∧ Forall MultiCommands.payload_distinct s.(Multi.log))
  ∧ (Multi.run [Multi.EvShow ["a"; "a"] None;
                MultiCommands.ToggleSelectAdvance;
                MultiCommands.ToggleSelectAdvance] Multi.enable)
      .(Multi._selected_items) = [].
Proof.
  split_and!; [| |done].
  - intros s ev item _ Hon Hev Hget.
    rewrite (multi_toggle_step ev s item Hev Hon Hget). split.
    + apply multi_toggle_member.
    + apply multi_toggle_not_member.
  - intros s Hreach. split.
    + by apply multi_reachable_inv.
    + by apply multi_reachable_payloads.
Qed.

Lemma selection_keyed_by_value_witness :
  let s := Multi.run [Multi.EvShow ["a"; "b"; "a"] None;
                      MultiCommands.ToggleSelectAdvance;
                      MultiCommands.MoveDown] Multi.enable in
  "a" ∉ (Multi.step MultiCommands.ToggleSelect s).(Multi._selected_items).
Proof.
  intros s.
  refine (proj1 (proj1 selection_keyed_by_value s MultiCommands.ToggleSelect
                   "a" _ _ _ _) _).
  - by eexists.
  - reflexivity.
  - right. by left.
  - reflexivity.
  - by apply (bool_decide_unpack _).
Defined.

(** ** Debounce *)

Section multi_debounce.
Import Multi MultiInv MultiCommands MultiSim.

Lemma multi_recompute_now_fields s :
  recompute_now s
  = set_scroll_start_index 0
      (set_visible_items (match_list s.(_items) s.(entry_text))
         (set_selected_index 0 s)).
Proof.
  unfold recompute_now, _updateResults. by rewrite updateScrollWindow_at_0.
Qed.

Lemma multi_sim_refl s :
  inv s → s.(_filter_timeout) = None → debounce_sim s s.
Proof.
  intros Hinv Hnone. unfold debounce_sim. rewrite Hnone.
  split_and!; try done. destruct Hinv as [_ _ Ht _ _].
  unfold timer_ok in Ht. by rewrite Hnone in Ht.
Qed.

Lemma multi_sim_step ev s si :
  debounce_sim s si → is_edit ev →
  debounce_sim (step ev s) (step_immediate ev si).
Proof.
  intros Hsim Hev.
  pose proof Hsim as (Hinv & Hsrc & Htimer & Hitems & Htext & Hsel & Hprompt
                      & Hon & Hexp & Hlog & Hview).
  pose proof (multi_inv_step ev s Hinv) as Hinv'.
  destruct ev as [|text| | |id|]; try done.
  - (* an edit of the entry text *)
    revert Hinv'. unfold step, step_immediate, dispatch, entry_set_text.
    rewrite <- Hon, <- Htext.
    destruct (on_stage s) eqn:Eon; [|done].
    destruct (String.eqb s.(entry_text) text); [done|].
    intros Hinv'. rewrite multi_recompute_now_fields.
    unfold debounce_sim. split; [done|]. unfold _onTextChanged.
    destruct (_filter_timeout (set_entry_text text s)); simpl;
      by rewrite Hitems, Eon.
  - (* the timer fires *)
    revert Hinv'. unfold step, step_immediate, dispatch.
    rewrite Hsrc. rewrite (bool_decide_eq_false_2 (id ∈ [])) by apply not_elem_of_nil.
    case_bool_decide as Hid; [|done].
    intros Hinv'. unfold debounce_sim. split; [done|].
    destruct Hinv as [_ _ Ht _ _]. unfold timer_ok in Ht.
    destruct (_filter_timeout s) as [id'|] eqn:E;
      [|rewrite Ht in Hid; by apply elem_of_nil in Hid].
    destruct Hview as (Hvis & Hidx & Hscroll).
    unfold filter_timeout_callback.
    change (_updateResults (set_selected_index 0 s)) with (recompute_now s).
    rewrite multi_recompute_now_fields. simpl.
    by rewrite Hvis, Hidx, Hscroll.
Qed.

Lemma multi_sim_run evs s si :
  debounce_sim s si → Forall is_edit evs →
  debounce_sim (run evs s) (run_immediate evs si).
Proof.
  intros Hsim Hevs. revert s si Hsim.
  induction Hevs as [|ev evs Hev _ IH]; intros s si Hsim; [done|].
  apply IH. by apply multi_sim_step.
Qed.

End multi_debounce.

Section multi_debounce_outcome.
Import Multi MultiInv MultiCommands MultiSim.

Lemma multi_log_commit s : (_onActivate s).(log) = s.(log) ++ commit_calls s.
Proof.
  unfold commit_calls.
  destruct (decide (s.(_selected_items) = [])) as [Hsel|Hsel].
  - rewrite Hsel.
    destruct (array_get s.(_visible_items) s.(_selected_index)) as [item|] eqn:E.
    + rewrite (multi_onActivate_cursor s item Hsel E), multi_log_hide. simpl.
      by rewrite <- app_assoc.
    + unfold _onActivate, JsSet.size. rewrite Hsel, E, app_nil_r. simpl.
      by destruct (_ && _).
  - rewrite (multi_onActivate_selection s Hsel), multi_log_hide. simpl.
    rewrite <- app_assoc. by destruct (_selected_items s).
Qed.

(** The signals after a commit or a cancel are those before, followed by
    what the event emits; this depends on the log, the stage, the selection
    set, the MatchList and the cursor only. *)
Lemma multi_final_signals ev s si :
  is_commit ev ∨ is_cancel ev →
  s.(log) = si.(log) → s.(on_stage) = si.(on_stage) →
  s.(_selected_items) = si.(_selected_items) →
  s.(_visible_items) = si.(_visible_items) →
  s.(_selected_index) = si.(_selected_index) →
  signals (step ev s) = signals (step_immediate ev si).
Proof.
  intros Hev Hlog Hon Hsel Hvis Hidx.
  assert (Himm : step_immediate ev si = step ev si)
    by (destruct Hev as [Hev|Hev]; by destruct ev).
  rewrite Himm. clear Himm.
  destruct (on_stage s) eqn:Eon.
  - symmetry in Hon. destruct Hev as [Hev|Hev].
    + rewrite !multi_commit_onActivate by done.
      rewrite (multi_signals_app s (commit_calls s) (_onActivate s))
        by apply multi_log_commit.
      rewrite (multi_signals_app si (commit_calls si) (_onActivate si))
        by apply multi_log_commit.
      unfold signals, commit_calls. by rewrite Hlog, Hsel, Hvis, Hidx.
    + destruct ev as [| |symbol modifiers| | |]; try done.
      destruct symbol; try done. unfold step, dispatch. rewrite Eon, Hon.
      change (_onKeyPress KEY_Escape modifiers ?x) with (hide (emitCancelled x)).
      unfold signals. rewrite !multi_log_hide. simpl. by rewrite Hlog.
  - assert (Hs : ∀ x, x.(on_stage) = false → step ev x = x).
    { intros x Hx. destruct Hev as [Hev|Hev]; destruct ev; try done;
        unfold step, dispatch; by rewrite Hx. }
    rewrite !Hs by congruence. unfold signals. by rewrite Hlog.
Qed.

Lemma multi_sim_settle s si :
  debounce_sim s si →
  debounce_sim (settle s) si ∧ (settle s).(_filter_timeout) = None.
Proof.
  intros Hsim. unfold settle.
  destruct (_filter_timeout s) as [id|] eqn:E; [|done].
  pose proof (multi_sim_step (EvTimeout id) s si Hsim I) as Hstep.
  pose proof Hsim as (Hinv & Hsrc & _).
  assert (Hsi : step_immediate (EvTimeout id) si = si).
  { unfold step_immediate, dispatch. rewrite Hsrc.
    by rewrite bool_decide_eq_false_2 by apply not_elem_of_nil. }
  rewrite Hsi in Hstep. split; [done|].
  destruct Hinv as [_ _ Ht _ _]. unfold timer_ok in Ht. rewrite E in Ht.
  unfold step, dispatch. rewrite Ht.
  by rewrite bool_decide_eq_true_2 by apply list_elem_of_here.
Qed.

Lemma multi_debounce_settled evs ev s :
  reachable s → s.(_filter_timeout) = None → Forall is_edit evs →
  is_commit ev ∨ is_cancel ev →
  signals (step ev (settle (run evs s)))
  = signals (step_immediate ev (run_immediate evs s)).
Proof.
  intros Hreach%multi_reachable_inv Hnone Hevs Hev.
  pose proof (multi_sim_run evs s s (multi_sim_refl s Hreach Hnone) Hevs) as Hsim.
  apply multi_sim_settle in Hsim as [Hsim Hsettled].
  destruct Hsim as (_ & _ & _ & _ & _ & Hsel & _ & Hon & _ & Hlog & Hview).
  rewrite Hsettled in Hview. destruct Hview as (Hvis & Hidx & _).
  by apply multi_final_signals.
Qed.

Lemma multi_debounce_cancel evs ev s :
  reachable s → s.(_filter_timeout) = None → Forall is_edit evs →
  is_cancel ev →
  signals (step ev (run evs s))
  = signals (step_immediate ev (run_immediate evs s)).
Proof.
  intros Hreach%multi_reachable_inv Hnone Hevs Hev.
  pose proof (multi_sim_run evs s s (multi_sim_refl s Hreach Hnone) Hevs) as Hsim.
  destruct Hsim as (_ & _ & _ & _ & _ & _ & _ & Hon & _ & Hlog & _).
  destruct ev as [| |symbol modifiers| | |]; try done.
  destruct symbol; try done. unfold step, step_immediate, dispatch. rewrite <- Hon.
  destruct (on_stage (run evs s)); [|unfold signals; by rewrite Hlog].
  change (_onKeyPress KEY_Escape modifiers ?x) with (hide (emitCancelled x)).
  unfold signals. rewrite !multi_log_hide. simpl. by rewrite Hlog.
Qed.

End multi_debounce_outcome.

Section single_debounce.
Import Single SingleInv SingleCommands SingleSim.

Lemma single_sim_refl s :
  inv s → s.(_filter_timeout) = None → debounce_sim s s.
Proof.
  intros Hinv Hnone. unfold debounce_sim. rewrite Hnone.
  split_and!; try done. destruct Hinv as [_ Ht _].
  unfold timer_ok in Ht. by rewrite Hnone in Ht.
Qed.

Lemma single_sim_step ev s si :
  debounce_sim s si → is_edit ev →
  debounce_sim (step ev s) (step_immediate ev si).
Proof.
  intros Hsim Hev.
  pose proof Hsim as (Hinv & Hsrc & Htimer & Hitems & Htext & Hprompt
                      & Hon & Hexp & Hlog & Hview).
  pose proof (single_inv_step ev s Hinv) as Hinv'.
  destruct ev as [|text| | |id|]; try done.
  - revert Hinv'. unfold step, step_immediate, dispatch, entry_set_text.
    rewrite <- Hon, <- Htext.
    destruct (on_stage s) eqn:Eon; [|done].
    destruct (String.eqb s.(entry_text) text); [done|].
    intros Hinv'. unfold debounce_sim. split; [done|].
    unfold _onTextChanged, recompute_now, _updateResults, match_list.
    destruct (_filter_timeout (set_entry_text text s)); simpl;
      by rewrite Hitems, Eon.
  - revert Hinv'. unfold step, step_immediate, dispatch.
    rewrite Hsrc. rewrite (bool_decide_eq_false_2 (id ∈ [])) by apply not_elem_of_nil.
    case_bool_decide as Hid; [|done].
    intros Hinv'. unfold debounce_sim. split; [done|].
    destruct Hinv as [_ Ht _]. unfold timer_ok in Ht.
    destruct (_filter_timeout s) as [id'|] eqn:E;
      [|rewrite Ht in Hid; by apply elem_of_nil in Hid].
    destruct Hview as (Hvis & Hidx).
    unfold filter_timeout_callback, _updateResults. simpl.
    by rewrite Hvis, Hidx.
Qed.

Lemma single_sim_run evs s si :
  debounce_sim s si → Forall is_edit evs →
  debounce_sim (run evs s) (run_immediate evs si).
Proof.
  intros Hsim Hevs. revert s si Hsim.
  induction Hevs as [|ev evs Hev _ IH]; intros s si Hsim; [done|].
  apply IH. by apply single_sim_step.
Qed.

Lemma single_signals_app s calls s' :
  s'.(log) = s.(log) ++ calls →
  signals s' = signals s ++ List.filter is_signal calls.
Proof. unfold signals. intros ->. apply List.filter_app. Qed.

Lemma single_log_commit s : (_onActivate s).(log) = s.(log) ++ commit_calls s.
Proof.
  unfold commit_calls.
  destruct (array_get s.(_visible_items) s.(_selected_index)) as [item|] eqn:E.
  - rewrite (single_onActivate_cursor s item E), single_log_hide. simpl.
    by rewrite <- app_assoc.
  - unfold _onActivate. rewrite E, app_nil_r. by destruct (_ && _).
Qed.

Lemma single_final_signals ev s si :
  is_commit ev ∨ is_cancel ev →
  s.(log) = si.(log) → s.(on_stage) = si.(on_stage) →
  s.(_visible_items) = si.(_visible_items) →
  s.(_selected_index) = si.(_selected_index) →
  signals (step ev s) = signals (step_immediate ev si).
Proof.
  intros Hev Hlog Hon Hvis Hidx.
  assert (Himm : step_immediate ev si = step ev si)
    by (destruct Hev as [Hev|Hev]; by destruct ev).
  rewrite Himm. clear Himm.
  destruct (on_stage s) eqn:Eon.
  - symmetry in Hon. destruct Hev as [Hev|Hev].
    + rewrite !single_commit_onActivate by done.
      rewrite (single_signals_app s (commit_calls s) (_onActivate s))
        by apply single_log_commit.
      rewrite (single_signals_app si (commit_calls si) (_onActivate si))
        by apply single_log_commit.
      unfold signals, commit_calls. by rewrite Hlog, Hvis, Hidx.
    + destruct ev as [| |symbol modifiers| | |]; try done.
      destruct symbol; try done. unfold step, dispatch. rewrite Eon, Hon.
      change (_onKeyPress KEY_Escape modifiers ?x) with (hide (emitCancelled x)).
      unfold signals. rewrite !single_log_hide. simpl. by rewrite Hlog.
  - assert (Hs : ∀ x, x.(on_stage) = false → step ev x = x).
    { intros x Hx. destruct Hev as [Hev|Hev]; destruct ev; try done;
        unfold step, dispatch; by rewrite Hx. }
    rewrite !Hs by congruence. unfold signals. by rewrite Hlog.
Qed.

Lemma single_sim_settle s si :
  debounce_sim s si →
  debounce_sim (settle s) si ∧ (settle s).(_filter_timeout) = None.
Proof.
  intros Hsim. unfold settle.
  destruct (_filter_timeout s) as [id|] eqn:E; [|done].
  pose proof (single_sim_step (EvTimeout id) s si Hsim I) as Hstep.
  pose proof Hsim as (Hinv & Hsrc & _).
  assert (Hsi : step_immediate (EvTimeout id) si = si).
  { unfold step_immediate, dispatch. rewrite Hsrc.
    by rewrite bool_decide_eq_false_2 by apply not_elem_of_nil. }
  rewrite Hsi in Hstep. split; [done|].
  destruct Hinv as [_ Ht _]. unfold timer_ok in Ht. rewrite E in Ht.
  unfold step, dispatch. rewrite Ht.
  by rewrite bool_decide_eq_true_2 by apply list_elem_of_here.
Qed.

Lemma single_debounce_settled evs ev s :
  reachable s → s.(_filter_timeout) = None → Forall is_edit evs →
  is_commit ev ∨ is_cancel ev →
  signals (step ev (settle (run evs s)))
  = signals (step_immediate ev (run_immediate evs s)).
Proof.
  intros Hreach%single_reachable_inv Hnone Hevs Hev.
  pose proof (single_sim_run evs s s (single_sim_refl s Hreach Hnone) Hevs) as Hsim.
  apply single_sim_settle in Hsim as [Hsim Hsettled].
  destruct Hsim as (_ & _ & _ & _ & _ & _ & Hon & _ & Hlog & Hview).
  rewrite Hsettled in Hview. destruct Hview as (Hvis & Hidx).
  by apply single_final_signals.
Qed.

Lemma single_debounce_cancel evs ev s :
  reachable s → s.(_filter_timeout) = None → Forall is_edit evs →
  is_cancel ev →
  signals (step ev (run evs s))
  = signals (step_immediate ev (run_immediate evs s)).
Proof.
  intros Hreach%single_reachable_inv Hnone Hevs Hev.
  pose proof (single_sim_run evs s s (single_sim_refl s Hreach Hnone) Hevs) as Hsim.
  destruct Hsim as (_ & _ & _ & _ & _ & _ & Hon & _ & Hlog & _).
  destruct ev as [| |symbol modifiers| | |]; try done.
  destruct symbol; try done. unfold step, step_immediate, dispatch. rewrite <- Hon.
  destruct (on_stage (run evs s)); [|unfold signals; by rewrite Hlog].
  change (_onKeyPress KEY_Escape modifiers ?x) with (hide (emitCancelled x)).
  unfold signals. rewrite !single_log_hide. simpl. by rewrite Hlog.
Qed.

End single_debounce.

(** C4, as the code has it. Take a reachable state with no timer pending and
    let the user edit the query, the debounce timer firing or not in
    between. If the timer still pending at the end has fired before Commit
    or Cancel, the signals emitted are those of the reference that
    recomputes at once on each edit; for Cancel this holds also while a
    timer is pending. A Commit on the stage is never held back: it makes
    its calls at once, from the state as it is. Both variants. *)
Theorem debounce_preserves_outcome :
  (∀ evs ev s,
     Multi.reachable s → s.(Multi._filter_timeout) = None →
     Forall MultiCommands.is_edit evs →
     MultiCommands.is_commit ev ∨ MultiCommands.is_cancel ev →
     Multi.signals (Multi.step ev (Multi.settle (Multi.run evs s)))
     = Multi.signals (Multi.step_immediate ev (Multi.run_immediate evs s)))
  ∧ (∀ evs ev s,
       Multi.reachable s → s.(Multi._filter_timeout) = None →
       Forall MultiCommands.is_edit evs → MultiCommands.is_cancel ev →
       Multi.signals (Multi.step ev (Multi.run evs s))
       = Multi.signals (Multi.step_immediate ev (Multi.run_immediate evs s)))
  ∧ (∀ ev s,
       s.(Multi.on_stage) = true → MultiCommands.is_commit ev →
       (Multi.step ev s).(Multi.log)
       = s.(Multi.log) ++ MultiCommands.commit_calls s)
  ∧ (∀ evs ev s,
       Single.reachable s → s.(Single._filter_timeout) = None →
       Forall SingleCommands.is_edit evs →
       SingleCommands.is_commit ev ∨ SingleCommands.is_cancel ev →
       Single.signals (Single.step ev (Single.settle (Single.run evs s)))
       = Single.signals (Single.step_immediate ev (Single.run_immediate evs s)))
  ∧ (∀ evs ev s,
       Single.reachable s → s.(Single._filter_timeout) = None →
       Forall SingleCommands.is_edit evs → SingleCommands.is_cancel ev →
       Single.signals (Single.step ev (Single.run evs s))
       = Single.signals (Single.step_immediate ev (Single.run_immediate evs s)))
  ∧ (∀ ev s,
       s.(Single.on_stage) = true → SingleCommands.is_commit ev →
       (Single.step ev s).(Single.log)
       = s.(Single.log) ++ SingleCommands.commit_calls s).
Proof.
  split_and!.
  - apply multi_debounce_settled.
  - apply multi_debounce_cancel.
  - intros ev s Hon Hev. rewrite multi_commit_onActivate by done.
    apply multi_log_commit.
  - apply single_debounce_settled.
  - apply single_debounce_cancel.
  - intros ev s Hon Hev. rewrite single_commit_onActivate by done.
    apply single_log_commit.
Qed.

(** Typing "b", then "ba", then "ban" over apple and banana, the timer
    firing once in between and once at the end: Commit emits banana, as the
    reference does. *)
Lemma debounce_preserves_outcome_witness :
  let s := Multi.run [Multi.EvShow ["apple"; "banana"] None] Multi.enable in
  let evs := [Multi.EvTextEdited "b"; Multi.EvTimeout 1;
              Multi.EvTextEdited "ba"; Multi.EvTextEdited "ban"] in
  Multi.signals (Multi.step Multi.EvActivate (Multi.settle (Multi.run evs s)))
  = Multi.signals (Multi.step_immediate Multi.EvActivate (Multi.run_immediate evs s)).
Proof.
  intros s evs.
  apply (proj1 debounce_preserves_outcome evs Multi.EvActivate s).
  - by eexists.
  - reflexivity.
  - by repeat constructor.
  - by left.
Defined.

(** C4 as stated fails: over apple and banana, "ban" typed and Commit issued
    before the timer fires emits apple, from the MatchList of the empty
    query, where the reference emits banana. *)
Lemma debounce_commit_stale :
  let s := Multi.run [Multi.EvShow ["apple"; "banana"] None] Multi.enable in
  let evs := [Multi.EvTextEdited "ban"] in
  Multi.signals (Multi.step Multi.EvActivate (Multi.run evs s))
  = [Multi.EmitItemSelected ["apple"]]
  ∧ Multi.signals (Multi.step_immediate Multi.EvActivate (Multi.run_immediate evs s))
    = [Multi.EmitItemSelected ["banana"]]
  ∧ Multi.signals (Multi.step Multi.EvActivate (Multi.run evs s))
    ≠ Multi.signals (Multi.step_immediate Multi.EvActivate
                       (Multi.run_immediate evs s)).
Proof. by split_and!. Qed.

(** ** Disable *)

Section multi_disable.
Import Multi MultiInv MultiCommands.

Lemma multi_disable s :
  inv s → s.(exported) = true →
  let s' := step EvDisable s in
  s'.(log) = s.(log) ++ [Unexport; RemoveChild]
  ∧ signals s' = signals s ∧ idle s' ∧ s'.(exported) = false.
Proof.
  intros Hinv Hexp. simpl. unfold step, dispatch. rewrite Hexp. unfold disable.
  assert (Hlog : (hide (emit Unexport (set_exported false s))).(log)
                 = s.(log) ++ [Unexport; RemoveChild]).
  { rewrite multi_log_hide. simpl. by rewrite <- app_assoc. }
  split_and!.
  - done.
  - rewrite (multi_signals_app s _ _ Hlog). simpl. apply app_nil_r.
  - apply multi_hide_idle, multi_inv_emit. revert Hinv. by multi_inv_intro.
  - unfold hide. by destruct (_filter_timeout _).
Qed.

End multi_disable.

Section single_disable.
Import Single SingleInv SingleCommands.

Lemma single_disable s :
  inv s → s.(exported) = true →
  let s' := step EvDisable s in
  s'.(log) = s.(log) ++ [Unexport; RemoveChild]
  ∧ signals s' = signals s ∧ idle s' ∧ s'.(exported) = false.
Proof.
  intros Hinv Hexp. simpl. unfold step, dispatch. rewrite Hexp. unfold disable.
  assert (Hlog : (hide (emit Unexport (set_exported false s))).(log)
                 = s.(log) ++ [Unexport; RemoveChild]).
  { rewrite single_log_hide. simpl. by rewrite <- app_assoc. }
  split_and!.
  - done.
  - rewrite (single_signals_app s _ _ Hlog). simpl. apply app_nil_r.
  - apply single_hide_idle, single_inv_emit. revert Hinv. by single_inv_intro.
  - unfold hide. by destruct (_filter_timeout _).
Qed.

End single_disable.

(** C9, as the code has it. Disabling the extension from a reachable state
    whose service is exported makes two calls, in this order: the service
    is unexported, then the actor is removed from the stage. No signal is
    emitted, neither [Cancelled] nor [ItemSelected]; afterwards no timeout
    source is live and the service is no longer exported. Both variants. *)
Theorem disable_tears_down :
  (∀ s,
     Multi.reachable s → s.(Multi.exported) = true →
     let s' := Multi.step Multi.EvDisable s in
     s'.(Multi.log) = s.(Multi.log) ++ [Multi.Unexport; Multi.RemoveChild]
     ∧ Multi.signals s' = Multi.signals s
     ∧ MultiInv.idle s' ∧ s'.(Multi.exported) = false)
  ∧ (∀ s,
       Single.reachable s → s.(Single.exported) = true →
       let s' := Single.step Single.EvDisable s in
       s'.(Single.log) = s.(Single.log) ++ [Single.Unexport; Single.RemoveChild]
       ∧ Single.signals s' = Single.signals s
       ∧ SingleInv.idle s' ∧ s'.(Single.exported) = false).
Proof.
  split.
  - intros s Hreach%multi_reachable_inv. by apply multi_disable.
  - intros s Hreach%single_reachable_inv. by apply single_disable.
Qed.

Lemma disable_tears_down_witness :
  let s := Multi.run [Multi.EvShow ["apple"; "banana"] None;
                      Multi.EvTextEdited "b"] Multi.enable in
  let s' := Multi.step Multi.EvDisable s in
  s'.(Multi.log) = s.(Multi.log) ++ [Multi.Unexport; Multi.RemoveChild]
  ∧ Multi.signals s' = Multi.signals s
  ∧ MultiInv.idle s' ∧ s'.(Multi.exported) = false.
Proof.
  intros s. apply (proj1 disable_tears_down s); [by eexists | reflexivity].
Defined.

(** C9 as stated fails: disabling while a prompt is on the stage emits no
    [Cancelled], in either variant. *)
Lemma disable_emits_no_cancelled :
  (let s := Single.run [Single.EvShow ["apple"; "banana"] None] Single.enable in
   s.(Single.on_stage) = true
   ∧ Single.EmitCancelled ∉ (Single.step Single.EvDisable s).(Single.log))
  ∧ (let s := Multi.run [Multi.EvShow ["apple"; "banana"] None] Multi.enable in
     s.(Multi.on_stage) = true
     ∧ Multi.EmitCancelled ∉ (Multi.step Multi.EvDisable s).(Multi.log)).
Proof.
  split; (split; [reflexivity|]); intros Hin; simpl in Hin;
    repeat (apply elem_of_cons in Hin as [Hin|Hin]; [discriminate|]);
    by apply elem_of_nil in Hin.
Qed.

(** ** The scenarios of the specification *)

Example scenario_tokens :
  query_tokens "an a" = ["an"; "a"] ∧ query_tokens "  An   A " = ["an"; "a"]
  ∧ query_tokens "   " = [].
Proof. by split_and!. Qed.

Example scenario_filter :
  Multi.match_list ["apple"; "banana"; "grape"] "an a" = ["banana"]
  ∧ Single.match_list ["apple"; "banana"; "grape"] "an a" = ["banana"]
  ∧ Multi.match_list [] "an a" = [].
Proof. by split_and!. Qed.

Example scenario_single_commit :
  Single.signals
    (Single.run [Single.EvShow ["x"; "y"; "z"] None;
                 SingleCommands.MoveDown; SingleCommands.MoveDown;
                 Single.EvKeyPress KEY_Return 0] Single.enable)
  = [Single.EmitItemSelected "z"].
Proof. reflexivity. Qed.

Example scenario_multi_commit :
  Multi.signals
    (Multi.run [Multi.EvShow ["x"; "y"; "z"] None;
                MultiCommands.ToggleSelectAdvance;
                MultiCommands.ToggleSelectAdvance;
                Multi.EvKeyPress KEY_Return 0] Multi.enable)
  = [Multi.EmitItemSelected ["x"; "y"]].
Proof. reflexivity. Qed.

Example scenario_show_twice :
  let s := Multi.run [Multi.EvShow ["apple"; "banana"; "grape"] None;
                      MultiCommands.MoveDown; MultiCommands.MoveDown;
                      Multi.EvShow ["kiwi"] (Some "fruit")] Multi.enable in
  s.(Multi._items) = ["kiwi"] ∧ s.(Multi._visible_items) = ["kiwi"]
  ∧ s.(Multi._selected_index) = 0 ∧ s.(Multi.prompt_label) = "fruit ".
Proof. by split_and!. Qed.

(** The rows rendered after one toggle: the bullet marks the toggled line,
    the highlight the line under the cursor. *)
Example scenario_rows :
  Multi._renderVisibleItems
    (Multi.run [Multi.EvShow ["x"; "y"; "z"] None;
                MultiCommands.ToggleSelectAdvance] Multi.enable)
  = [ {| Multi.row_text := "x"; Multi.row_bullet := true;
         Multi.row_highlight := false |};
      {| Multi.row_text := "y"; Multi.row_bullet := false;
         Multi.row_highlight := true |};
      {| Multi.row_text := "z"; Multi.row_bullet := false;
         Multi.row_highlight := false |} ].
Proof. reflexivity. Qed.

(** * Further properties of the code *)

(** ** What the state holds *)

Section multi_data.
Import Multi MultiInv MultiCommands MultiData.

Lemma multi_match_list_sublist items query :
  match_list items query `sublist_of` items.
Proof. rewrite multi_match_list_filter. apply sublist_filter. Qed.

Lemma array_get_elem_of {A} (l : list A) (i : Z) (x : A) :
  array_get l i = Some x → x ∈ l ∧ 0 ≤ i < len l.
Proof.
  unfold array_get, len. destruct (Z.ltb_spec i 0); [done|]. intros Hget.
  split; [by eapply list_elem_of_lookup_2|].
  apply lookup_lt_Some in Hget. lia.
Qed.

Lemma multi_hide_frame s :
  (hide s).(_items) = s.(_items)
  ∧ (hide s).(_visible_items) = s.(_visible_items)
  ∧ (hide s).(entry_text) = s.(entry_text)
  ∧ (hide s).(_selected_items) = s.(_selected_items)
  ∧ (hide s).(_selected_index) = s.(_selected_index)
  ∧ (hide s).(on_stage) = false.
Proof. unfold hide. by destruct (_filter_timeout s). Qed.

(** What [_onActivate] and [_onKeyPress] leave alone: the candidates, the
    MatchList and the entry text; the selection set gains lines of the
    MatchList only; and either the actor leaves the stage or the stage and
    the timer are as before. *)
Lemma multi_onActivate_frame s :
  let s' := _onActivate s in
  s'.(_items) = s.(_items) ∧ s'.(_visible_items) = s.(_visible_items)
  ∧ s'.(entry_text) = s.(entry_text)
  ∧ s'.(_selected_items) = s.(_selected_items)
  ∧ (s'.(on_stage) = false
     ∨ s'.(on_stage) = s.(on_stage) ∧ s'.(_filter_timeout) = s.(_filter_timeout)).
Proof.
  simpl. unfold _onActivate.
  repeat case_match; try (split_and!; auto; fail).
  all: match goal with |- context [hide ?t] =>
         destruct (multi_hide_frame t) as (-> & -> & -> & -> & _ & ->) end.
  all: split_and!; auto.
Qed.

Lemma multi_onKeyPress_frame symbol modifiers s :
  let s' := _onKeyPress symbol modifiers s in
  s'.(_items) = s.(_items) ∧ s'.(_visible_items) = s.(_visible_items)
  ∧ s'.(entry_text) = s.(entry_text)
  ∧ (∀ item, item ∈ s'.(_selected_items) →
             item ∈ s.(_selected_items) ∨ item ∈ s.(_visible_items))
  ∧ (s'.(on_stage) = false
     ∨ s'.(on_stage) = s.(on_stage) ∧ s'.(_filter_timeout) = s.(_filter_timeout)).
Proof.
  simpl. unfold _onKeyPress, move_to.
  destruct (bool_decide (symbol = KEY_Escape)).
  { destruct (multi_hide_frame (emitCancelled s)) as (-> & -> & -> & -> & _ & ->).
    split_and!; auto. }
  repeat match goal with
  | |- context [if ?b then _ else _] => destruct b
  | |- context [match ?o with Some _ => _ | None => _ end] =>
      let E := fresh "Hget" in destruct o eqn:E
  end.
  all: try (destruct (multi_onActivate_frame s) as (-> & -> & -> & -> & ?);
            split_and!; auto; fail).
  all: repeat match goal with |- context [_updateScrollWindow ?t] =>
         destruct (updateScrollWindow_frame t) as [? ->] end.
  all: simpl.
  all: try (split_and!; auto; fail).
  all: apply array_get_elem_of in Hget as [Hin _].
  all: unfold toggle_current, JsSet.add, JsSet.delete, JsSet.has.
  all: case_bool_decide; simpl.
  all: split_and!; auto.
  all: intros item.
  all: rewrite ?list_elem_of_filter, ?elem_of_app, ?list_elem_of_singleton.
  all: intuition (subst; auto).
Qed.

Lemma multi_onTextChanged_frame s :
  let s' := _onTextChanged s in
  s'.(_items) = s.(_items) ∧ s'.(_visible_items) = s.(_visible_items)
  ∧ s'.(entry_text) = s.(entry_text)
  ∧ s'.(_selected_items) = s.(_selected_items)
  ∧ s'.(on_stage) = s.(on_stage) ∧ is_Some s'.(_filter_timeout).
Proof. simpl. unfold _onTextChanged. by destruct (_filter_timeout s). Qed.

Lemma multi_data_enable : data_ok enable.
Proof. split_and!; [done | | done]. intros item Hin. by apply elem_of_nil in Hin. Qed.

Lemma multi_data_step ev s : data_ok s → data_ok (step ev s).
Proof.
  intros Hdata. pose proof Hdata as (Hvis & Hsel & Hfresh).
  destruct ev as [items prompt|text|symbol modifiers| |id|];
    unfold step, dispatch.
  - destruct (exported s); [|done].
    destruct (multi_show_state items (prompt_or_default prompt) s)
      as (Hi & Ht & _ & Hs & _ & Hv & _).
    unfold data_ok. rewrite Hi, Ht, Hs, Hv. split_and!.
    + reflexivity.
    + intros item Hin. by apply elem_of_nil in Hin.
    + intros _ _. by rewrite multi_match_list_no_token.
  - destruct (on_stage s) eqn:Hon; [|done]. unfold entry_set_text.
    destruct (String.eqb s.(entry_text) text); [done|].
    destruct (multi_onTextChanged_frame (set_entry_text text s))
      as (Hi & Hv & Ht & Hs & Ho & [id Hid]).
    unfold data_ok. rewrite Hi, Hv, Hs, Hid. split_and!; try done.
  - destruct (on_stage s) eqn:Hon; [|done].
    destruct (multi_onKeyPress_frame symbol modifiers s)
      as (Hi & Hv & Ht & Hs & Ho).
    unfold data_ok. rewrite Hi, Hv, Ht. split_and!; [done | |].
    + intros item [Hin|Hin]%Hs; [by apply Hsel|].
      by eapply elem_of_sublist.
    + intros Hon'. destruct Ho as [Ho|[_ Ho]]; [congruence|]. rewrite Ho.
      by apply Hfresh.
  - destruct (on_stage s) eqn:Hon; [|done].
    destruct (multi_onActivate_frame s) as (Hi & Hv & Ht & Hs & Ho).
    unfold data_ok. rewrite Hi, Hv, Ht, Hs. split_and!; [done | done |].
    intros Hon'. destruct Ho as [Ho|[_ Ho]]; [congruence|]. rewrite Ho.
    by apply Hfresh.
  - case_bool_decide; [|done]. unfold filter_timeout_callback.
    change (_updateResults (set_selected_index 0 s)) with (recompute_now s).
    rewrite multi_recompute_now_fields. unfold data_ok. simpl.
    split_and!; [apply multi_match_list_sublist | done | done].
  - destruct (exported s); [|done]. unfold disable.
    destruct (multi_hide_frame (emit Unexport (set_exported false s)))
      as (Hi & Hv & Ht & Hs & _ & Ho).
    unfold data_ok. rewrite Hi, Hv, Hs, Ho. split_and!; done.
Qed.

Lemma multi_reachable_data s : reachable s → data_ok s.
Proof.
  intros [evs <-]. unfold run. induction evs as [|ev evs IH] using rev_ind.
  - apply multi_data_enable.
  - rewrite fold_left_app. simpl. by apply multi_data_step.
Qed.

End multi_data.

Section single_data.
Import Single SingleInv SingleCommands SingleData.

Lemma single_match_list_sublist items query :
  match_list items query `sublist_of` items.
Proof.
  rewrite single_match_list_take. etrans; [apply sublist_take|].
  rewrite multi_match_list_filter. apply sublist_filter.
Qed.

Lemma single_match_list_length items query :
  (length (match_list items query) ≤ MAX_RESULTS)%nat.
Proof. rewrite single_match_list_take, length_take. lia. Qed.

Lemma single_hide_frame s :
  (hide s).(_items) = s.(_items)
  ∧ (hide s).(_visible_items) = s.(_visible_items)
  ∧ (hide s).(entry_text) = s.(entry_text)
  ∧ (hide s).(_selected_index) = s.(_selected_index)
  ∧ (hide s).(on_stage) = false.
Proof. unfold hide. by destruct (_filter_timeout s). Qed.

Lemma single_onActivate_frame s :
  let s' := _onActivate s in
  s'.(_items) = s.(_items) ∧ s'.(_visible_items) = s.(_visible_items)
  ∧ s'.(entry_text) = s.(entry_text)
  ∧ (s'.(on_stage) = false
     ∨ s'.(on_stage) = s.(on_stage) ∧ s'.(_filter_timeout) = s.(_filter_timeout)).
Proof.
  simpl. unfold _onActivate.
  repeat case_match; try (split_and!; auto; fail).
  all: match goal with |- context [hide ?t] =>
         destruct (single_hide_frame t) as (-> & -> & -> & _ & ->) end.
  all: split_and!; auto.
Qed.

Lemma single_onKeyPress_frame symbol modifiers s :
  let s' := _onKeyPress symbol modifiers s in
  s'.(_items) = s.(_items) ∧ s'.(_visible_items) = s.(_visible_items)
  ∧ s'.(entry_text) = s.(entry_text)
  ∧ (s'.(on_stage) = false
     ∨ s'.(on_stage) = s.(on_stage) ∧ s'.(_filter_timeout) = s.(_filter_timeout)).
Proof.
  simpl. unfold _onKeyPress.
  destruct (bool_decide (symbol = KEY_Escape)).
  { destruct (single_hide_frame (emitCancelled s)) as (-> & -> & -> & _ & ->).
    split_and!; auto. }
  repeat match goal with
  | |- context [if ?b then _ else _] => destruct b
  end.
  all: try (destruct (single_onActivate_frame s) as (-> & -> & -> & ?);
            split_and!; auto; fail).
  all: simpl; split_and!; auto.
Qed.

Lemma single_onTextChanged_frame s :
  let s' := _onTextChanged s in
  s'.(_items) = s.(_items) ∧ s'.(_visible_items) = s.(_visible_items)
  ∧ s'.(entry_text) = s.(entry_text)
  ∧ s'.(on_stage) = s.(on_stage) ∧ is_Some s'.(_filter_timeout).
Proof. simpl. unfold _onTextChanged. by destruct (_filter_timeout s). Qed.

Lemma single_entry_set_text_fields text s :
  let s' := entry_set_text _onTextChanged text s in
  s'.(entry_text) = text ∧ s'.(_items) = s.(_items)
  ∧ s'.(prompt_label) = s.(prompt_label).
Proof.
  simpl. unfold entry_set_text, _onTextChanged.
  destruct (String.eqb_spec s.(entry_text) text); [done|].
  by destruct (_filter_timeout _).
Qed.

(** The fields [show] leaves. *)
Lemma single_show_state items prompt s :
  let s' := show _onTextChanged items prompt s in
  s'.(_items) = items ∧ s'.(entry_text) = "" ∧ s'.(_selected_index) = 0
  ∧ s'.(_visible_items) = match_list items "" ∧ s'.(on_stage) = true
  ∧ s'.(prompt_label) = prompt +:+ " ".
Proof.
  simpl. unfold show, _updateResults, match_list. simpl.
  match goal with |- context [entry_set_text _ "" ?t] =>
    destruct (single_entry_set_text_fields "" t) as (-> & -> & ->) end.
  done.
Qed.

Lemma single_data_enable : data_ok enable.
Proof. split_and!; [done | simpl; unfold MAX_RESULTS; lia | done]. Qed.

Lemma single_data_step ev s : data_ok s → data_ok (step ev s).
Proof.
  intros Hdata. pose proof Hdata as (Hvis & Hlen & Hfresh).
  destruct ev as [items prompt|text|symbol modifiers| |id|];
    unfold step, dispatch.
  - destruct (exported s); [|done].
    destruct (single_show_state items (prompt_or_default prompt) s)
      as (Hi & Ht & _ & Hv & _).
    unfold data_ok. rewrite Hi, Ht, Hv. split_and!.
    + apply single_match_list_sublist.
    + apply single_match_list_length.
    + done.
  - destruct (on_stage s) eqn:Hon; [|done]. unfold entry_set_text.
    destruct (String.eqb s.(entry_text) text); [done|].
    destruct (single_onTextChanged_frame (set_entry_text text s))
      as (Hi & Hv & Ht & Ho & [id Hid]).
    unfold data_ok. rewrite Hi, Hv, Hid. split_and!; try done.
  - destruct (on_stage s) eqn:Hon; [|done].
    destruct (single_onKeyPress_frame symbol modifiers s) as (Hi & Hv & Ht & Ho).
    unfold data_ok. rewrite Hi, Hv, Ht. split_and!; [done | done |].
    intros Hon'. destruct Ho as [Ho|[_ Ho]]; [congruence|]. rewrite Ho.
    by apply Hfresh.
  - destruct (on_stage s) eqn:Hon; [|done].
    destruct (single_onActivate_frame s) as (Hi & Hv & Ht & Ho).
    unfold data_ok. rewrite Hi, Hv, Ht. split_and!; [done | done |].
    intros Hon'. destruct Ho as [Ho|[_ Ho]]; [congruence|]. rewrite Ho.
    by apply Hfresh.
  - case_bool_decide; [|done]. unfold filter_timeout_callback, _updateResults.
    unfold data_ok. simpl.
    split_and!; [apply single_match_list_sublist
                | apply single_match_list_length | done].
  - destruct (exported s); [|done]. unfold disable.
    destruct (single_hide_frame (emit Unexport (set_exported false s)))
      as (Hi & Hv & Ht & _ & Ho).
    unfold data_ok. rewrite Hi, Hv, Ho. split_and!; done.
Qed.

Lemma single_reachable_data s : reachable s → data_ok s.
Proof.
  intros [evs <-]. unfold run. induction evs as [|ev evs IH] using rev_ind.
  - apply single_data_enable.
  - rewrite fold_left_app. simpl. by apply single_data_step.
Qed.

End single_data.

(** ** Invariants of every reachable state *)

(** X1. In every reachable state of either variant the cursor is an index
    of the MatchList, or is 0 when the MatchList is empty: no key, no
    recomputation and no [Show] takes it out of range. *)
Theorem cursor_always_valid :
  (∀ s, Multi.reachable s →
        (s.(Multi._visible_items) = [] ∧ s.(Multi._selected_index) = 0)
        ∨ 0 ≤ s.(Multi._selected_index) < len s.(Multi._visible_items))
  ∧ (∀ s, Single.reachable s →
          (s.(Single._visible_items) = [] ∧ s.(Single._selected_index) = 0)
          ∨ 0 ≤ s.(Single._selected_index) < len s.(Single._visible_items)).
Proof.
  split.
  - intros s Hreach%multi_reachable_inv. apply Hreach.
  - intros s Hreach%single_reachable_inv. apply Hreach.
Qed.

Lemma cursor_always_valid_witness :
  let s := Multi.run [Multi.EvShow (replicate 30 "row") None;
                      Multi.EvKeyPress KEY_Page_Down 0;
                      Multi.EvKeyPress KEY_Page_Down 0;
                      Multi.EvKeyPress KEY_End 0;
                      Multi.EvTextEdited "zzz"; Multi.EvTimeout 1]
             Multi.enable in
  (s.(Multi._visible_items) = [] ∧ s.(Multi._selected_index) = 0)
  ∨ 0 ≤ s.(Multi._selected_index) < len s.(Multi._visible_items).
Proof. intros s. apply (proj1 cursor_always_valid s). by eexists. Defined.

(** X2. In every reachable state of either variant at most one timeout
    source is live, it is the one [_filter_timeout] records, and none is
    live while the actor is off the stage. *)
Theorem one_timer_at_most :
  (∀ s, Multi.reachable s →
        s.(Multi.sources) = option_list s.(Multi._filter_timeout)
        ∧ (length s.(Multi.sources) ≤ 1)%nat
        ∧ (s.(Multi.on_stage) = false → s.(Multi.sources) = []))
  ∧ (∀ s, Single.reachable s →
          s.(Single.sources) = option_list s.(Single._filter_timeout)
          ∧ (length s.(Single.sources) ≤ 1)%nat
          ∧ (s.(Single.on_stage) = false → s.(Single.sources) = [])).
Proof.
  split.
  - intros s [_ _ Ht Hi _]%multi_reachable_inv.
    unfold MultiInv.timer_ok, MultiInv.idle_ok in *. rewrite Ht.
    split_and!.
    + by destruct (Multi._filter_timeout s).
    + destruct (Multi._filter_timeout s); simpl; lia.
    + intros Hoff. by rewrite (Hi Hoff).
  - intros s [_ Ht Hi]%single_reachable_inv.
    unfold SingleInv.timer_ok, SingleInv.idle_ok in *. rewrite Ht.
    split_and!.
    + by destruct (Single._filter_timeout s).
    + destruct (Single._filter_timeout s); simpl; lia.
    + intros Hoff. by rewrite (Hi Hoff).
Qed.

Lemma one_timer_at_most_witness :
  let s := Single.run [Single.EvShow ["apple"; "banana"] None;
                       Single.EvTextEdited "a"; Single.EvTextEdited "ap";
                       Single.EvTextEdited "app"] Single.enable in
  s.(Single.sources) = option_list s.(Single._filter_timeout)
  ∧ (length s.(Single.sources) ≤ 1)%nat
  ∧ (s.(Single.on_stage) = false → s.(Single.sources) = []).
Proof. intros s. apply (proj2 one_timer_at_most s). by eexists. Defined.

(** X4. In every reachable state of either variant, while the actor is on
    the stage and no debounce timer is pending, the MatchList is the one
    the filter gives for the present candidates and the present entry text. *)
Theorem match_list_up_to_date :
  (∀ s, Multi.reachable s →
        s.(Multi.on_stage) = true → s.(Multi._filter_timeout) = None →
        s.(Multi._visible_items)
        = Multi.match_list s.(Multi._items) s.(Multi.entry_text))
  ∧ (∀ s, Single.reachable s →
          s.(Single.on_stage) = true → s.(Single._filter_timeout) = None →
          s.(Single._visible_items)
          = Single.match_list s.(Single._items) s.(Single.entry_text)).
Proof.
  split.
  - intros s Hreach%multi_reachable_data. apply Hreach.
  - intros s Hreach%single_reachable_data. apply Hreach.
Qed.

Lemma match_list_up_to_date_witness :
  let s := Multi.run [Multi.EvShow ["apple"; "banana"; "grape"] None;
                      Multi.EvTextEdited "ap"; Multi.EvTimeout 1;
                      MultiCommands.MoveDown] Multi.enable in
  s.(Multi._visible_items)
  = Multi.match_list s.(Multi._items) s.(Multi.entry_text).
Proof.
  intros s. apply (proj1 match_list_up_to_date s); [by eexists | done | done].
Defined.

(** ** Signals *)

Section multi_signals.
Import Multi MultiInv MultiCommands MultiData.

Lemma multi_off_idle s : inv s → s.(on_stage) = false → idle s.
Proof.
  intros [_ _ Ht Hi _] Hoff. unfold timer_ok, idle_ok, idle in *.
  rewrite Ht, (Hi Hoff). done.
Qed.

(** The keys that are neither Escape nor an unshifted Return or keypad
    Enter log nothing. *)
Lemma multi_onKeyPress_silent symbol modifiers s :
  ¬ is_cancel (EvKeyPress symbol modifiers) →
  ¬ is_commit (EvKeyPress symbol modifiers) →
  (_onKeyPress symbol modifiers s).(log) = s.(log).
Proof.
  simpl. intros Hesc Hret. unfold _onKeyPress, move_to.
  destruct (has_modifier modifiers SHIFT_MASK) eqn:Hshift;
    destruct symbol; try (exfalso; by auto); simpl.
  all: repeat match goal with
       | |- context [if ?b then _ else _] => destruct b
       | |- context [match ?o with Some _ => _ | None => _ end] => destruct o
       end.
  all: rewrite ?multi_log_updateScrollWindow; simpl;
       by rewrite ?multi_log_toggle_current.
Qed.

Lemma multi_step_log_calls ev s :
  ¬ is_cancel ev → ¬ is_commit ev →
  (step ev s).(log) = s.(log)
  ∨ (step ev s).(log) = s.(log) ++ [AddChild]
  ∨ (step ev s).(log) = s.(log) ++ [Unexport; RemoveChild].
Proof.
  intros Hesc Hret.
  destruct ev as [items prompt|text|symbol modifiers| |id|];
    unfold step, dispatch.
  - destruct (exported s); [|by left]. right; left.
    apply multi_log_show, multi_log_onTextChanged.
  - left. destruct (on_stage s); [|done]. unfold entry_set_text.
    case_match; [done|]. by rewrite multi_log_onTextChanged.
  - left. destruct (on_stage s); [|done]. by apply multi_onKeyPress_silent.
  - by destruct Hret.
  - left. case_bool_decide; [|done]. unfold filter_timeout_callback. simpl.
    by rewrite multi_log_recompute.
  - destruct (exported s); [|by left]. right; right. unfold disable.
    rewrite multi_log_hide. simpl. by rewrite <- app_assoc.
Qed.

Lemma multi_step_silent ev s :
  ¬ is_cancel ev → ¬ is_commit ev → signals (step ev s) = signals s.
Proof.
  intros Hesc Hret. unfold signals.
  destruct (multi_step_log_calls ev s Hesc Hret) as [-> | [-> | ->]];
    rewrite ?List.filter_app; simpl; by rewrite ?app_nil_r.
Qed.

(** A cancel or a commit adds at most one signal, and when it adds one the
    actor has left the stage and no timer is left. *)
Lemma multi_step_final ev s :
  inv s → is_cancel ev ∨ is_commit ev →
  signals (step ev s) = signals s
  ∨ ∃ c, signals (step ev s) = signals s ++ [c] ∧ idle (step ev s).
Proof.
  intros Hinv Hev.
  pose proof (multi_inv_step ev s Hinv) as Hinv'.
  destruct (on_stage s) eqn:Hon.
  - destruct Hev as [Hev|Hev].
    + right. destruct ev as [| |symbol modifiers| | |]; try done.
      destruct symbol; try done.
      destruct (multi_cancel s modifiers Hinv Hon) as [Hlog Hidle].
      exists EmitCancelled. split; [|done].
      by rewrite (multi_signals_app s _ _ Hlog).
    + revert Hinv'. rewrite (multi_commit_onActivate ev s Hev Hon). intros Hinv'.
      destruct (decide (s.(_selected_items) = [])) as [Hsel|Hsel].
      * destruct (array_get s.(_visible_items) s.(_selected_index))
          as [item|] eqn:E.
        -- right. exists (EmitItemSelected [item]).
           rewrite (multi_onActivate_cursor s item Hsel E) in *.
           split; [|apply multi_off_idle; [done | apply multi_on_stage_hide]].
           unfold signals. rewrite multi_log_hide. simpl.
           rewrite <- app_assoc, List.filter_app. done.
        -- left. unfold signals. rewrite multi_log_commit.
           unfold commit_calls. by rewrite Hsel, E, app_nil_r.
      * right. exists (EmitItemSelected s.(_selected_items)).
        rewrite (multi_onActivate_selection s Hsel) in *.
        split; [|apply multi_off_idle; [done | apply multi_on_stage_hide]].
        unfold signals. rewrite multi_log_hide. simpl.
        rewrite <- app_assoc, List.filter_app. done.
  - left. destruct Hev as [Hev|Hev]; destruct ev; try done;
      unfold step, dispatch; by rewrite Hon.
Qed.

Lemma multi_final_dec ev :
  (is_cancel ev ∨ is_commit ev) ∨ (¬ is_cancel ev ∧ ¬ is_commit ev).
Proof.
  destruct ev as [| |symbol modifiers| | |]; simpl; try tauto.
  destruct (has_modifier modifiers SHIFT_MASK); destruct symbol; simpl;
    try tauto; right; split; try tauto; intros [[?|?] ?]; congruence.
Qed.

Lemma multi_run_one_signal evs s :
  inv s → Forall (λ ev, ¬ is_show ev) evs →
  ∃ emitted, signals (run evs s) = signals s ++ emitted
             ∧ (length emitted ≤ 1)%nat.
Proof.
  intros Hinv Hevs. revert s Hinv.
  induction Hevs as [|ev evs Hev Hevs IH]; intros s Hinv.
  - exists []. split; [by rewrite app_nil_r | simpl; lia].
  - change (run (ev :: evs) s) with (run evs (step ev s)).
    pose proof (multi_inv_step ev s Hinv) as Hinv'.
    assert (Hstep : signals (step ev s) = signals s
                    ∨ ∃ c, signals (step ev s) = signals s ++ [c]
                           ∧ idle (step ev s)).
    { destruct (multi_final_dec ev) as [Hfin|[Hesc Hret]].
      - by apply multi_step_final.
      - left. by apply multi_step_silent. }
    destruct Hstep as [Hsame|(c & Hone & Hidle)].
    + destruct (IH _ Hinv') as (emitted & E & Hlen).
      exists emitted. by rewrite E, Hsame.
    + exists [c]. rewrite (multi_idle_run evs _ Hidle Hevs), Hone.
      split; [done | simpl; lia].
Qed.

End multi_signals.

Section single_signals.
Import Single SingleInv SingleCommands SingleData.

Lemma single_off_idle s : inv s → s.(on_stage) = false → idle s.
Proof.
  intros [_ Ht Hi] Hoff. unfold timer_ok, idle_ok, idle in *.
  rewrite Ht, (Hi Hoff). done.
Qed.

Lemma single_log_onTextChanged s : (_onTextChanged s).(log) = s.(log).
Proof. unfold _onTextChanged. by destruct (_filter_timeout s). Qed.

Lemma single_onKeyPress_silent symbol modifiers s :
  ¬ is_cancel (EvKeyPress symbol modifiers) →
  ¬ is_commit (EvKeyPress symbol modifiers) →
  (_onKeyPress symbol modifiers s).(log) = s.(log).
Proof.
  simpl. intros Hesc Hret. unfold _onKeyPress.
  destruct symbol; try (exfalso; by auto); simpl.
  all: repeat match goal with
       | |- context [if ?b then _ else _] => destruct b
       end.
  all: done.
Qed.

Lemma single_step_log_calls ev s :
  ¬ is_cancel ev → ¬ is_commit ev →
  (step ev s).(log) = s.(log)
  ∨ (step ev s).(log) = s.(log) ++ [AddChild]
  ∨ (step ev s).(log) = s.(log) ++ [Unexport; RemoveChild].
Proof.
  intros Hesc Hret.
  destruct ev as [items prompt|text|symbol modifiers| |id|];
    unfold step, dispatch.
  - destruct (exported s); [|by left]. right; left.
    unfold show, _updateResults, entry_set_text. simpl.
    case_match; [done|]. by rewrite single_log_onTextChanged.
  - left. destruct (on_stage s); [|done]. unfold entry_set_text.
    case_match; [done|]. by rewrite single_log_onTextChanged.
  - left. destruct (on_stage s); [|done]. by apply single_onKeyPress_silent.
  - by destruct Hret.
  - left. by case_bool_decide.
  - destruct (exported s); [|by left]. right; right. unfold disable.
    rewrite single_log_hide. simpl. by rewrite <- app_assoc.
Qed.

Lemma single_step_silent ev s :
  ¬ is_cancel ev → ¬ is_commit ev → signals (step ev s) = signals s.
Proof.
  intros Hesc Hret. unfold signals.
  destruct (single_step_log_calls ev s Hesc Hret) as [-> | [-> | ->]];
    rewrite ?List.filter_app; simpl; by rewrite ?app_nil_r.
Qed.

Lemma single_step_final ev s :
  inv s → is_cancel ev ∨ is_commit ev →
  signals (step ev s) = signals s
  ∨ ∃ c, signals (step ev s) = signals s ++ [c] ∧ idle (step ev s).
Proof.
  intros Hinv Hev.
  pose proof (single_inv_step ev s Hinv) as Hinv'.
  destruct (on_stage s) eqn:Hon.
  - destruct Hev as [Hev|Hev].
    + right. destruct ev as [| |symbol modifiers| | |]; try done.
      destruct symbol; try done.
      destruct (single_cancel s modifiers Hinv Hon) as [Hlog Hidle].
      exists EmitCancelled. split; [|done].
      by rewrite (single_signals_app s _ _ Hlog).
    + revert Hinv'. rewrite (single_commit_onActivate ev s Hev Hon). intros Hinv'.
      destruct (array_get s.(_visible_items) s.(_selected_index))
        as [item|] eqn:E.
      * right. exists (EmitItemSelected item).
        rewrite (single_onActivate_cursor s item E) in *.
        split; [|apply single_off_idle; [done | apply single_on_stage_hide]].
        unfold signals. rewrite single_log_hide. simpl.
        rewrite <- app_assoc, List.filter_app. done.
      * left. unfold signals. rewrite single_log_commit.
        unfold commit_calls. by rewrite E, app_nil_r.
  - left. destruct Hev as [Hev|Hev]; destruct ev; try done;
      unfold step, dispatch; by rewrite Hon.
Qed.

Lemma single_final_dec ev :
  (is_cancel ev ∨ is_commit ev) ∨ (¬ is_cancel ev ∧ ¬ is_commit ev).
Proof.
  destruct ev as [| |symbol modifiers| | |]; simpl; try tauto.
  destruct symbol; simpl; try tauto; right; split; try tauto;
    intros [?|?]; congruence.
Qed.

Lemma single_run_one_signal evs s :
  inv s → Forall (λ ev, ¬ is_show ev) evs →
  ∃ emitted, signals (run evs s) = signals s ++ emitted
             ∧ (length emitted ≤ 1)%nat.
Proof.
  intros Hinv Hevs. revert s Hinv.
  induction Hevs as [|ev evs Hev Hevs IH]; intros s Hinv.
  - exists []. split; [by rewrite app_nil_r | simpl; lia].
  - change (run (ev :: evs) s) with (run evs (step ev s)).
    pose proof (single_inv_step ev s Hinv) as Hinv'.
    assert (Hstep : signals (step ev s) = signals s
                    ∨ ∃ c, signals (step ev s) = signals s ++ [c]
                           ∧ idle (step ev s)).
    { destruct (single_final_dec ev) as [Hfin|[Hesc Hret]].
      - by apply single_step_final.
      - left. by apply single_step_silent. }
    destruct Hstep as [Hsame|(c & Hone & Hidle)].
    + destruct (IH _ Hinv') as (emitted & E & Hlen).
      exists emitted. by rewrite E, Hsame.
    + exists [c]. rewrite (single_idle_run evs _ Hidle Hevs), Hone.
      split; [done | simpl; lia].
Qed.

End single_signals.

(** X3. At most one signal per invocation: from any reachable state of
    either variant, a sequence of events that contains no new [Show] adds
    at most one signal to those already emitted. *)
Theorem one_signal_per_invocation :
  (∀ evs s,
     Multi.reachable s → Forall (λ ev, ¬ MultiCommands.is_show ev) evs →
     ∃ emitted, Multi.signals (Multi.run evs s) = Multi.signals s ++ emitted
                ∧ (length emitted ≤ 1)%nat)
  ∧ (∀ evs s,
       Single.reachable s → Forall (λ ev, ¬ SingleCommands.is_show ev) evs →
       ∃ emitted, Single.signals (Single.run evs s) = Single.signals s ++ emitted
                  ∧ (length emitted ≤ 1)%nat).
Proof.
  split.
  - intros evs s Hreach%multi_reachable_inv. by apply multi_run_one_signal.
  - intros evs s Hreach%single_reachable_inv. by apply single_run_one_signal.
Qed.

(** Enter, then Escape, then Enter again: one signal. *)
Lemma one_signal_per_invocation_witness :
  let s := Single.run [Single.EvShow ["apple"; "banana"] None] Single.enable in
  let evs := [Single.EvKeyPress KEY_Return 0; Single.EvKeyPress KEY_Escape 0;
              Single.EvKeyPress KEY_Return 0; Single.EvActivate] in
  ∃ emitted, Single.signals (Single.run evs s) = Single.signals s ++ emitted
             ∧ (length emitted ≤ 1)%nat.
Proof.
  intros s evs. apply (proj2 one_signal_per_invocation evs s).
  - by eexists.
  - unfold evs. repeat (apply Forall_cons_2; [simpl; tauto|]). apply Forall_nil_2.
Defined.

(** X15. Only a cancel or a commit emits: an event of either variant that
    changes the signals emitted so far is Escape, an unshifted Return or
    keypad Enter (any Return or keypad Enter in the single-select variant),
    or the [activate] signal of the entry. Typing, moving, paging, toggling,
    the timer, [Show] and the disabling of the extension emit nothing. *)
Theorem only_commit_and_cancel_emit :
  (∀ ev s, Multi.signals (Multi.step ev s) ≠ Multi.signals s →
           MultiCommands.is_cancel ev ∨ MultiCommands.is_commit ev)
  ∧ (∀ ev s, Single.signals (Single.step ev s) ≠ Single.signals s →
             SingleCommands.is_cancel ev ∨ SingleCommands.is_commit ev).
Proof.
  split.
  - intros ev s Hne. destruct (multi_final_dec ev) as [?|[Hesc Hret]]; [done|].
    destruct Hne. by apply multi_step_silent.
  - intros ev s Hne. destruct (single_final_dec ev) as [?|[Hesc Hret]]; [done|].
    destruct Hne. by apply single_step_silent.
Qed.

Lemma only_commit_and_cancel_emit_witness :
  let s := Multi.run [Multi.EvShow ["apple"; "banana"] None] Multi.enable in
  MultiCommands.is_cancel (Multi.EvKeyPress KEY_KP_Enter 0)
  ∨ MultiCommands.is_commit (Multi.EvKeyPress KEY_KP_Enter 0).
Proof.
  intros s. apply (proj1 only_commit_and_cancel_emit _ s). discriminate.
Defined.

(** ** Candidates and payloads *)

(** X5. In every reachable state the MatchList is drawn from the
    candidates in their order and, in the multi-select variant, the
    selection set holds candidates only; hence whatever a commit emits from
    such a state is made of candidates of the [Show] in progress. *)
Theorem payload_from_candidates :
  (∀ s, Multi.reachable s →
        s.(Multi._visible_items) `sublist_of` s.(Multi._items)
        ∧ (∀ item, item ∈ s.(Multi._selected_items) → item ∈ s.(Multi._items))
        ∧ ∀ ev payload item,
            s.(Multi.on_stage) = true → MultiCommands.is_commit ev →
            Multi.EmitItemSelected payload ∈ MultiCommands.commit_calls s →
            (Multi.step ev s).(Multi.log)
            = s.(Multi.log) ++ [Multi.EmitItemSelected payload; Multi.RemoveChild]
            ∧ (item ∈ payload → item ∈ s.(Multi._items)))
  ∧ (∀ s, Single.reachable s →
          s.(Single._visible_items) `sublist_of` s.(Single._items)
          ∧ ∀ ev item,
              s.(Single.on_stage) = true → SingleCommands.is_commit ev →
              Single.EmitItemSelected item ∈ SingleCommands.commit_calls s →
              (Single.step ev s).(Single.log)
              = s.(Single.log) ++ [Single.EmitItemSelected item; Single.RemoveChild]
              ∧ item ∈ s.(Single._items)).
Proof.
  split.
  - intros s (Hvis & Hsel & _)%multi_reachable_data. split_and!; [done..|].
    intros ev payload item Hon Hev Hin.
    rewrite (multi_commit_onActivate ev s Hev Hon), multi_log_commit.
    revert Hin. unfold MultiCommands.commit_calls.
    destruct (Multi._selected_items s) as [|x sel] eqn:Esel.
    + destruct (array_get _ _) as [cur|] eqn:E;
        [|by intros ?%elem_of_nil].
      intros [[= ->]|Hin]%elem_of_cons;
        [|apply elem_of_cons in Hin as [[=]|?%elem_of_nil]; done].
      split; [done|]. intros ->%list_elem_of_singleton.
      apply array_get_elem_of in E as [E _]. by eapply elem_of_sublist.
    + intros [[= ->]|Hin]%elem_of_cons;
        [|apply elem_of_cons in Hin as [[=]|?%elem_of_nil]; done].
      split; [done|]. apply Hsel.
  - intros s (Hvis & _ & _)%single_reachable_data. split; [done|].
    intros ev item Hon Hev Hin.
    rewrite (single_commit_onActivate ev s Hev Hon), single_log_commit.
    revert Hin. unfold SingleCommands.commit_calls.
    destruct (array_get _ _) as [cur|] eqn:E; [|by intros ?%elem_of_nil].
    intros [[= ->]|Hin]%elem_of_cons;
      [|apply elem_of_cons in Hin as [[=]|?%elem_of_nil]; done].
    split; [done|].
    apply array_get_elem_of in E as [E _]. by eapply elem_of_sublist.
Qed.

Lemma payload_from_candidates_witness :
  let s := Multi.run [Multi.EvShow ["apple"; "banana"; "grape"] None;
                      Multi.EvTextEdited "an"; Multi.EvTimeout 1;
                      MultiCommands.ToggleSelectAdvance] Multi.enable in
  s.(Multi._visible_items) `sublist_of` s.(Multi._items)
  ∧ (∀ item, item ∈ s.(Multi._selected_items) → item ∈ s.(Multi._items))
  ∧ ∀ ev payload item,
      s.(Multi.on_stage) = true → MultiCommands.is_commit ev →
      Multi.EmitItemSelected payload ∈ MultiCommands.commit_calls s →
      (Multi.step ev s).(Multi.log)
      = s.(Multi.log) ++ [Multi.EmitItemSelected payload; Multi.RemoveChild]
      ∧ (item ∈ payload → item ∈ s.(Multi._items)).
Proof. intros s. apply (proj1 payload_from_candidates s). by eexists. Defined.

(** X6. With no candidates the prompt cannot be committed: in a reachable
    state whose candidate list is empty the MatchList is empty and, in the
    multi-select variant, so is the selection set, and every commit event
    leaves the state exactly as it was. *)
Theorem no_candidates_no_commit :
  (∀ s ev, Multi.reachable s → s.(Multi._items) = [] →
           s.(Multi._visible_items) = [] ∧ s.(Multi._selected_items) = []
           ∧ (MultiCommands.is_commit ev → Multi.step ev s = s))
  ∧ (∀ s ev, Single.reachable s → s.(Single._items) = [] →
             s.(Single._visible_items) = []
             ∧ (SingleCommands.is_commit ev → Single.step ev s = s)).
Proof.
  split.
  - intros s ev (Hvis & Hsel & _)%multi_reachable_data Hnil.
    rewrite Hnil in Hvis, Hsel. apply sublist_nil_r in Hvis.
    assert (Hsel' : s.(Multi._selected_items) = []).
    { destruct (Multi._selected_items s) as [|x l]; [done|].
      exfalso. apply (not_elem_of_nil x), Hsel, list_elem_of_here. }
    split_and!; [done..|]. intros Hev.
    destruct (Multi.on_stage s) eqn:Hon.
    + rewrite (multi_commit_onActivate ev s Hev Hon).
      by apply multi_onActivate_nothing.
    + destruct ev; try done; unfold Multi.step, Multi.dispatch; by rewrite Hon.
  - intros s ev (Hvis & _)%single_reachable_data Hnil.
    rewrite Hnil in Hvis. apply sublist_nil_r in Hvis.
    split; [done|]. intros Hev.
    destruct (Single.on_stage s) eqn:Hon.
    + rewrite (single_commit_onActivate ev s Hev Hon).
      by apply single_onActivate_nothing.
    + destruct ev; try done; unfold Single.step, Single.dispatch; by rewrite Hon.
Qed.

Lemma no_candidates_no_commit_witness :
  let s := Multi.run [Multi.EvShow [] (Some "empty");
                      Multi.EvTextEdited "a"; MultiCommands.ToggleSelectAdvance]
             Multi.enable in
  s.(Multi._visible_items) = [] ∧ s.(Multi._selected_items) = []
  ∧ (MultiCommands.is_commit Multi.EvActivate → Multi.step Multi.EvActivate s = s).
Proof.
  intros s. apply (proj1 no_candidates_no_commit s Multi.EvActivate);
    [by eexists | reflexivity].
Defined.

(** ** Keys *)

(** X7. A key press that [_onKeyPress] hands on to the toolkit
    ([EVENT_PROPAGATE]) changes nothing; and on an empty MatchList (with, in
    the multi-select variant, an empty selection set) every key but Escape
    changes nothing: no movement, no toggle, no commit. *)
Theorem idle_keys_change_nothing :
  (∀ symbol modifiers s,
     MultiData._onKeyPress_return symbol modifiers = MultiData.EVENT_PROPAGATE →
     Multi._onKeyPress symbol modifiers s = s)
  ∧ (∀ symbol modifiers s,
       s.(Multi._visible_items) = [] → s.(Multi._selected_items) = [] →
       symbol ≠ KEY_Escape →
       Multi._onKeyPress symbol modifiers s = s)
  ∧ (∀ symbol modifiers s,
       SingleData._onKeyPress_return symbol modifiers = SingleData.EVENT_PROPAGATE →
       Single._onKeyPress symbol modifiers s = s)
  ∧ (∀ symbol modifiers s,
       s.(Single._visible_items) = [] → symbol ≠ KEY_Escape →
       Single._onKeyPress symbol modifiers s = s).
Proof.
  split_and!.
  - intros symbol modifiers s.
    unfold MultiData._onKeyPress_return, Multi._onKeyPress.
    by repeat (match goal with
               | |- context [if ?b then _ else _] => destruct b
               end; try done).
  - intros symbol modifiers s Hvis Hsel Hesc.
    unfold Multi._onKeyPress. rewrite Hvis. simpl.
    rewrite (multi_onActivate_nothing s Hsel Hvis).
    rewrite bool_decide_eq_false_2 by done.
    by repeat (match goal with
               | |- context [if ?b then _ else _] => destruct b
               end; try done).
  - intros symbol modifiers s.
    unfold SingleData._onKeyPress_return, Single._onKeyPress.
    by repeat (match goal with
               | |- context [if ?b then _ else _] => destruct b
               end; try done).
  - intros symbol modifiers s Hvis Hesc.
    unfold Single._onKeyPress. rewrite Hvis. simpl.
    rewrite (single_onActivate_nothing s Hvis).
    rewrite bool_decide_eq_false_2 by done.
    by repeat (match goal with
               | |- context [if ?b then _ else _] => destruct b
               end; try done).
Qed.

Lemma idle_keys_change_nothing_witness :
  let s := Multi.run [Multi.EvShow ["apple"] None] Multi.enable in
  Multi._onKeyPress KEY_other 0 s = s
  ∧ Multi._onKeyPress KEY_a 0 s = s.
Proof.
  intros s. split; apply (proj1 idle_keys_change_nothing); reflexivity.
Defined.

(** ** Paging *)

Section multi_paging.
Import Multi MultiInv MultiCommands.

Lemma multi_move_to_state i s :
  ∃ start, move_to i s = set_scroll_start_index start (set_selected_index i s)
           ∧ start = (_updateScrollWindow (set_selected_index i s)).(_scroll_start_index).
Proof.
  unfold move_to.
  destruct (updateScrollWindow_frame (set_selected_index i s)) as [start E].
  exists start. by rewrite E.
Qed.

Lemma multi_scroll_after_End s :
  inv s → 0 < len s.(_visible_items) →
  (_updateScrollWindow (set_selected_index (len s.(_visible_items) - 1) s))
    .(_scroll_start_index)
  = Z.max 0 (len s.(_visible_items) - _items_per_page).
Proof.
  intros [_ [[Ha _] _] _ _ _] Hpos. revert Ha.
  unfold admissible_start, pageSize, _updateScrollWindow, _items_per_page.
  change (20 / 4) with 5. simpl. intros Ha.
  destruct (Z.eqb_spec (len s.(_visible_items)) 0); [lia|].
  destruct (Z.ltb_spec (len s.(_visible_items) - 1) (s.(_scroll_start_index) + 5));
    simpl; [lia|].
  destruct (Z.leb_spec (s.(_scroll_start_index) + 20 - 5)
              (len s.(_visible_items) - 1)); simpl; lia.
Qed.

Lemma multi_paging s :
  inv s → s.(on_stage) = true → s.(_visible_items) ≠ [] →
  let n := len s.(_visible_items) in
  let home := step (EvKeyPress KEY_Home 0) s in
  let end_ := step (EvKeyPress KEY_End 0) s in
  let down := step (EvKeyPress KEY_Page_Down 0) s in
  let up := step (EvKeyPress KEY_Page_Up 0) s in
  (home.(_selected_index) = 0 ∧ home.(_scroll_start_index) = 0)
  ∧ (end_.(_selected_index) = n - 1
     ∧ end_.(_scroll_start_index) = Z.max 0 (n - _items_per_page))
  ∧ down.(_selected_index) = Z.min (n - 1) (s.(_selected_index) + _items_per_page)
  ∧ up.(_selected_index) = Z.max 0 (s.(_selected_index) - _items_per_page)
  ∧ Forall (λ s', s'.(_visible_items) = s.(_visible_items)
                  ∧ s'.(_selected_items) = s.(_selected_items)
                  ∧ s'.(log) = s.(log) ∧ s'.(on_stage) = true)
           [home; end_; down; up].
Proof.
  intros Hinv Hon Hvis%len_pos. simpl. unfold step, dispatch. rewrite Hon.
  unfold _onKeyPress. simpl. apply Z.ltb_lt in Hvis as Hvis'. rewrite Hvis'.
  split_and!.
  - by destruct (multi_move_to_fields 0 s) as (-> & _).
  - unfold move_to. by rewrite updateScrollWindow_at_0.
  - by destruct (multi_move_to_fields (len s.(_visible_items) - 1) s) as (-> & _).
  - unfold move_to. by apply multi_scroll_after_End.
  - match goal with |- context [move_to ?i s] =>
      by destruct (multi_move_to_fields i s) as (-> & _) end.
  - match goal with |- context [move_to ?i s] =>
      by destruct (multi_move_to_fields i s) as (-> & _) end.
  - repeat constructor;
      match goal with |- context [move_to ?i s] =>
        destruct (multi_move_to_state i s) as (start & -> & _) end; done.
Qed.

End multi_paging.

(** X8. In a reachable state of the multi-select variant with a non-empty
    MatchList on the stage: Home puts the cursor and the scroll position at
    0; End puts the cursor on the last row and the scroll position at
    max(0, len - 20), so that the last page is shown in full; Page_Down and
    Page_Up move the cursor by 20 rows, stopping at the last and the first
    row. None of the four changes the MatchList, the selection set or the
    log, or takes the actor off the stage. *)
Theorem paging_keys :
  ∀ s, Multi.reachable s → s.(Multi.on_stage) = true →
       s.(Multi._visible_items) ≠ [] →
  let n := len s.(Multi._visible_items) in
  let home := Multi.step (Multi.EvKeyPress KEY_Home 0) s in
  let end_ := Multi.step (Multi.EvKeyPress KEY_End 0) s in
  let down := Multi.step (Multi.EvKeyPress KEY_Page_Down 0) s in
  let up := Multi.step (Multi.EvKeyPress KEY_Page_Up 0) s in
  (home.(Multi._selected_index) = 0 ∧ home.(Multi._scroll_start_index) = 0)
  ∧ (end_.(Multi._selected_index) = n - 1
     ∧ end_.(Multi._scroll_start_index) = Z.max 0 (n - 20))
  ∧ down.(Multi._selected_index) = Z.min (n - 1) (s.(Multi._selected_index) + 20)
  ∧ up.(Multi._selected_index) = Z.max 0 (s.(Multi._selected_index) - 20)
  ∧ Forall (λ s', s'.(Multi._visible_items) = s.(Multi._visible_items)
                  ∧ s'.(Multi._selected_items) = s.(Multi._selected_items)
                  ∧ s'.(Multi.log) = s.(Multi.log)
                  ∧ s'.(Multi.on_stage) = true)
           [home; end_; down; up].
Proof. intros s Hreach%multi_reachable_inv. by apply multi_paging. Qed.

(** Forty-five candidates: End shows rows 25 to 44. *)
Lemma paging_keys_witness :
  let s := Multi.run [Multi.EvShow (replicate 45 "row") None;
                      MultiCommands.MoveDown] Multi.enable in
  (Multi.step (Multi.EvKeyPress KEY_End 0) s).(Multi._selected_index) = 44
  ∧ (Multi.step (Multi.EvKeyPress KEY_End 0) s).(Multi._scroll_start_index) = 25.
Proof.
  intros s.
  refine (proj1 (proj2 (paging_keys s _ _ _))); [by eexists | done | done].
Defined.

(** ** Toggling twice *)

Section multi_two_toggles.
Import Multi MultiInv MultiCommands.

Lemma multi_ToggleSelect_state s item :
  s.(on_stage) = true →
  array_get s.(_visible_items) s.(_selected_index) = Some item →
  ∃ start, step ToggleSelect s
           = set_scroll_start_index start (toggle_current item s).
Proof.
  intros Hon Hget. apply array_get_elem_of in Hget as Hb. destruct Hb as [_ [H0 Hlt]].
  assert (Hpos : 0 < len s.(_visible_items)) by lia.
  apply Z.ltb_lt in Hlt, Hpos.
  unfold step, ToggleSelect. simpl. rewrite Hon. unfold _onKeyPress. simpl.
  rewrite Hpos, Hlt, Hget. simpl.
  destruct (updateScrollWindow_frame (toggle_current item s)) as [start ->].
  by exists start.
Qed.

Lemma filter_ne_not_elem (item : string) (l : list string) :
  item ∉ l → filter (λ y, y ≠ item) l = l.
Proof.
  induction l as [|x l IH]; [done|]. intros [Hx Hl]%not_elem_of_cons.
  by rewrite filter_cons_True, IH by done.
Qed.

Lemma multi_two_toggles s item :
  s.(on_stage) = true →
  array_get s.(_visible_items) s.(_selected_index) = Some item →
  let s2 := step ToggleSelect (step ToggleSelect s) in
  s2.(_selected_index) = s.(_selected_index)
  ∧ (item ∉ s.(_selected_items) → s2.(_selected_items) = s.(_selected_items))
  ∧ (item ∈ s.(_selected_items) →
     s2.(_selected_items) = filter (λ y, y ≠ item) s.(_selected_items) ++ [item]).
Proof.
  intros Hon Hget. cbv zeta.
  destruct (multi_ToggleSelect_state s item Hon Hget) as [start1 E1].
  destruct (toggle_current_frame item s) as [sel1 Esel1].
  assert (Hsel1 : sel1 = (toggle_current item s).(_selected_items))
    by (by rewrite Esel1).
  rewrite E1, Esel1.
  destruct (multi_ToggleSelect_state
              (set_scroll_start_index start1 (set_selected_items sel1 s)) item)
    as [start2 E2]; [done | done |].
  rewrite E2. simpl. split; [by destruct (toggle_current_frame item
    (set_scroll_start_index start1 (set_selected_items sel1 s))) as [? ->]|].
  unfold toggle_current at 1 2. simpl. unfold JsSet.has, JsSet.add, JsSet.delete.
  split.
  - intros Hnot. rewrite (multi_toggle_not_member item s Hnot) in Hsel1.
    subst sel1. rewrite bool_decide_eq_true_2
      by (apply elem_of_app; right; apply list_elem_of_here).
    simpl. rewrite filter_app. rewrite (filter_ne_not_elem item _ Hnot).
    rewrite filter_cons_False by (intros H; by apply H).
    by rewrite filter_nil, app_nil_r.
  - intros Hin. pose proof (multi_toggle_member item s Hin) as Hnot.
    rewrite <- Hsel1 in Hnot. rewrite !bool_decide_eq_false_2 by done. simpl.
    unfold JsSet.has. rewrite bool_decide_eq_false_2 by done.
    f_equal. rewrite Hsel1. unfold toggle_current, JsSet.has.
    by rewrite bool_decide_eq_true_2 by done.
Qed.

End multi_two_toggles.

(** X9. Ctrl+Space pressed twice on the same row (multi-select variant)
    leaves the cursor where it was; if the line was not in the selection
    set, the set is exactly as before; if it was, the set has the same
    members but the line has moved to the end, and with it its place in
    the payload a commit emits. *)
Theorem toggle_twice :
  ∀ s item,
    s.(Multi.on_stage) = true →
    array_get s.(Multi._visible_items) s.(Multi._selected_index) = Some item →
    let s2 := Multi.step MultiCommands.ToggleSelect
                (Multi.step MultiCommands.ToggleSelect s) in
    s2.(Multi._selected_index) = s.(Multi._selected_index)
    ∧ (item ∉ s.(Multi._selected_items) →
       s2.(Multi._selected_items) = s.(Multi._selected_items))
    ∧ (item ∈ s.(Multi._selected_items) →
       s2.(Multi._selected_items)
       = filter (λ y, y ≠ item) s.(Multi._selected_items) ++ [item]).
Proof. apply multi_two_toggles. Qed.

(** x and y toggled, then x toggled twice: the payload order becomes y, x. *)
Lemma toggle_twice_witness :
  let s := Multi.run [Multi.EvShow ["x"; "y"; "z"] None;
                      MultiCommands.ToggleSelectAdvance;
                      MultiCommands.ToggleSelectAdvance;
                      Multi.EvKeyPress KEY_Home 0] Multi.enable in
  (Multi.step MultiCommands.ToggleSelect
     (Multi.step MultiCommands.ToggleSelect s)).(Multi._selected_items)
  = ["y"; "x"].
Proof.
  intros s.
  refine (proj2 (proj2 (toggle_twice s "x" _ _)) _);
    [done | done | by apply (bool_decide_unpack _)].
Defined.

(** ** Tab in the single-select variant *)

Section single_tab.
Import Single SingleInv SingleCommands.

Lemma single_step_Tab modifiers s :
  s.(on_stage) = true → 0 < len s.(_visible_items) →
  step (EvKeyPress KEY_Tab modifiers) s
  = set_selected_index
      (Z.rem (s.(_selected_index) + 1) (len s.(_visible_items))) s.
Proof.
  intros Hon Hpos%Z.ltb_lt. unfold step, dispatch. rewrite Hon.
  unfold _onKeyPress. simpl. rewrite Hpos.
  by destruct (has_modifier modifiers CONTROL_MASK).
Qed.

Lemma single_tabs k s :
  s.(on_stage) = true →
  0 ≤ s.(_selected_index) < len s.(_visible_items) →
  let s' := run (replicate k (EvKeyPress KEY_Tab 0)) s in
  s'.(_selected_index)
  = (s.(_selected_index) + Z.of_nat k) `mod` len s.(_visible_items)
  ∧ s'.(_visible_items) = s.(_visible_items)
  ∧ s'.(log) = s.(log) ∧ s'.(on_stage) = true.
Proof.
  revert s. induction k as [|k IH]; intros s Hon Hidx; cbv zeta.
  - simpl. rewrite Z.add_0_r, Z.mod_small by lia. done.
  - change (run (replicate (S k) (EvKeyPress KEY_Tab 0)) s)
      with (run (replicate k (EvKeyPress KEY_Tab 0))
              (step (EvKeyPress KEY_Tab 0) s)).
    rewrite single_step_Tab by (done || lia).
    set (n := len s.(_visible_items)) in *.
    set (s1 := set_selected_index _ s).
    assert (Hrem : Z.rem (s.(_selected_index) + 1) n
                   = (s.(_selected_index) + 1) `mod` n)
      by (apply Z.rem_mod_nonneg; lia).
    assert (H1 : 0 ≤ s1.(_selected_index) < len s1.(_visible_items)).
    { unfold s1. simpl. rewrite Hrem. apply Z.mod_pos_bound. lia. }
    destruct (IH s1 Hon H1) as (-> & -> & -> & ->).
    split_and!; try done. unfold s1. simpl. fold n. rewrite Hrem.
    rewrite Zplus_mod_idemp_l. f_equal. lia.
Qed.

End single_tab.

(** X10. In the single-select variant Tab cycles through the MatchList: on
    the stage, from a cursor inside the list, k presses of Tab put the
    cursor at (cursor + k) mod len, so that Tab on the last row goes to the
    first and len presses come back to the row they started from; the
    MatchList and the log are untouched. *)
Theorem tab_cycles :
  ∀ k s,
    s.(Single.on_stage) = true →
    0 ≤ s.(Single._selected_index) < len s.(Single._visible_items) →
    let s' := Single.run (replicate k (Single.EvKeyPress KEY_Tab 0)) s in
    let all := Single.run (replicate (length s.(Single._visible_items))
                             (Single.EvKeyPress KEY_Tab 0)) s in
    s'.(Single._selected_index)
    = (s.(Single._selected_index) + Z.of_nat k) `mod` len s.(Single._visible_items)
    ∧ s'.(Single._visible_items) = s.(Single._visible_items)
    ∧ s'.(Single.log) = s.(Single.log)
    ∧ all.(Single._selected_index) = s.(Single._selected_index).
Proof.
  intros k s Hon Hidx. cbv zeta.
  destruct (single_tabs k s Hon Hidx) as (-> & -> & -> & _).
  split_and!; try done.
  destruct (single_tabs (length s.(Single._visible_items)) s Hon Hidx) as (-> & _).
  fold (len s.(Single._visible_items)).
  rewrite <- (Z.mul_1_l (len _)) at 1. rewrite Z_mod_plus_full.
  apply Z.mod_small. lia.
Qed.

Lemma tab_cycles_witness :
  let s := Single.run [Single.EvShow ["x"; "y"; "z"] None;
                       SingleCommands.MoveDown; SingleCommands.MoveDown]
             Single.enable in
  (Single.run (replicate 1 (Single.EvKeyPress KEY_Tab 0)) s)
    .(Single._selected_index) = 0.
Proof.
  intros s. refine (proj1 (tab_cycles 1 s _ _)); [done | by vm_compute].
Defined.

(** ** The rendered rows *)

Section multi_rows.
Import Multi MultiInv MultiCommands.

Lemma omap_lookup_all_Some {A B} (g : A → option B) (l : list A) (k : nat) :
  Forall (λ x, is_Some (g x)) l → omap g l !! k = l !! k ≫= g.
Proof.
  intros Hall. revert k. induction Hall as [|x l [y Hy] _ IH]; intros k; [done|].
  simpl. rewrite Hy. destruct k as [|k]; simpl; [done | apply IH].
Qed.

Lemma array_get_nat {A} (l : list A) (i : Z) :
  0 ≤ i → array_get l i = l !! Z.to_nat i.
Proof. intros Hi. unfold array_get. by destruct (Z.ltb_spec i 0); [lia|]. Qed.

(** The row at position [k] of the page, for a scroll position inside the
    MatchList. *)
Lemma multi_rows_lookup s k :
  0 ≤ s.(_scroll_start_index) →
  _renderVisibleItems s !! k
  = if decide (Z.of_nat k < _items_per_page) then
      item ← s.(_visible_items) !! (Z.to_nat s.(_scroll_start_index) + k)%nat;
      Some {| row_text := item;
              row_bullet := JsSet.has item s.(_selected_items);
              row_highlight :=
                bool_decide (s.(_scroll_start_index) + Z.of_nat k
                             = s.(_selected_index)) |}
    else None.
Proof.
  intros Hstart. unfold _renderVisibleItems.
  set (start := s.(_scroll_start_index)) in *.
  set (n := len s.(_visible_items)).
  set (cnt := Z.min (start + _items_per_page) n - start).
  rewrite omap_lookup_all_Some.
  - destruct (decide (Z.of_nat k < cnt)) as [Hk|Hk].
    + rewrite lookup_seqZ_lt by done. simpl.
      rewrite array_get_nat by lia.
      replace (Z.to_nat (start + Z.of_nat k)) with (Z.to_nat start + k)%nat by lia.
      rewrite decide_True by (unfold cnt in Hk; lia). done.
    + rewrite lookup_seqZ_ge by lia. simpl.
      destruct (decide (Z.of_nat k < _items_per_page)) as [Hp|Hp]; [|done].
      rewrite lookup_ge_None_2; [done|].
      unfold cnt, n, len in *. lia.
  - apply Forall_forall. intros i Hi%elem_of_seqZ.
    rewrite array_get_nat by lia.
    destruct (lookup_lt_is_Some_2 s.(_visible_items) (Z.to_nat i)) as [item ->];
      [unfold cnt, n, len in *; lia|].
    by eexists.
Qed.

Lemma multi_rows s :
  inv s →
  let rows := _renderVisibleItems s in
  (length rows ≤ 20)%nat
  ∧ (∀ k row, rows !! k = Some row →
       s.(_visible_items) !! (Z.to_nat s.(_scroll_start_index) + k)%nat
       = Some row.(row_text)
       ∧ row.(row_bullet) = bool_decide (row.(row_text) ∈ s.(_selected_items))
       ∧ (row.(row_highlight) = true ↔
          Z.of_nat k = s.(_selected_index) - s.(_scroll_start_index)))
  ∧ (s.(_visible_items) ≠ [] →
     ∃ row, rows !! Z.to_nat (s.(_selected_index) - s.(_scroll_start_index))
            = Some row
            ∧ array_get s.(_visible_items) s.(_selected_index)
              = Some row.(row_text)
            ∧ row.(row_highlight) = true).
Proof.
  intros Hinv. cbv zeta.
  assert (Hstart : 0 ≤ s.(_scroll_start_index)) by apply Hinv.
  split_and!.
  - destruct (decide (length (_renderVisibleItems s) ≤ 20)%nat) as [|Hlen]; [done|].
    destruct (lookup_lt_is_Some_2 (_renderVisibleItems s) 20) as [row Hrow]; [lia|].
    rewrite multi_rows_lookup in Hrow by done.
    by rewrite decide_False in Hrow by (unfold _items_per_page; lia).
  - intros k row. rewrite multi_rows_lookup by done.
    destruct (decide _) as [Hk|]; [|done].
    destruct (_ !! _) as [item|]; [|done]. simpl. intros [= <-]. simpl.
    split_and!; [done | done |]. rewrite bool_decide_eq_true. lia.
  - intros Hvis%len_pos.
    pose proof (multi_inv_keys_bounds s Hinv Hvis) as Hb.
    destruct Hinv as [_ [_ Hpage] _ _ _]. unfold cursor_on_page, pageSize in Hpage.
    destruct (array_get_Some _ _ Hb) as (item & Hget & _).
    rewrite multi_rows_lookup by done.
    rewrite decide_True by lia.
    replace (Z.to_nat (_scroll_start_index s)
             + Z.to_nat (_selected_index s - _scroll_start_index s))%nat
      with (Z.to_nat (_selected_index s)) by lia.
    rewrite array_get_nat in Hget by lia. rewrite Hget. simpl.
    eexists. split; [done|]. simpl. split; [by rewrite array_get_nat by lia|].
    apply bool_decide_eq_true. lia.
Qed.

End multi_rows.

(** X11. What [_renderVisibleItems] shows in a reachable state of the
    multi-select variant: at most 20 rows; the row at position k of the
    page is the line at position start + k of the MatchList, its bullet is
    set exactly when the line is in the selection set, and it is
    highlighted exactly when it is the row of the cursor; and when the
    MatchList is not empty the row of the cursor is on the page, so that
    one row, and only one, is highlighted. *)
Theorem rendered_rows_show_cursor :
  ∀ s, Multi.reachable s →
    let rows := Multi._renderVisibleItems s in
    (length rows ≤ 20)%nat
    ∧ (∀ k row, rows !! k = Some row →
         s.(Multi._visible_items)
           !! (Z.to_nat s.(Multi._scroll_start_index) + k)%nat
         = Some row.(Multi.row_text)
         ∧ row.(Multi.row_bullet)
           = bool_decide (row.(Multi.row_text) ∈ s.(Multi._selected_items))
         ∧ (row.(Multi.row_highlight) = true ↔
            Z.of_nat k
            = s.(Multi._selected_index) - s.(Multi._scroll_start_index)))
    ∧ (s.(Multi._visible_items) ≠ [] →
       ∃ row,
         rows !! Z.to_nat (s.(Multi._selected_index)
                           - s.(Multi._scroll_start_index)) = Some row
         ∧ array_get s.(Multi._visible_items) s.(Multi._selected_index)
           = Some row.(Multi.row_text)
         ∧ row.(Multi.row_highlight) = true).
Proof. intros s Hreach%multi_reachable_inv. by apply multi_rows. Qed.

Lemma rendered_rows_show_cursor_witness :
  let s := Multi.run
             (Multi.EvShow (replicate 30 "row") None
              :: replicate 17 MultiCommands.MoveDown) Multi.enable in
  (length (Multi._renderVisibleItems s) ≤ 20)%nat.
Proof.
  intros s. refine (proj1 (rendered_rows_show_cursor s _)). by eexists.
Defined.

Section single_rows.
Import Single SingleInv SingleCommands SingleData.

Lemma single_rows s :
  inv s → data_ok s →
  let rows := rendered_rows s in
  (length rows ≤ 50)%nat
  ∧ (∀ k row, rows !! k = Some row →
       s.(_visible_items) !! k = Some row.1
       ∧ (row.2 = true ↔ Z.of_nat k = s.(_selected_index)))
  ∧ (s.(_visible_items) ≠ [] →
     ∃ item, array_get s.(_visible_items) s.(_selected_index) = Some item
             ∧ rows !! Z.to_nat s.(_selected_index) = Some (item, true)).
Proof.
  intros Hinv (_ & Hlen & _). cbv zeta. unfold rendered_rows. split_and!.
  - by rewrite length_imap.
  - intros k row. rewrite list_lookup_imap.
    destruct (_ !! k) as [item|]; [|done]. simpl. intros [= <-]. simpl.
    split; [done|]. by rewrite bool_decide_eq_true.
  - intros Hvis%len_pos.
    pose proof (single_inv_bounds s Hinv Hvis) as Hb.
    destruct (array_get_Some _ _ Hb) as (item & Hget & _).
    exists item. split; [done|]. rewrite list_lookup_imap.
    unfold array_get in Hget. destruct (Z.ltb_spec s.(_selected_index) 0); [lia|].
    rewrite Hget. simpl. do 2 f_equal. apply bool_decide_eq_true. lia.
Qed.

End single_rows.

(** X16. What the single-select variant shows in a reachable state: one
    row per line of the MatchList, at most 50 of them, in the order of the
    MatchList; a row carries the [selected] class exactly when it is the
    row of the cursor, and when the MatchList is not empty that row
    exists. *)
Theorem single_rows_show_cursor :
  ∀ s, Single.reachable s →
    let rows := SingleData.rendered_rows s in
    (length rows ≤ 50)%nat
    ∧ (∀ k row, rows !! k = Some row →
         s.(Single._visible_items) !! k = Some row.1
         ∧ (row.2 = true ↔ Z.of_nat k = s.(Single._selected_index)))
    ∧ (s.(Single._visible_items) ≠ [] →
       ∃ item,
         array_get s.(Single._visible_items) s.(Single._selected_index)
         = Some item
         ∧ rows !! Z.to_nat s.(Single._selected_index) = Some (item, true)).
Proof.
  intros s Hreach.
  apply single_rows; [by apply single_reachable_inv | by apply single_reachable_data].
Qed.

Lemma single_rows_show_cursor_witness :
  let s := Single.run [Single.EvShow (replicate 60 "row") None;
                       SingleCommands.MoveDown] Single.enable in
  (length (SingleData.rendered_rows s) ≤ 50)%nat.
Proof.
  intros s. refine (proj1 (single_rows_show_cursor s _)). by eexists.
Defined.

(** ** More on the filter *)

Lemma words_from_nil (word s : string) :
  words_from word s = [] ↔ word = "" ∧ only_space s = true.
Proof.
  revert word. induction s as [|c s IH]; intros word; simpl.
  - destruct word; split; try done. by intros [? _].
  - destruct (is_space c); simpl.
    + destruct word; [rewrite IH; tauto|]. split; [done | by intros [? _]].
    + rewrite IH. split; [|by intros [_ ?]]. intros [Hw _]. by destruct word.
Qed.

Lemma words_from_app_space (word a : string) (c : ascii) (b : string) :
  is_space c = true →
  words_from word (a +:+ String c b) = words_from word a ++ words_from "" b.
Proof.
  intros Hc. revert word. induction a as [|d a IH]; intros word.
  - change ("" +:+ String c b) with (String c b). simpl. rewrite Hc.
    by destruct word.
  - rewrite app_String. simpl. destruct (is_space d).
    + destruct word; simpl; by rewrite IH.
    + apply IH.
Qed.

Lemma query_tokens_app_space (q t : string) :
  query_tokens (q +:+ " " +:+ t) = query_tokens q ++ query_tokens t.
Proof.
  unfold query_tokens. change (" " +:+ t) with (String " " t).
  by rewrite words_from_app_space, fmap_app.
Qed.

Lemma query_tokens_lower (q : string) :
  query_tokens (toLowerCase q) = query_tokens q.
Proof.
  unfold query_tokens. change "" with (toLowerCase "") at 1.
  rewrite words_from_lower, <- list_fmap_compose.
  apply list_fmap_ext. intros _ token _. simpl. apply toLowerCase_idemp.
Qed.

Lemma allTokensMatch_app (tokens1 tokens2 : list string) (item : string) :
  allTokensMatch (tokens1 ++ tokens2) item
  = allTokensMatch tokens1 item && allTokensMatch tokens2 item.
Proof. unfold allTokensMatch. apply forallb_app. Qed.

Lemma multi_match_list_compose (items : list string) (q t : string) :
  Multi.match_list (Multi.match_list items q) t
  = Multi.match_list items (q +:+ " " +:+ t).
Proof.
  rewrite !multi_match_list_filter, !filterTokens_query_tokens.
  rewrite query_tokens_app_space, list_filter_filter.
  apply list_filter_iff. intros item. rewrite allTokensMatch_app, andb_true_iff.
  tauto.
Qed.

(** X12. A query made of white space only has no token, and only such a
    query has none; for it the MatchList is the whole candidate list in the
    multi-select variant and its first 50 lines in the single-select one. *)
Theorem blank_query_matches_all :
  (∀ query, query_tokens query = [] ↔ only_space query = true)
  ∧ (∀ items query,
       only_space query = true →
       Multi.match_list items query = items
       ∧ Single.match_list items query = take 50 items).
Proof.
  split.
  - intros query. unfold query_tokens. split.
    + intros Hnil%fmap_nil_inv. by apply words_from_nil in Hnil as [_ ?].
    + intros Hblank. by rewrite (proj2 (words_from_nil "" query)).
  - intros items query Hblank.
    assert (Hnil : query_tokens query = []).
    { unfold query_tokens. by rewrite (proj2 (words_from_nil "" query)). }
    rewrite single_match_list_take, (multi_match_list_no_token items query Hnil).
    done.
Qed.

Lemma blank_query_matches_all_witness :
  Multi.match_list ["apple"; "banana"] "   " = ["apple"; "banana"]
  ∧ Single.match_list ["apple"; "banana"] "   " = take 50 ["apple"; "banana"].
Proof. apply (proj2 blank_query_matches_all). reflexivity. Defined.

(** X13. Matching ignores case on both sides: two queries that are equal
    once lower-cased give the same MatchList, in both variants, and two
    lines that are equal once lower-cased pass or fail the test of a query
    together. *)
Theorem matching_ignores_case :
  (∀ items q1 q2,
     toLowerCase q1 = toLowerCase q2 →
     Multi.match_list items q1 = Multi.match_list items q2
     ∧ Single.match_list items q1 = Single.match_list items q2)
  ∧ (∀ query line1 line2,
       toLowerCase line1 = toLowerCase line2 →
       allTokensMatch (filterTokens query) line1
       = allTokensMatch (filterTokens query) line2).
Proof.
  split.
  - intros items q1 q2 Hq.
    assert (Htok : filterTokens q1 = filterTokens q2).
    { rewrite !filterTokens_query_tokens.
      by rewrite <- (query_tokens_lower q1), <- (query_tokens_lower q2), Hq. }
    rewrite !single_match_list_take, !multi_match_list_filter. by rewrite Htok.
  - intros query line1 line2 Hl. unfold allTokensMatch. by rewrite Hl.
Qed.

Lemma matching_ignores_case_witness :
  Multi.match_list ["Apple"; "BANANA"] "ban" = Multi.match_list ["Apple"; "BANANA"] "BaN"
  ∧ Single.match_list ["Apple"; "BANANA"] "ban"
    = Single.match_list ["Apple"; "BANANA"] "BaN".
Proof. apply (proj1 matching_ignores_case). reflexivity. Defined.

(** X14. In the multi-select variant filtering composes: the MatchList of
    the query [q], filtered again by [t], is the MatchList of [q], a space,
    [t]; so adding a word to the query can only take lines away. With the
    cap of the single-select variant this fails: over fifty lines "a"
    followed by "ab", the query "a b" shows "ab", which the query "a" did
    not show. *)
Theorem narrowing_composes :
  (∀ items q t,
     Multi.match_list (Multi.match_list items q) t
     = Multi.match_list items (q +:+ " " +:+ t)
     ∧ Multi.match_list items (q +:+ " " +:+ t)
       `sublist_of` Multi.match_list items q)
  ∧ (let items := replicate 50 "a" ++ ["ab"] in
     "ab" ∈ Single.match_list items "a b" ∧ "ab" ∉ Single.match_list items "a").
Proof.
  split.
  - intros items q t. split; [apply multi_match_list_compose|].
    rewrite <- multi_match_list_compose. apply multi_match_list_sublist.
  - split.
    + by apply (bool_decide_unpack _).
    + intros Hin. apply (bool_decide_pack _) in Hin. by vm_compute in Hin.
Qed.

(** ** Typing, and [show] in the single-select variant *)

Section multi_typing.
Import Multi MultiInv MultiCommands.

Lemma multi_edit_frame text s :
  let s' := step (EvTextEdited text) s in
  s'.(_visible_items) = s.(_visible_items)
  ∧ s'.(_selected_index) = s.(_selected_index)
  ∧ s'.(_selected_items) = s.(_selected_items)
  ∧ s'.(_scroll_start_index) = s.(_scroll_start_index)
  ∧ s'.(log) = s.(log) ∧ s'.(on_stage) = s.(on_stage)
  ∧ (s.(on_stage) = true → s'.(entry_text) = text).
Proof.
  cbv zeta. unfold step, dispatch, entry_set_text.
  destruct (on_stage s) eqn:Hon; [|by split_and!].
  destruct (String.eqb_spec s.(entry_text) text); [by split_and!|].
  unfold _onTextChanged. by destruct (_filter_timeout _).
Qed.

Lemma multi_edits_frame texts s :
  let s' := run (EvTextEdited <$> texts) s in
  s'.(_visible_items) = s.(_visible_items)
  ∧ s'.(_selected_index) = s.(_selected_index)
  ∧ s'.(_selected_items) = s.(_selected_items)
  ∧ s'.(_scroll_start_index) = s.(_scroll_start_index)
  ∧ s'.(log) = s.(log) ∧ s'.(on_stage) = s.(on_stage).
Proof.
  revert s. induction texts as [|text texts IH]; intros s; [done|].
  cbv zeta. change (run (EvTextEdited <$> text :: texts) s)
    with (run (EvTextEdited <$> texts) (step (EvTextEdited text) s)).
  destruct (IH (step (EvTextEdited text) s)) as (-> & -> & -> & -> & -> & ->).
  destruct (multi_edit_frame text s) as (-> & -> & -> & -> & -> & -> & _).
  done.
Qed.

End multi_typing.

Section single_typing.
Import Single SingleInv SingleCommands.

Lemma single_edit_frame text s :
  let s' := step (EvTextEdited text) s in
  s'.(_visible_items) = s.(_visible_items)
  ∧ s'.(_selected_index) = s.(_selected_index)
  ∧ s'.(log) = s.(log) ∧ s'.(on_stage) = s.(on_stage).
Proof.
  cbv zeta. unfold step, dispatch, entry_set_text.
  destruct (on_stage s) eqn:Hon; [|by split_and!].
  destruct (String.eqb_spec s.(entry_text) text); [by split_and!|].
  unfold _onTextChanged. by destruct (_filter_timeout _).
Qed.

Lemma single_edits_frame texts s :
  let s' := run (EvTextEdited <$> texts) s in
  s'.(_visible_items) = s.(_visible_items)
  ∧ s'.(_selected_index) = s.(_selected_index)
  ∧ s'.(log) = s.(log) ∧ s'.(on_stage) = s.(on_stage).
Proof.
  revert s. induction texts as [|text texts IH]; intros s; [done|].
  cbv zeta. change (run (EvTextEdited <$> text :: texts) s)
    with (run (EvTextEdited <$> texts) (step (EvTextEdited text) s)).
  destruct (IH (step (EvTextEdited text) s)) as (-> & -> & -> & ->).
  destruct (single_edit_frame text s) as (-> & -> & -> & ->).
  done.
Qed.

Lemma single_show_forgets items prompt s1 s2 :
  s1.(entry_text) = s2.(entry_text) →
  s1.(_filter_timeout) = s2.(_filter_timeout) →
  s1.(sources) = s2.(sources) → s1.(next_source) = s2.(next_source) →
  s1.(exported) = s2.(exported) → s1.(log) = s2.(log) →
  show _onTextChanged items prompt s1 = show _onTextChanged items prompt s2.
Proof.
  intros Htext Htimer Hsrc Hnext Hexp Hlog.
  destruct s1, s2. simpl in *. subst.
  unfold show, _updateResults, entry_set_text, _onTextChanged. simpl.
  destruct (String.eqb _ ""); [done|]. simpl.
  by repeat case_match.
Qed.

End single_typing.

(** X17. Typing alone recomputes nothing: whatever texts the user puts in
    the entry one after the other, and however fast, the MatchList, the
    cursor, the selection set and the scroll position are those from before
    the first edit until the debounce timer fires, the log does not grow
    and the actor stays where it is. Both variants. *)
Theorem typing_defers_recomputation :
  (∀ texts s,
     let s' := Multi.run (Multi.EvTextEdited <$> texts) s in
     s'.(Multi._visible_items) = s.(Multi._visible_items)
     ∧ s'.(Multi._selected_index) = s.(Multi._selected_index)
     ∧ s'.(Multi._selected_items) = s.(Multi._selected_items)
     ∧ s'.(Multi._scroll_start_index) = s.(Multi._scroll_start_index)
     ∧ s'.(Multi.log) = s.(Multi.log)
     ∧ s'.(Multi.on_stage) = s.(Multi.on_stage))
  ∧ (∀ texts s,
       let s' := Single.run (Single.EvTextEdited <$> texts) s in
       s'.(Single._visible_items) = s.(Single._visible_items)
       ∧ s'.(Single._selected_index) = s.(Single._selected_index)
       ∧ s'.(Single.log) = s.(Single.log)
       ∧ s'.(Single.on_stage) = s.(Single.on_stage)).
Proof. split; [apply multi_edits_frame | apply single_edits_frame]. Qed.

(** X18. [show] in the single-select variant: a [Show] delivered to any
    state replaces the candidates, empties the entry text, puts the cursor
    at 0, makes the MatchList the first 50 of the new items, puts the actor
    on the stage and sets the label to the prompt and a space; the state it
    leaves does not depend on the candidates, MatchList or cursor before. *)
Theorem show_single_variant_state :
  (∀ s items prompt,
     s.(Single.exported) = true →
     let s' := Single.step (Single.EvShow items prompt) s in
     s'.(Single._items) = items ∧ s'.(Single.entry_text) = ""
     ∧ s'.(Single._selected_index) = 0
     ∧ s'.(Single._visible_items) = take 50 items
     ∧ s'.(Single.on_stage) = true
     ∧ s'.(Single.prompt_label) = prompt_or_default prompt +:+ " ")
  ∧ (∀ s1 s2 items prompt,
       s1.(Single.exported) = true → s2.(Single.exported) = true →
       s1.(Single.entry_text) = s2.(Single.entry_text) →
       s1.(Single._filter_timeout) = s2.(Single._filter_timeout) →
       s1.(Single.sources) = s2.(Single.sources) →
       s1.(Single.next_source) = s2.(Single.next_source) →
       s1.(Single.log) = s2.(Single.log) →
       Single.step (Single.EvShow items prompt) s1
       = Single.step (Single.EvShow items prompt) s2).
Proof.
  split.
  - intros s items prompt Hexp. cbv zeta. unfold Single.step, Single.dispatch.
    rewrite Hexp.
    destruct (single_show_state items (prompt_or_default prompt) s)
      as (-> & -> & -> & -> & -> & ->).
    split_and!; try done.
    rewrite single_match_list_take. by rewrite multi_match_list_no_token.
  - intros s1 s2 items prompt Hexp1 Hexp2 Htext Htimer Hsrc Hnext Hlog.
    unfold Single.step, Single.dispatch. rewrite Hexp1, Hexp2.
    apply single_show_forgets; congruence.
Qed.

Lemma show_single_variant_state_witness :
  let s := Single.run [Single.EvShow ["apple"; "banana"] (Some "fruit");
                       SingleCommands.MoveDown; Single.EvTextEdited "b"]
             Single.enable in
  let s' := Single.step (Single.EvShow ["x"; "y"] None) s in
  s'.(Single._items) = ["x"; "y"] ∧ s'.(Single.entry_text) = ""
  ∧ s'.(Single._selected_index) = 0
  ∧ s'.(Single._visible_items) = take 50 ["x"; "y"]
  ∧ s'.(Single.on_stage) = true
  ∧ s'.(Single.prompt_label) = "> ".
Proof.
  intros s. apply (proj1 show_single_variant_state s ["x"; "y"] None). reflexivity.
Defined.
